(** * Strux client: exec manager and log streamer (client-base/exec.go)

    A shallow embedding of the two managers of the on-device agent:
    the [ExecManager] (interactive shells on a pseudo-terminal) and the
    [LogStreamer] (command followers and file tails).

    Layout:
    - [GoLib]: the few functions of Go's standard library the code relies
      on ([os/exec] wait results, the path of [exec.Command],
      [bufio.ScanLines], [bufio.Reader.ReadString]), written after their
      documented behaviour;
    - [Exec]: the exec manager.  Every method is given twice: as a
      function that reads like the Go method (used for sequential calls),
      and cut at its lock boundaries into the atomic steps of a thread, so
      that calls and workers can be interleaved by a schedule;
    - [Logs]: the log streamer, in the same style;
    - scenarios: concrete environments, states and schedules;
    - [GoLibFacts], [ExecFacts], [LogsFacts]: lemmas about the three
      modules, among them that each method run alone as a thread computes
      what its function does, and the invariants of the schedules;
    - [ExecMore], [LogsMore]: the callbacks in every schedule, the
      registry, the workers after a stop, the channels closed by [Stop]
      and [StopAll], the pipe reader and the tailer line by line;
    - the properties of the specification, one theorem each;
    - further properties of the code: the callbacks, the registry,
      [SendInput], the read loop, the start methods of the log streamer,
      [GetActiveStreams], the wait for a log file, the readers.

    Logger calls only write diagnostics; they are not part of the model. *)

From Stdlib Require Import ZArith Ascii String.
From stdpp Require Import gmap strings list fin_maps.

Local Open Scope string_scope.
Local Open Scope list_scope.
Local Open Scope nat_scope.

(* ===================================================================== *)
(** ** Go library functions used by the code *)
(* ===================================================================== *)

Module GoLib.

(** [os.ProcessState] of a child that has ended. *)
Inductive ProcessState :=
| Exited (code : Z)
| Signaled (sig : Z).

(** [ProcessState.Success]: exit status 0. *)
Definition Success (st : ProcessState) : bool :=
  match st with
  | Exited c => (c =? 0)%Z
  | Signaled _ => false
  end.

(** [ProcessState.ExitCode]: the exit code of the exited process, or -1
    when it was terminated by a signal. *)
Definition ExitCode (st : ProcessState) : Z :=
  match st with
  | Exited c => c
  | Signaled _ => (-1)%Z
  end.

(** [cmd.Process]: a started child, running or ended. *)
Inductive process := Running | Ended (st : ProcessState).

(** [Process.Kill] sends SIGKILL. *)
Definition SIGKILL : Z := 9.

(** An [*os.File]: open, or closed by [Close]. *)
Inductive handle := Open | Closed.

(** The error values the managers produce or inspect. *)
Inductive error :=
| AlreadyExists (id : string)   (* fmt.Errorf("... already exists ...") *)
| NotFound (id : string)        (* fmt.Errorf("session not found: %s") *)
| SpawnFailed (cause : error)   (* fmt.Errorf("failed to start ...: %w", err) *)
| ExitError (st : ProcessState) (* *exec.ExitError *)
| OsError.                      (* any other error of the operating system *)

(** [exec.Cmd.Wait] once the child has ended in state [st]: nil when the
    child succeeded, an [*exec.ExitError] carrying the state when it did
    not, and another error when waiting itself failed ([wait_ok = false]). *)
Definition cmd_Wait (st : ProcessState) (wait_ok : bool) : option error :=
  if wait_ok then
    if Success st then None else Some (ExitError st)
  else Some OsError.

Definition LF : ascii := "010"%char.
Definition CR : ascii := "013"%char.

(** [bytes.IndexByte]. *)
Fixpoint IndexByte (s : string) (c : ascii) : option nat :=
  match s with
  | EmptyString => None
  | String a r => if Ascii.eqb a c then Some 0 else S <$> IndexByte r c
  end.

(** [s[:n]] and [s[n:]]. *)
Fixpoint prefix (n : nat) (s : string) : string :=
  match n, s with
  | S n', String a r => String a (prefix n' r)
  | _, _ => EmptyString
  end.

Fixpoint suffix (n : nat) (s : string) : string :=
  match n, s with
  | S n', String _ r => suffix n' r
  | _, _ => s
  end.

(** [s[len(s)-1]], when [len(s) > 0]. *)
Fixpoint last_byte (s : string) : option ascii :=
  match s with
  | EmptyString => None
  | String a EmptyString => Some a
  | String _ r => last_byte r
  end.

(** [s[:len(s)-1]]. *)
Definition chop (s : string) : string := prefix (String.length s - 1) s.

(** [bufio.dropCR]. *)
Definition dropCR (data : string) : string :=
  match last_byte data with
  | Some c => if Ascii.eqb c CR then chop data else data
  | None => data
  end.

(** [bufio.ScanLines]: the bytes to advance and the token found, if any. *)
Definition ScanLines (data : string) (atEOF : bool) : nat * option string :=
  if atEOF && Nat.eqb (String.length data) 0 then (0, None)
  else match IndexByte data LF with
       | Some i => (i + 1, Some (dropCR (prefix i data)))
       | None => if atEOF then (String.length data, Some (dropCR data))
                 else (0, None)
       end.

(** One call of [bufio.Scanner.Scan] with the [ScanLines] split function
    and a buffer limit of [max] bytes, over the bytes [data] read from the
    pipe and not yet consumed; [eof] tells that the pipe has been closed.
    The call yields a token and the bytes left, or needs more input, or
    returns false (end of input, or a line that does not fit the buffer). *)
Inductive scan_result :=
| Token (tok rest : string)
| NeedMore
| ScanEnd.

Definition Scan (max : N) (data : string) (eof : bool) : scan_result :=
  match IndexByte data LF with
  | Some i =>
      if N.ltb (N.of_nat i) max then
        match ScanLines data eof with
        | (adv, Some tok) => Token tok (suffix adv data)
        | (_, None) => ScanEnd
        end
      else ScanEnd
  | None =>
      if N.leb max (N.of_nat (String.length data)) then ScanEnd
      else if eof then
        match ScanLines data true with
        | (adv, Some tok) => Token tok (suffix adv data)
        | (_, None) => ScanEnd
        end
      else NeedMore
  end.

(** [bufio.Reader.ReadString('\n')] over the bytes [rest] that lie
    between the reader's position and the current end of the file: the
    bytes consumed, the string returned, and whether [io.EOF] was hit
    before a delimiter (the bytes read so far are returned with it and
    are consumed). *)
Definition ReadString (rest : string) : nat * string * bool :=
  match IndexByte rest LF with
  | Some i => (i + 1, prefix (i + 1) rest, false)
  | None => (String.length rest, rest, true)
  end.

(** A string without a line feed. *)
Definition no_LF (s : string) : Prop := IndexByte s LF = None.

(** [os.IsPathSeparator] on Unix. *)
Definition IsPathSeparator (c : ascii) : bool := Ascii.eqb c "/".

(** [path] without the separators at its end (first loop of
    [filepath.Base]). *)
Fixpoint strip_separators (path : string) : string :=
  match path with
  | EmptyString => EmptyString
  | String c r =>
      match strip_separators r with
      | EmptyString => if IsPathSeparator c then EmptyString else String c EmptyString
      | r' => String c r'
      end
  end.

(** What follows the last separator of [path], or [path] when it has
    none (second loop of [filepath.Base]). *)
Fixpoint last_element (path : string) : string :=
  match path with
  | EmptyString => EmptyString
  | String c r =>
      match IndexByte r "/" with
      | Some _ => last_element r
      | None => if IsPathSeparator c then r else path
      end
  end.

(** [filepath.Base] on Unix. *)
Definition Base (path : string) : string :=
  if String.eqb path "" then "."
  else
    let elem := last_element (strip_separators path) in
    if String.eqb elem "" then "/" else elem.

(** The [Path] of [exec.Command(name)]: [name] itself, unless
    [filepath.Base(name) == name] (a name with no separator); such a name
    is looked up with [exec.LookPath], and the path found, when there is
    one, is taken.  [LookPath] is the answer of the operating system, the
    empty string when nothing is found. *)
Definition Command_Path (LookPath : string → string) (name : string) : string :=
  if String.eqb (Base name) name then
    let lp := LookPath name in
    if String.eqb lp "" then name else lp
  else name.

(** A line fit for a callback: not empty, no newline at its end. *)
Definition clean (line : string) : Prop :=
  line ≠ "" ∧ last_byte line ≠ Some LF.

End GoLib.

(* ===================================================================== *)
(** ** The exec manager *)
(* ===================================================================== *)

Module Exec.
Import GoLib.

(** [type ExecSession struct].  [done] counts the [close(done)]
    executed on the channel: 0 is an open channel, 1 a closed one, and
    Go panics on the second close. *)
Record ExecSession := mkSession {
  id : string;
  cmd_Path : string;
  cmd_Process : option process;
  pty : option handle;
  done : nat;
}.

(** A call of one of the three callbacks. *)
Inductive event :=
| Output (sessionID stream data : string)
| Exit (sessionID : string) (code : Z)
| Error (sessionID : string) (err : error).

(** [type ExecManager struct]: the registry maps an identifier to a
    pointer to its session; the booleans tell whether the callback
    given to [NewExecManager] is non-nil. *)
Record ExecManager := mkManager {
  sessions : gmap string nat;
  onOutput : bool;
  onExit : bool;
  onError : bool;
}.

(** The manager, the sessions it has allocated (a pointer is an index
    into [heap]) and the callbacks invoked so far, oldest first. *)
Record state := mkState {
  mgr : ExecManager;
  heap : list ExecSession;
  events : list event;
}.

Definition NewExecManager (out ex er : bool) : state :=
  mkState (mkManager ∅ out ex er) [] [].

Definition set_sessions (f : gmap string nat → gmap string nat) (s : state) : state :=
  mkState (mkManager (f (sessions (mgr s))) (onOutput (mgr s)) (onExit (mgr s))
                     (onError (mgr s)))
          (heap s) (events s).

Definition set_session (p : nat) (f : ExecSession → ExecSession) (s : state) : state :=
  mkState (mgr s) (alter f p (heap s)) (events s).

Definition emit (ev : event) (s : state) : state :=
  mkState (mgr s) (heap s) (events s ++ [ev]).

(** What the operating system answers to the calls of one step. *)
Record env := mkEnv {
  fileExists : string → bool;        (* helper of the client, not in this file *)
  LookPath : string → string;        (* exec.LookPath: the path found, or empty *)
  pty_Start : option error;          (* pty.Start(cmd): nil, or its error
                                        (that of the lookup among them) *)
  pty_Read : string * option error;  (* session.pty.Read(buf): bytes and error *)
  pty_Write : option error;          (* session.pty.Write *)
  Wait_ok : bool;                    (* whether waiting on the child works *)
}.

(** Lines 52-59 of [Start]. *)
Definition resolve_shell (e : env) (shell : string) : string :=
  if String.eqb shell "" || negb (fileExists e shell) then
    if fileExists e "/bin/bash" then "/bin/bash" else "/bin/sh"
  else shell.

(** The shell in the words of the specification: the given one when it
    is not empty and executable, else /bin/bash when available, else
    /bin/sh; [executable] is what the words executable and available
    stand for. *)
Definition spec_shell (executable : string → bool) (shell : string) : string :=
  if negb (String.eqb shell "") && executable shell then shell
  else if executable "/bin/bash" then "/bin/bash" else "/bin/sh".

(** [exec.Command(shellPath)] of line 61: the program the command runs. *)
Definition exec_Command (e : env) (shellPath : string) : string :=
  Command_Path (LookPath e) shellPath.

(** [&ExecSession{...}] after a successful [pty.Start]; [path] is the
    [Path] of [cmd]. *)
Definition new_session (sessionID path : string) : ExecSession :=
  mkSession sessionID path (Some Running) (Some Open) 0.

Definition alloc (x : ExecSession) (s : state) : state :=
  mkState (mgr s) (heap s ++ [x]) (events s).

(** [close(session.done)]. *)
Definition close_done (x : ExecSession) : ExecSession :=
  mkSession (id x) (cmd_Path x) (cmd_Process x) (pty x) (S (done x)).

(** [if session.cmd.Process != nil { _ = session.cmd.Process.Kill() }]:
    killing a child that has already ended is an error, which is dropped. *)
Definition kill (x : ExecSession) : ExecSession :=
  match cmd_Process x with
  | Some Running =>
      mkSession (id x) (cmd_Path x) (Some (Ended (Signaled SIGKILL))) (pty x) (done x)
  | _ => x
  end.

(** [if session.pty != nil { _ = session.pty.Close() }]. *)
Definition close_pty (x : ExecSession) : ExecSession :=
  match pty x with
  | Some _ => mkSession (id x) (cmd_Path x) (cmd_Process x) (Some Closed) (done x)
  | None => x
  end.

(** Lines 160-167 of [waitLoop]. *)
Definition exit_code (err : option error) : Z :=
  match err with
  | None => 0
  | Some (ExitError st) => ExitCode st
  | Some _ => 1
  end.

(** The exit code in the words of the specification: 0 on a clean wait,
    the child's own code when it exited non-zero, and 1 when the wait
    failed abnormally, a child killed by a signal included. *)
Definition spec_exit_code (ps : ProcessState) (wait_ok : bool) : Z :=
  if wait_ok then
    match ps with
    | Exited c => c
    | Signaled _ => 1
    end
  else 1.

(** *** Threads

    A thread is a call of a method or a worker goroutine, at one of the
    points where another thread can run in between: a method is cut
    where it takes or releases [m.mu] and at each effect on a session. *)
Inductive thread :=
| Start_lock (sessionID shell : string)        (* at line 45 *)
| Start_spawn (sessionID shell : string)       (* at line 52 *)
| Start_store (sessionID : string) (p : nat)   (* at line 76 *)
| Start_go (p : nat)                           (* at line 80 *)
| SendInput_lock (sessionID data : string)     (* at line 88 *)
| SendInput_write (p : nat) (data : string)    (* at line 96 *)
| Stop_lock (sessionID : string) (rest : list string)  (* at line 101 *)
| Stop_close (p : nat) (rest : list string)    (* at line 112 *)
| Stop_kill (p : nat) (rest : list string)     (* at line 113 *)
| Stop_ptyclose (p : nat) (rest : list string) (* at line 116 *)
| StopAll_lock                                 (* at line 122 *)
| readLoop_select (p : nat)                    (* at line 138 *)
| readLoop_read (p : nat)                      (* at line 144, in Read *)
| readLoop_deliver (p : nat) (r : string * option error)  (* at line 145 *)
| waitLoop_wait (p : nat)                      (* at line 159, in Wait *)
| waitLoop_onExit (p : nat) (exitCode : Z)     (* at line 169 *)
| Returned (err : option error)                (* the call or worker is over *)
| Panicked.                                    (* close of a closed channel *)

(** [Stop] is called by the client, by [waitLoop] and by the loop of
    [StopAll]; [rest] holds the identifiers [StopAll] has yet to stop. *)
Definition after_Stop (rest : list string) : thread :=
  match rest with
  | [] => Returned None
  | sessionID :: rest' => Stop_lock sessionID rest'
  end.

(** The identifiers [StopAll] collects, in the order of its [range]. *)
Definition ids_of (m : gmap string nat) : list string := (map_to_list m).*1.

(** One atomic step of a thread: its next state, the state of the
    manager and the goroutines it launches; [None] when the thread is
    blocked or over. *)
Definition thread_step (e : env) (t : thread) (s : state)
  : option (thread * state * list thread) :=
  match t with
  | Start_lock sessionID shell =>
      match sessions (mgr s) !! sessionID with
      | Some _ => Some (Returned (Some (AlreadyExists sessionID)), s, [])
      | None => Some (Start_spawn sessionID shell, s, [])
      end
  | Start_spawn sessionID shell =>
      match pty_Start e with
      | Some err => Some (Returned (Some (SpawnFailed err)), s, [])
      | None =>
          Some (Start_store sessionID (length (heap s)),
                alloc (new_session sessionID
                         (exec_Command e (resolve_shell e shell))) s, [])
      end
  | Start_store sessionID p =>
      Some (Start_go p, set_sessions <[sessionID := p]> s, [])
  | Start_go p =>
      Some (Returned None, s, [readLoop_select p; waitLoop_wait p])
  | SendInput_lock sessionID data =>
      match sessions (mgr s) !! sessionID with
      | Some p => Some (SendInput_write p data, s, [])
      | None => Some (Returned (Some (NotFound sessionID)), s, [])
      end
  | SendInput_write p data =>
      x ← heap s !! p;
      match pty x with
      | Some Open => Some (Returned (pty_Write e), s, [])
      | _ => Some (Returned (Some OsError), s, [])
      end
  | Stop_lock sessionID rest =>
      match sessions (mgr s) !! sessionID with
      | Some p => Some (Stop_close p rest, set_sessions (delete sessionID) s, [])
      | None => Some (after_Stop rest, s, [])
      end
  | Stop_close p rest =>
      x ← heap s !! p;
      Some (if decide (done x = 0) then Stop_kill p rest else Panicked,
            set_session p close_done s, [])
  | Stop_kill p rest => Some (Stop_ptyclose p rest, set_session p kill s, [])
  | Stop_ptyclose p rest => Some (after_Stop rest, set_session p close_pty s, [])
  | StopAll_lock => Some (after_Stop (ids_of (sessions (mgr s))), s, [])
  | readLoop_select p =>
      x ← heap s !! p;
      Some (if decide (done x = 0) then readLoop_read p else Returned None, s, [])
  | readLoop_read p =>
      x ← heap s !! p;
      match pty x with
      | Some Open => Some (readLoop_deliver p (pty_Read e), s, [])
      | _ => Some (readLoop_deliver p ("", Some OsError), s, [])
      end
  | readLoop_deliver p (data, Some err) =>
      x ← heap s !! p;
      Some (Returned None, if onError (mgr s) then emit (Error (id x) err) s else s, [])
  | readLoop_deliver p (data, None) =>
      x ← heap s !! p;
      Some (readLoop_select p,
            if Nat.ltb 0 (String.length data) && onOutput (mgr s)
            then emit (Output (id x) "stdout" data) s else s, [])
  | waitLoop_wait p =>
      x ← heap s !! p;
      match cmd_Process x with
      | Some (Ended st) =>
          Some (waitLoop_onExit p (exit_code (cmd_Wait st (Wait_ok e))), s, [])
      | _ => None
      end
  | waitLoop_onExit p exitCode =>
      x ← heap s !! p;
      Some (Stop_lock (id x) [],
            if onExit (mgr s) then emit (Exit (id x) exitCode) s else s, [])
  | Returned _ => None
  | Panicked => None
  end.

(** *** The methods, as one reads them

    A call that runs with no other thread in between.  [Start] returns
    its error and the goroutines it has launched. *)

Definition Start (e : env) (sessionID shell : string) (s : state)
  : option error * state * list thread :=
  match sessions (mgr s) !! sessionID with
  | Some _ => (Some (AlreadyExists sessionID), s, [])
  | None =>
      let shellPath := resolve_shell e shell in
      match pty_Start e with
      | Some err => (Some (SpawnFailed err), s, [])
      | None =>
          let p := length (heap s) in
          let s1 := alloc (new_session sessionID (exec_Command e shellPath)) s in
          (None, set_sessions <[sessionID := p]> s1,
           [readLoop_select p; waitLoop_wait p])
      end
  end.

Definition SendInput (e : env) (sessionID data : string) (s : state) : option error :=
  match sessions (mgr s) !! sessionID with
  | None => Some (NotFound sessionID)
  | Some p =>
      match pty <$> heap s !! p with
      | Some (Some Open) => pty_Write e
      | _ => Some OsError
      end
  end.

Definition Stop (sessionID : string) (s : state) : state :=
  match sessions (mgr s) !! sessionID with
  | None => s
  | Some p =>
      let s1 := set_sessions (delete sessionID) s in
      let s2 := set_session p close_done s1 in
      let s3 := set_session p kill s2 in
      set_session p close_pty s3
  end.

(** Stopping a list of identifiers one after the other. *)
Definition stop_each (ids : list string) (s : state) : state :=
  foldl (λ s' sessionID, Stop sessionID s') s ids.

Definition StopAll (s : state) : state :=
  stop_each (ids_of (sessions (mgr s))) s.

(** A session whose child is not running and whose terminal is not open. *)
Definition released (x : ExecSession) : Prop :=
  cmd_Process x ≠ Some Running ∧ pty x ≠ Some Open.

(** [waitLoop] for session [p], once [Wait] can return: [None] while the
    child is still running. *)
Definition waitLoop (e : env) (p : nat) (s : state) : option state :=
  x ← heap s !! p;
  match cmd_Process x with
  | Some (Ended ps) =>
      let exitCode := exit_code (cmd_Wait ps (Wait_ok e)) in
      let s1 := if onExit (mgr s) then emit (Exit (id x) exitCode) s else s in
      Some (Stop (id x) s1)
  | _ => None
  end.

(** A thread run on its own for at most [fuel] steps. *)
Fixpoint run_alone (fuel : nat) (e : env) (t : thread) (s : state)
  : thread * state * list thread :=
  match fuel with
  | 0 => (t, s, [])
  | S fuel' =>
      match thread_step e t s with
      | None => (t, s, [])
      | Some (t', s', new) =>
          let '(t'', s'', new') := run_alone fuel' e t' s' in
          (t'', s'', new ++ new')
      end
  end.

(** *** Schedules *)

Record world := mkWorld {
  st : state;
  threads : list thread;
}.

(** What can happen next: thread [i] takes a step, the client calls a
    method, or the child of session [p] ends on its own. *)
Inductive label :=
| Run (i : nat) (e : env)
| Call (t : thread)
| ChildEnds (p : nat) (ps : ProcessState).

Definition is_call (t : thread) : bool :=
  match t with
  | Start_lock _ _ | SendInput_lock _ _ | Stop_lock _ [] | StopAll_lock => true
  | _ => false
  end.

Definition child_ends (ps : ProcessState) (x : ExecSession) : ExecSession :=
  match cmd_Process x with
  | Some Running => mkSession (id x) (cmd_Path x) (Some (Ended ps)) (pty x) (done x)
  | _ => x
  end.

Definition step (l : label) (w : world) : option world :=
  match l with
  | Run i e =>
      t ← threads w !! i;
      '(t', s', new) ← thread_step e t (st w);
      Some (mkWorld s' (<[i := t']> (threads w) ++ new))
  | Call t =>
      if is_call t then Some (mkWorld (st w) (threads w ++ [t])) else None
  | ChildEnds p ps =>
      x ← heap (st w) !! p;
      match cmd_Process x with
      | Some Running => Some (mkWorld (set_session p (child_ends ps) (st w)) (threads w))
      | _ => None
      end
  end.

Fixpoint run (ls : list label) (w : world) : option world :=
  match ls with
  | [] => Some w
  | l :: ls' => w' ← step l w; run ls' w'
  end.

(** Session [p], of identifier [k], has been stopped: its [done]
    channel is closed, its child has ended and its terminal is closed. *)
Definition halted (p : nat) (k : string) (s : state) : Prop :=
  ∃ x, heap s !! p = Some x ∧ id x = k ∧ 1 ≤ done x ∧
       (∃ ps, cmd_Process x = Some (Ended ps)) ∧ pty x = Some Closed.

(** A change of a session that undoes nothing of a stop. *)
Definition settles (f : ExecSession → ExecSession) : Prop :=
  ∀ x, id (f x) = id x ∧ done x ≤ done (f x) ∧
       ((∃ ps, cmd_Process x = Some (Ended ps)) →
        ∃ ps, cmd_Process (f x) = Some (Ended ps)) ∧
       (pty x = Some Closed → pty (f x) = Some Closed).

(** *** Who closes a channel

    The identifier and the channel count of every session, by pointer. *)
Definition tags (s : state) : list (string * nat) :=
  (λ x, (id x, done x)) <$> heap s.

(** The session a thread holds for itself: the one [Start] has spawned
    and is about to register, the one [Stop] has removed from the registry
    and is about to close. *)
Definition owned (t : thread) : list nat :=
  match t with
  | Start_store _ p | Stop_close p _ => [p]
  | _ => []
  end.

Definition owned_by (ts : list thread) : list nat := ts ≫= owned.

(** Goroutines just launched: they own no session and have not panicked. *)
Definition calm (new : list thread) : Prop :=
  owned_by new = [] ∧ Forall (λ t, t ≠ Panicked) new.

(** The registry holds sessions with an open channel, none of them
    twice; the sessions that threads hold for themselves are distinct,
    have an open channel and are not registered; no channel has been closed
    twice. *)
Record sound (w : world) : Prop := mkSound {
  sound_registered :
    ∀ sessionID p, sessions (mgr (st w)) !! sessionID = Some p →
                   ∃ k, tags (st w) !! p = Some (k, 0);
  sound_injective :
    ∀ k1 k2 p, sessions (mgr (st w)) !! k1 = Some p →
               sessions (mgr (st w)) !! k2 = Some p → k1 = k2;
  sound_owned_once : NoDup (owned_by (threads w));
  sound_owned :
    ∀ p, p ∈ owned_by (threads w) →
         (∃ k, tags (st w) !! p = Some (k, 0)) ∧
         ∀ sessionID, sessions (mgr (st w)) !! sessionID ≠ Some p;
  sound_closed_once :
    ∀ p k d, tags (st w) !! p = Some (k, d) → d ≤ 1;
  sound_no_panic : Panicked ∉ threads w;
}.

(** What a step does to the registry, the tags and the session its
    thread holds. *)
Inductive effect (s s' : state) (t t' : thread) : Prop :=
| quiet :
    sessions (mgr s') = sessions (mgr s) → tags s' = tags s →
    owned t' = owned t → t' ≠ Panicked → effect s s' t t'
| removes sessionID p :
    sessions (mgr s) !! sessionID = Some p →
    sessions (mgr s') = delete sessionID (sessions (mgr s)) →
    tags s' = tags s → owned t = [] → owned t' = [p] →
    t' ≠ Panicked → effect s s' t t'
| closes p k d :
    owned t = [p] → tags s !! p = Some (k, d) →
    tags s' = <[p := (k, S d)]> (tags s) →
    sessions (mgr s') = sessions (mgr s) → owned t' = [] →
    (d = 0 → t' ≠ Panicked) → effect s s' t t'
| allocates sessionID :
    tags s' = tags s ++ [(sessionID, 0)] → owned t = [] →
    owned t' = [length (tags s)] →
    sessions (mgr s') = sessions (mgr s) → t' ≠ Panicked → effect s s' t t'
| stores sessionID p :
    owned t = [p] → owned t' = [] → tags s' = tags s →
    sessions (mgr s') = <[sessionID := p]> (sessions (mgr s)) →
    t' ≠ Panicked → effect s s' t t'.

(** A change of a session that keeps its identifier and its channel. *)
Definition keeps_tag (f : ExecSession → ExecSession) : Prop :=
  ∀ x, id (f x) = id x ∧ done (f x) = done x.

(** The registered sessions exist, each under one identifier, with
    an open channel. *)
Definition tidy (s : state) : Prop :=
  (∀ k p, sessions (mgr s) !! k = Some p → ∃ x, heap s !! p = Some x ∧ done x = 0) ∧
  (∀ k1 k2 p, sessions (mgr s) !! k1 = Some p → sessions (mgr s) !! k2 = Some p →
              k1 = k2).

(** *** Callbacks, by kind

    The exit callback and the error callback; [reports c evs] are the
    identifiers callback [c] has been invoked with, oldest first. *)
Inductive callback := exit_callback | error_callback.

Definition reports (c : callback) (evs : list event) : list string :=
  evs ≫= λ ev,
    match c, ev with
    | exit_callback, Exit k _ => [k]
    | error_callback, Error k _ => [k]
    | _, _ => []
    end.

(** How many times identifier [k] occurs in [ks]. *)
Definition times (k : string) (ks : list string) : nat :=
  length (filter (λ k', k' = k) ks).

(** The session for which a thread has yet to invoke callback [c], or to
    launch the worker that does: [waitLoop] invokes the exit callback,
    [readLoop] the error callback. *)
Definition pending (c : callback) (t : thread) : list nat :=
  match t with
  | Start_store _ p | Start_go p => [p]
  | waitLoop_wait p | waitLoop_onExit p _ =>
      match c with exit_callback => [p] | error_callback => [] end
  | readLoop_select p | readLoop_read p | readLoop_deliver p _ =>
      match c with exit_callback => [] | error_callback => [p] end
  | _ => []
  end.

Definition pending_by (c : callback) (ts : list thread) : list nat :=
  ts ≫= pending c.

(** The identifiers of the sessions at the pointers [ps]. *)
Definition ids_at (s : state) (ps : list nat) : list string :=
  omap (λ p, id <$> heap s !! p) ps.

(** The callbacks made and those still to come are, as multisets of
    identifiers, among the sessions allocated. *)
Definition accounted (c : callback) (w : world) : Prop :=
  reports c (events (st w)) ++ ids_at (st w) (pending_by c (threads w))
    ⊆+ id <$> heap (st w) ∧
  Forall (λ p, p < length (heap (st w))) (pending_by c (threads w)).

(** The session a [Stop] has closed the channel of and is about to kill
    or to close the terminal of. *)
Definition closing (t : thread) : list nat :=
  match t with
  | Stop_kill p _ | Stop_ptyclose p _ => [p]
  | _ => []
  end.

(** Every session has a terminal, closed only after its channel; the
    sessions that threads are about to kill or close have a closed
    channel. *)
Definition wired (w : world) : Prop :=
  (∀ p x, heap (st w) !! p = Some x →
          is_Some (pty x) ∧ (pty x = Some Closed → 1 ≤ done x)) ∧
  (∀ t p, t ∈ threads w → p ∈ closing t →
          ∃ x, heap (st w) !! p = Some x ∧ 1 ≤ done x).

(** Thread [t] is the read loop of session [p]. *)
Definition readLoop_of (p : nat) (t : thread) : bool :=
  match t with
  | readLoop_select q | readLoop_read q | readLoop_deliver q _ => Nat.eqb q p
  | _ => false
  end.

(** A callback the manager may make: one that was installed, with the
    identifier of a session it has allocated; output is tagged [stdout]
    and is not empty. *)
Definition well_formed (s : state) (ev : event) : Prop :=
  match ev with
  | Output k stream data =>
      onOutput (mgr s) = true ∧ stream = "stdout" ∧ data ≠ "" ∧ k ∈ id <$> heap s
  | Exit k _ => onExit (mgr s) = true ∧ k ∈ id <$> heap s
  | Error k _ => onError (mgr s) = true ∧ k ∈ id <$> heap s
  end.

(** Every session in the registry, and every session a [Start] is about
    to register, carries the identifier it is registered under. *)
Definition named (w : world) : Prop :=
  (∀ k p, sessions (mgr (st w)) !! k = Some p →
          id <$> heap (st w) !! p = Some k) ∧
  (∀ k p, Start_store k p ∈ threads w → id <$> heap (st w) !! p = Some k).

End Exec.

(* ===================================================================== *)
(** ** The log streamer *)
(* ===================================================================== *)

Module Logs.
Import GoLib.

Inductive LogStreamType := LogStreamTypeCommand | LogStreamTypeFile.

(** [*exec.Cmd]: the command line and the child, nil until started. *)
Record Cmd := mkCmd {
  Args : list string;
  Process : option process;
}.

(** [type LogStream struct].  [done] counts the [close(done)] executed
    (Go panics on the second); the callback of the stream is not a field
    here: its calls are recorded as events. *)
Record LogStream := mkStream {
  ID : string;
  Service : string;
  StreamType : LogStreamType;
  cmd : option Cmd;
  file : option handle;
  done : nat;
  stopped : bool;
}.

(** [stream.callback(line)] of the stream at pointer [p]. *)
Inductive event :=
| Line (p : nat) (line : string).

(** The streamer ([streams] maps an identifier to a pointer into
    [heap]), the callbacks invoked so far, oldest first, and the files of
    the device by path. *)
Record state := mkState {
  streams : gmap string nat;
  heap : list LogStream;
  events : list event;
  fs : gmap string string;
}.

Definition NewLogStreamer (files : gmap string string) : state :=
  mkState ∅ [] [] files.

Definition set_streams (f : gmap string nat → gmap string nat) (s : state) : state :=
  mkState (f (streams s)) (heap s) (events s) (fs s).

Definition set_stream (p : nat) (f : LogStream → LogStream) (s : state) : state :=
  mkState (streams s) (alter f p (heap s)) (events s) (fs s).

Definition alloc (x : LogStream) (s : state) : state :=
  mkState (streams s) (heap s ++ [x]) (events s) (fs s).

Definition emit (ev : event) (s : state) : state :=
  mkState (streams s) (heap s) (events s ++ [ev]) (fs s).

(** What the operating system answers to the calls of one step. *)
Record env := mkEnv {
  StdoutPipe : list string → option error;  (* by command line *)
  StderrPipe : list string → option error;
  cmd_Start : list string → option error;
  pipe_Read : string * bool;   (* bytes that arrive on the pipe, and end of input *)
  os_Open : option error;      (* a failure of os.Open on an existing file *)
  file_Read : option error;    (* a failure of reading an open file *)
}.

Definition maxWait : N := 60000.       (* 60 * time.Second, in ms *)
Definition waitInterval : N := 500.    (* 500 * time.Millisecond *)
Definition maxTokenSize : N := 1024 * 1024.

Definition set_cmd (c : option Cmd) (x : LogStream) : LogStream :=
  mkStream (ID x) (Service x) (StreamType x) c (file x) (done x) (stopped x).

Definition set_file (f : option handle) (x : LogStream) : LogStream :=
  mkStream (ID x) (Service x) (StreamType x) (cmd x) f (done x) (stopped x).

(** [stream.cmd.Start()] has succeeded. *)
Definition started (x : LogStream) : LogStream :=
  match cmd x with
  | Some c => set_cmd (Some (mkCmd (Args c) (Some Running))) x
  | None => x
  end.

(** [stream.stopped = true]. *)
Definition mark_stopped (x : LogStream) : LogStream :=
  mkStream (ID x) (Service x) (StreamType x) (cmd x) (file x) (done x) true.

(** [close(stream.done)]. *)
Definition close_done (x : LogStream) : LogStream :=
  mkStream (ID x) (Service x) (StreamType x) (cmd x) (file x) (S (done x)) (stopped x).

(** [if stream.cmd != nil && stream.cmd.Process != nil { stream.cmd.Process.Kill() }]. *)
Definition kill (x : LogStream) : LogStream :=
  match cmd x with
  | Some (mkCmd args (Some Running)) =>
      set_cmd (Some (mkCmd args (Some (Ended (Signaled SIGKILL))))) x
  | _ => x
  end.

(** [if stream.file != nil { stream.file.Close() }], and the deferred
    [file.Close()] of [tailFile]. *)
Definition close_file (x : LogStream) : LogStream :=
  match file x with
  | Some _ => set_file (Some Closed) x
  | None => x
  end.

(** Lines 541-544 of [tailFile]: remove the trailing newline. *)
Definition strip_newline (line : string) : string :=
  match last_byte line with
  | Some c => if Ascii.eqb c LF then chop line else line
  | None => line
  end.

Definition nonempty (line : string) : bool := negb (String.eqb line "").

Inductive thread :=
| StartJournalctlStream_call (streamID : string)
| StartServiceStream_call (streamID serviceName : string)
| StartAppLogStream_call (streamID : string)
| StartCageLogStream_call (streamID : string)
| StartEarlyLogStream_call (streamID : string)
| GetActiveStreams_call
| Stop_lock (streamID : string)                  (* at line 567 *)
| Stop_mark (p : nat) (rest : list nat)          (* at line 580 / 616 *)
| Stop_close (p : nat) (rest : list nat)         (* at line 585 / 620 *)
| Stop_kill (p : nat) (rest : list nat)          (* at line 588 / 621 *)
| Stop_fileclose (p : nat) (rest : list nat)     (* at line 593 / 624 *)
| StopAll_lock                                   (* at line 600 *)
| waiter_Wait (p : nat)                          (* at line 417, in Wait *)
| waiter_Sleep (p : nat)                         (* at line 419 *)
| waiter_cleanup (p : nat)                       (* at line 420 *)
| readPipe_select (p : nat) (buf : string)       (* at line 488 *)
| readPipe_Scan (p : nat) (buf : string)         (* at line 494, in Scan *)
| readPipe_check (p : nat) (line buf : string)   (* at line 501 *)
| readPipe_callback (p : nat) (line buf : string)  (* at line 507 *)
| fileWait_select (p : nat) (filePath : string) (elapsed : N)  (* at line 434 *)
| fileWait_Stat (p : nat) (filePath : string) (elapsed : N)    (* at line 442 *)
| file_check (p : nat) (filePath : string)       (* at line 451 *)
| file_Open (p : nat) (filePath : string)        (* at line 459 *)
| file_store (p : nat) (filePath : string)       (* at line 465 *)
| file_Seek (p : nat) (filePath : string)        (* at line 470 *)
| tailFile_select (p : nat) (filePath : string) (pos : nat)    (* at line 524 *)
| tailFile_Read (p : nat) (filePath : string) (pos : nat)      (* at line 530 *)
| tailFile_check (p : nat) (filePath : string) (pos : nat) (line : string)    (* at line 547 *)
| tailFile_callback (p : nat) (filePath : string) (pos : nat) (line : string) (* at line 553 *)
| Returned (err : option error) (ids : list string)
| Panicked.

Definition ret (err : option error) : thread := Returned err [].

(** [startCommandStream] on the stream at [p]: its error, the state and
    the goroutines launched (two pipe readers and the waiter). *)
Definition startCommandStream (e : env) (p : nat) (s : state)
  : option error * state * list thread :=
  let args := default [] (Args <$> (heap s !! p ≫= cmd)) in
  match StdoutPipe e args with
  | Some err => (Some (SpawnFailed err), s, [])
  | None =>
  match StderrPipe e args with
  | Some err => (Some (SpawnFailed err), s, [])
  | None =>
  match cmd_Start e args with
  | Some err => (Some (SpawnFailed err), s, [])
  | None =>
      (None, set_stream p started s,
       [readPipe_select p ""; readPipe_select p ""; waiter_Wait p])
  end end end.

(** [startFileStream]: launches the worker that waits for the file and
    tails it; never fails. *)
Definition startFileStream (p : nat) (filePath : string) (s : state)
  : option error * state * list thread :=
  (None, s, [fileWait_select p filePath 0%N]).

(** The body shared by [StartJournalctlStream] and [StartServiceStream]. *)
Definition start_command (e : env) (streamID serviceName : string) (args : list string)
  (s : state) : option error * state * list thread :=
  match streams s !! streamID with
  | Some _ => (Some (AlreadyExists streamID), s, [])
  | None =>
      let p := length (heap s) in
      let stream := mkStream streamID serviceName LogStreamTypeCommand
                             (Some (mkCmd args None)) None 0 false in
      match startCommandStream e p (alloc stream s) with
      | (Some err, s1, new) => (Some err, s1, new)
      | (None, s1, new) => (None, set_streams <[streamID := p]> s1, new)
      end
  end.

Definition StartJournalctlStream (e : env) (streamID : string) (s : state) :=
  start_command e streamID ""
    ["journalctl"; "-f"; "--no-pager"; "-o"; "short-precise"] s.

Definition StartServiceStream (e : env) (streamID serviceName : string) (s : state) :=
  start_command e streamID serviceName
    ["journalctl"; "-f"; "--no-pager"; "-u"; serviceName; "-o"; "short-precise"] s.

(** The body shared by [StartAppLogStream] and [StartCageLogStream]. *)
Definition start_file (streamID filePath : string) (s : state)
  : option error * state * list thread :=
  match streams s !! streamID with
  | Some _ => (Some (AlreadyExists streamID), s, [])
  | None =>
      let p := length (heap s) in
      let stream := mkStream streamID "" LogStreamTypeFile None None 0 false in
      match startFileStream p filePath (alloc stream s) with
      | (Some err, s1, new) => (Some err, s1, new)
      | (None, s1, new) => (None, set_streams <[streamID := p]> s1, new)
      end
  end.

Definition StartAppLogStream (streamID : string) (s : state) :=
  start_file streamID "/tmp/strux-backend.log" s.

Definition StartCageLogStream (streamID : string) (s : state) :=
  start_file streamID "/tmp/strux-cage.log" s.

Definition StartEarlyLogStream (e : env) (streamID : string) (s : state)
  : option error * state * list thread :=
  match streams s !! streamID with
  | Some _ => (Some (AlreadyExists streamID), s, [])
  | None =>
      let p := length (heap s) in
      let stream := mkStream streamID "" LogStreamTypeCommand
        (Some (mkCmd ["journalctl"; "-b"; "-f"; "--no-pager"; "-o"; "short-precise"] None))
        None 0 false in
      match startCommandStream e p (alloc stream s) with
      | (None, s1, new) => (None, set_streams <[streamID := p]> s1, new)
      | (Some _, s1, _) =>
          let s2 := set_stream p (set_cmd (Some (mkCmd ["dmesg"; "-w"] None))) s1 in
          match startCommandStream e p s2 with
          | (Some err, s3, new) => (Some err, s3, new)
          | (None, s3, new) => (None, set_streams <[streamID := p]> s3, new)
          end
      end
  end.

Definition cleanupStream (streamID : string) (s : state) : state :=
  set_streams (delete streamID) s.

Definition ids_of (m : gmap string nat) : list string := (map_to_list m).*1.
Definition ptrs_of (m : gmap string nat) : list nat := (map_to_list m).*2.

Definition GetActiveStreams (s : state) : list string := ids_of (streams s).

(** The teardown of one stream, shared by [Stop] and the loop of
    [StopAll]. *)
Definition teardown (p : nat) (s : state) : state :=
  set_stream p close_file
    (set_stream p kill (set_stream p close_done (set_stream p mark_stopped s))).

Definition Stop (streamID : string) (s : state) : state :=
  match streams s !! streamID with
  | None => s
  | Some p => teardown p (set_streams (delete streamID) s)
  end.

(** Tearing down a list of streams one after the other. *)
Definition teardown_each (ps : list nat) (s : state) : state :=
  foldl (λ s' p, teardown p s') s ps.

Definition StopAll (s : state) : state :=
  teardown_each (ptrs_of (streams s)) (set_streams (λ _, ∅) s).

(** A stream whose child is not running and whose file is not open. *)
Definition released (x : LogStream) : Prop :=
  (∀ args, cmd x ≠ Some (mkCmd args (Some Running))) ∧ file x ≠ Some Open.

(** An operating system on which the follower commands can be started. *)
Definition can_spawn (e : env) : Prop :=
  ∀ args, StdoutPipe e args = None ∧ StderrPipe e args = None ∧ cmd_Start e args = None.

(** [Stop] tears down one stream, the loop of [StopAll] the streams
    [rest] it has yet to stop. *)
Definition after_teardown (rest : list nat) : thread :=
  match rest with
  | [] => ret None
  | p :: rest' => Stop_mark p rest'
  end.

Definition is_open (x : LogStream) : bool :=
  match file x with Some Open => true | _ => false end.

(** One atomic step of a thread.  The [Start...] methods hold [l.mu]
    from entry to return, so each is one step. *)
Definition thread_step (e : env) (t : thread) (s : state)
  : option (thread * state * list thread) :=
  match t with
  | StartJournalctlStream_call streamID =>
      let '(err, s', new) := StartJournalctlStream e streamID s in
      Some (ret err, s', new)
  | StartServiceStream_call streamID serviceName =>
      let '(err, s', new) := StartServiceStream e streamID serviceName s in
      Some (ret err, s', new)
  | StartAppLogStream_call streamID =>
      let '(err, s', new) := StartAppLogStream streamID s in
      Some (ret err, s', new)
  | StartCageLogStream_call streamID =>
      let '(err, s', new) := StartCageLogStream streamID s in
      Some (ret err, s', new)
  | StartEarlyLogStream_call streamID =>
      let '(err, s', new) := StartEarlyLogStream e streamID s in
      Some (ret err, s', new)
  | GetActiveStreams_call => Some (Returned None (GetActiveStreams s), s, [])
  | Stop_lock streamID =>
      match streams s !! streamID with
      | None => Some (ret None, s, [])
      | Some p => Some (Stop_mark p [], set_streams (delete streamID) s, [])
      end
  | Stop_mark p rest => Some (Stop_close p rest, set_stream p mark_stopped s, [])
  | Stop_close p rest =>
      x ← heap s !! p;
      Some (if decide (done x = 0) then Stop_kill p rest else Panicked,
            set_stream p close_done s, [])
  | Stop_kill p rest => Some (Stop_fileclose p rest, set_stream p kill s, [])
  | Stop_fileclose p rest => Some (after_teardown rest, set_stream p close_file s, [])
  | StopAll_lock =>
      Some (after_teardown (ptrs_of (streams s)), set_streams (λ _, ∅) s, [])
  | waiter_Wait p =>
      x ← heap s !! p;
      match cmd x with
      | Some (mkCmd _ (Some (Ended _))) => Some (waiter_Sleep p, s, [])
      | _ => None
      end
  | waiter_Sleep p => Some (waiter_cleanup p, s, [])
  | waiter_cleanup p =>
      x ← heap s !! p;
      Some (ret None, cleanupStream (ID x) s, [])
  | readPipe_select p buf =>
      x ← heap s !! p;
      Some (if decide (done x = 0) then readPipe_Scan p buf else ret None, s, [])
  | readPipe_Scan p buf =>
      let '(chunk, eof) := pipe_Read e in
      match Scan maxTokenSize (String.append buf chunk) eof with
      | Token line rest =>
          Some (if nonempty line then readPipe_check p line rest
                else readPipe_select p rest, s, [])
      | NeedMore => Some (readPipe_Scan p (String.append buf chunk), s, [])
      | ScanEnd => Some (ret None, s, [])
      end
  | readPipe_check p line buf =>
      x ← heap s !! p;
      Some (if stopped x then ret None else readPipe_callback p line buf, s, [])
  | readPipe_callback p line buf =>
      Some (readPipe_select p buf, emit (Line p line) s, [])
  | fileWait_select p filePath elapsed =>
      x ← heap s !! p;
      if N.ltb elapsed maxWait then
        Some (if decide (done x = 0) then fileWait_Stat p filePath elapsed
              else ret None, s, [])
      else Some (file_check p filePath, s, [])
  | fileWait_Stat p filePath elapsed =>
      match fs s !! filePath with
      | Some _ => Some (file_check p filePath, s, [])
      | None => Some (fileWait_select p filePath (elapsed + waitInterval)%N, s, [])
      end
  | file_check p filePath =>
      x ← heap s !! p;
      Some (if stopped x then ret None else file_Open p filePath, s, [])
  | file_Open p filePath =>
      match fs s !! filePath, os_Open e with
      | Some _, None => Some (file_store p filePath, s, [])
      | _, _ => Some (ret None, s, [])
      end
  | file_store p filePath =>
      Some (file_Seek p filePath, set_stream p (set_file (Some Open)) s, [])
  | file_Seek p filePath =>
      Some (tailFile_select p filePath
              (String.length (default "" (fs s !! filePath))), s, [])
  | tailFile_select p filePath pos =>
      x ← heap s !! p;
      if decide (done x = 0) then Some (tailFile_Read p filePath pos, s, [])
      else Some (ret None, set_stream p close_file s, [])
  | tailFile_Read p filePath pos =>
      x ← heap s !! p;
      if is_open x then
        match file_Read e with
        | Some _ => Some (ret None, set_stream p close_file s, [])
        | None =>
            let '(n, line, eof) :=
              ReadString (suffix pos (default "" (fs s !! filePath))) in
            if eof then Some (tailFile_select p filePath (pos + n), s, [])
            else
              let line' := strip_newline line in
              Some (if nonempty line' then tailFile_check p filePath (pos + n) line'
                    else tailFile_select p filePath (pos + n), s, [])
        end
      else Some (ret None, set_stream p close_file s, [])
  | tailFile_check p filePath pos line =>
      x ← heap s !! p;
      if stopped x then Some (ret None, set_stream p close_file s, [])
      else Some (tailFile_callback p filePath pos line, s, [])
  | tailFile_callback p filePath pos line =>
      Some (tailFile_select p filePath pos, emit (Line p line) s, [])
  | Returned _ _ => None
  | Panicked => None
  end.

(** *** Schedules *)

Record world := mkWorld {
  st : state;
  threads : list thread;
}.

(** What can happen next: thread [i] takes a step, the client calls a
    method, the child of stream [p] ends on its own, or some program of
    the device appends [data] to the file at [path], creating it if
    needed. *)
Inductive label :=
| Run (i : nat) (e : env)
| Call (t : thread)
| ChildEnds (p : nat) (ps : ProcessState)
| Append (path data : string).

Definition is_call (t : thread) : bool :=
  match t with
  | StartJournalctlStream_call _ | StartServiceStream_call _ _
  | StartAppLogStream_call _ | StartCageLogStream_call _
  | StartEarlyLogStream_call _ | GetActiveStreams_call
  | Stop_lock _ | StopAll_lock => true
  | _ => false
  end.

Definition child_ends (ps : ProcessState) (x : LogStream) : LogStream :=
  match cmd x with
  | Some (mkCmd args (Some Running)) => set_cmd (Some (mkCmd args (Some (Ended ps)))) x
  | _ => x
  end.

Definition append_file (path data : string) (s : state) : state :=
  mkState (streams s) (heap s) (events s)
          (<[path := String.append (default "" (fs s !! path)) data]> (fs s)).

Definition step (l : label) (w : world) : option world :=
  match l with
  | Run i e =>
      t ← threads w !! i;
      '(t', s', new) ← thread_step e t (st w);
      Some (mkWorld s' (<[i := t']> (threads w) ++ new))
  | Call t =>
      if is_call t then Some (mkWorld (st w) (threads w ++ [t])) else None
  | ChildEnds p ps =>
      Some (mkWorld (set_stream p (child_ends ps) (st w)) (threads w))
  | Append path data => Some (mkWorld (append_file path data (st w)) (threads w))
  end.

Fixpoint run (ls : list label) (w : world) : option world :=
  match ls with
  | [] => Some w
  | l :: ls' => w' ← step l w; run ls' w'
  end.

(** The line a reader holds between reading it and delivering it. *)
Definition pending_line (t : thread) : option string :=
  match t with
  | readPipe_check _ line _ | readPipe_callback _ line _
  | tailFile_check _ _ _ line | tailFile_callback _ _ _ line => Some line
  | _ => None
  end.

Definition delivered (ev : event) : string :=
  match ev with Line _ line => line end.

(** *** A worker on its own

    A worker that runs while other programs of the device write to
    files, with no call of the streamer in between. *)
Inductive solo_action :=
| Step
| Write (path data : string).

Fixpoint solo (e : env) (acts : list solo_action) (t : thread) (s : state)
  : thread * state :=
  match acts with
  | [] => (t, s)
  | Step :: acts' =>
      match thread_step e t s with
      | Some (t', s', _) => solo e acts' t' s'
      | None => solo e acts' t s
      end
  | Write path data :: acts' => solo e acts' t (append_file path data s)
  end.

(** Lines written whole, each followed by its newline. *)
Definition join_lines (lines : list string) : string :=
  foldr (λ line acc, String.append line (String LF acc)) "" lines.

(** The tailer takes a step, or a writer appends some whole lines. *)
Inductive tail_action :=
| Tick
| Lines (lines : list string).

Definition as_solo (path : string) (a : tail_action) : solo_action :=
  match a with
  | Tick => Step
  | Lines lines => Write path (join_lines lines)
  end.

Definition lines_of (a : tail_action) : list string :=
  match a with
  | Tick => []
  | Lines lines => lines
  end.

Definition lines_written (acts : list tail_action) : list string :=
  acts ≫= lines_of.

(** The position of a tailer of stream [p] on [path] and the line it
    holds. *)
Definition tail_point (p : nat) (path : string) (t : thread)
  : option (nat * list string) :=
  match t with
  | tailFile_select p' path' pos | tailFile_Read p' path' pos =>
      if decide (p' = p ∧ path' = path) then Some (pos, []) else None
  | tailFile_check p' path' pos line | tailFile_callback p' path' pos line =>
      if decide (p' = p ∧ path' = path) then Some (pos, [line]) else None
  | _ => None
  end.

(** Stream [p] has been stopped: its [done] channel is closed and its
    [stopped] flag is set. *)
Definition halted (p : nat) (s : state) : Prop :=
  ∃ x, heap s !! p = Some x ∧ 1 ≤ done x ∧ stopped x = true.

(** From [s] to [s'] every stream is kept, under its identifier, and
    neither reopens its channel nor loses its [stopped] flag. *)
Definition grows (s s' : state) : Prop :=
  ∀ p x, heap s !! p = Some x →
    ∃ x', heap s' !! p = Some x' ∧ ID x' = ID x ∧ done x ≤ done x' ∧
          (stopped x = true → stopped x' = true).

(** A change of one stream that keeps its identifier, channel count and
    flag, or sets the flag, or closes the channel. *)
Definition gentle (f : LogStream → LogStream) : Prop :=
  ∀ x, ID (f x) = ID x ∧ done x ≤ done (f x) ∧
       (stopped x = true → stopped (f x) = true).

(** *** Who closes a channel

    The identifier and the channel count of every stream, by pointer. *)
Definition tags (s : state) : list (string * nat) :=
  (λ x, (ID x, done x)) <$> heap s.

(** The streams a thread has removed from the registry and whose
    channel it has yet to close. *)
Definition owned (t : thread) : list nat :=
  match t with
  | Stop_mark p rest | Stop_close p rest => p :: rest
  | Stop_kill _ rest | Stop_fileclose _ rest => rest
  | _ => []
  end.

Definition owned_by (ts : list thread) : list nat := ts ≫= owned.

(** Goroutines just launched: they own no stream and have not panicked. *)
Definition calm (new : list thread) : Prop :=
  owned_by new = [] ∧ Forall (λ t, t ≠ Panicked) new.

(** The registry holds streams under their own identifier, with an open
    channel; the streams that threads are about to close are distinct, have
    an open channel and are not registered; no channel has been closed
    twice. *)
Record sound (w : world) : Prop := mkSound {
  sound_registered :
    ∀ streamID p, streams (st w) !! streamID = Some p →
                  tags (st w) !! p = Some (streamID, 0);
  sound_owned_once : NoDup (owned_by (threads w));
  sound_owned :
    ∀ p, p ∈ owned_by (threads w) →
         (∃ streamID, tags (st w) !! p = Some (streamID, 0)) ∧
         ∀ streamID, streams (st w) !! streamID ≠ Some p;
  sound_closed_once :
    ∀ p streamID d, tags (st w) !! p = Some (streamID, d) → d ≤ 1;
  sound_no_panic : Panicked ∉ threads w;
}.

(** What a step does to the registry, the tags and the streams its
    thread owns. *)
Inductive effect (s s' : state) (t t' : thread) : Prop :=
| quiet :
    streams s' = streams s → tags s' = tags s → owned t' = owned t →
    t' ≠ Panicked → effect s s' t t'
| removes streamID p :
    streams s !! streamID = Some p → streams s' = delete streamID (streams s) →
    tags s' = tags s → owned t = [] → owned t' = [p] →
    t' ≠ Panicked → effect s s' t t'
| forgets streamID :
    streams s' = delete streamID (streams s) → tags s' = tags s →
    owned t' = owned t → t' ≠ Panicked → effect s s' t t'
| clears :
    streams s' = ∅ → tags s' = tags s → owned t = [] →
    owned t' = ptrs_of (streams s) → t' ≠ Panicked → effect s s' t t'
| closes p rest streamID d :
    owned t = p :: rest → tags s !! p = Some (streamID, d) →
    tags s' = <[p := (streamID, S d)]> (tags s) → streams s' = streams s →
    owned t' = (if decide (d = 0) then rest else []) →
    (d = 0 → t' ≠ Panicked) → effect s s' t t'
| allocates streamID :
    tags s' = tags s ++ [(streamID, 0)] → owned t = [] → owned t' = [] →
    streams s' = streams s ∨ streams s' = <[streamID := length (tags s)]> (streams s) →
    t' ≠ Panicked → effect s s' t t'.

(** A stream nobody can reach any more: not registered, owned by no
    thread; its channel is still open. *)
Definition orphan (p : nat) (w : world) : Prop :=
  (∀ streamID, streams (st w) !! streamID ≠ Some p) ∧
  (p ∉ owned_by (threads w)) ∧
  ∃ streamID, tags (st w) !! p = Some (streamID, 0).

Definition holds_clean (t : thread) : Prop :=
  ∀ line, pending_line t = Some line → clean line.

Definition all_clean (w : world) : Prop :=
  Forall (λ ev, clean (delivered ev)) (events (st w)) ∧
  Forall holds_clean (threads w).

(** A change of a stream that keeps its identifier and its channel. *)
Definition keeps_tag (f : LogStream → LogStream) : Prop :=
  ∀ x, ID (f x) = ID x ∧ done (f x) = done x.

(** The tailer of stream [p], which is live, has consumed the first
    [pos] bytes of the file and holds the lines [pend]; the rest of the
    file is the whole lines [U]; [W] are the lines written since the seek,
    the callbacks so far are a prefix of the non-empty ones. *)
Definition tail_inv (p : nat) (path : string) (ev0 : list event)
  (W U pend : list string) (t : thread) (s : state) : Prop :=
  ∃ x c D pos,
    heap s !! p = Some x ∧ done x = 0 ∧ stopped x = false ∧ file x = Some Open ∧
    tail_point p path t = Some (pos, pend) ∧
    default "" (fs s !! path) = String.append c (join_lines U) ∧
    String.length c = pos ∧ Forall no_LF U ∧
    events s = ev0 ++ (Line p <$> D) ∧
    D ++ pend ++ List.filter nonempty U = List.filter nonempty W.

Definition tail_cost (t : thread) (U : list string) : nat :=
  match t with
  | tailFile_select _ _ _ => 4 * length U + 1
  | tailFile_Read _ _ _ => 4 * length U
  | tailFile_check _ _ _ _ => 4 * length U + 3
  | tailFile_callback _ _ _ _ => 4 * length U + 2
  | _ => 0
  end.

(** *** Starting a follower command *)

(** The command [args] can be started: both pipes can be made and
    [cmd.Start] succeeds. *)
Definition startable (e : env) (args : list string) : bool :=
  match StdoutPipe e args, StderrPipe e args, cmd_Start e args with
  | None, None, None => true
  | _, _, _ => false
  end.

Definition journalctl_all : list string :=
  ["journalctl"; "-f"; "--no-pager"; "-o"; "short-precise"].

Definition journalctl_unit (serviceName : string) : list string :=
  ["journalctl"; "-f"; "--no-pager"; "-u"; serviceName; "-o"; "short-precise"].

Definition journalctl_boot : list string :=
  ["journalctl"; "-b"; "-f"; "--no-pager"; "-o"; "short-precise"].

Definition dmesg_follow : list string := ["dmesg"; "-w"].


(** Stopping a list of identifiers one after the other. *)
Definition stop_each (ids : list string) (s : state) : state :=
  foldl (λ s' streamID, Stop streamID s') s ids.

(** *** Workers of a stream *)

(** Thread [t] is a pipe reader, a file waiter or a tailer of stream [q]. *)
Definition reader_of (q : nat) (t : thread) : bool :=
  match t with
  | readPipe_select p _ | readPipe_Scan p _ | readPipe_check p _ _
  | readPipe_callback p _ _
  | fileWait_select p _ _ | fileWait_Stat p _ _ | file_check p _ | file_Open p _
  | file_store p _ | file_Seek p _
  | tailFile_select p _ _ | tailFile_Read p _ _ | tailFile_check p _ _ _
  | tailFile_callback p _ _ _ => Nat.eqb p q
  | _ => false
  end.

(** The line of a reader that has passed its [stopped] check and is
    about to invoke the callback. *)
Definition committed (t : thread) : list string :=
  match t with
  | readPipe_callback _ line _ | tailFile_callback _ _ _ line => [line]
  | _ => []
  end.

(** A stream whose [stopped] flag is set has a closed channel, or is
    held by the [Stop] that is about to close it. *)
Definition flagged (w : world) : Prop :=
  ∀ p x, heap (st w) !! p = Some x → stopped x = true →
         1 ≤ done x ∨ p ∈ owned_by (threads w).

(** Stream [p] has not been stopped. *)
Definition live (p : nat) (s : state) : Prop :=
  ∃ x, heap s !! p = Some x ∧ done x = 0 ∧ stopped x = false.

(** The polls of the wait loop of [startFileStream]: 60 s at one every
    500 ms. *)
Definition polls : nat := 120.

End Logs.

(* ===================================================================== *)
(** ** Scenarios *)
(* ===================================================================== *)

Import GoLib.

(** An operating system that lets every call succeed and has no file. *)
Definition exec_env : Exec.env :=
  Exec.mkEnv (λ _, false) (λ _, "") None ("", None) None true.

Definition logs_env : Logs.env :=
  Logs.mkEnv (λ _, None) (λ _, None) (λ _, None) ("", false) None None.

(** A manager with one session, [shell-1], whose child has ended in
    state [ps]. *)
Definition exec_ended (ps : ProcessState) : Exec.state :=
  Exec.set_session 0 (Exec.child_ends ps)
    (Exec.Start exec_env "shell-1" "" (Exec.NewExecManager true true true)).1.2.

(** A manager with one running session, [shell-1]. *)
Definition exec_one : Exec.state :=
  (Exec.Start exec_env "shell-1" "" (Exec.NewExecManager true true true)).1.2.

(** The client starts [shell-1] (thread 0, which launches the read loop
    as thread 1 and the wait loop as thread 2); the read loop enters
    [Read]; the client calls [Stop] (thread 3), which runs until it has
    returned. *)
Definition stop_while_reading : list Exec.label :=
  [Exec.Call (Exec.Start_lock "shell-1" "");
   Exec.Run 0 exec_env; Exec.Run 0 exec_env; Exec.Run 0 exec_env; Exec.Run 0 exec_env;
   Exec.Run 1 exec_env;
   Exec.Call (Exec.Stop_lock "shell-1" []);
   Exec.Run 3 exec_env; Exec.Run 3 exec_env; Exec.Run 3 exec_env; Exec.Run 3 exec_env].

(** Afterwards the pending [Read] fails and the read loop reports it;
    [Wait] returns and the wait loop reports the exit code. *)
Definition after_the_stop : list Exec.label :=
  [Exec.Run 1 exec_env; Exec.Run 1 exec_env; Exec.Run 2 exec_env; Exec.Run 2 exec_env].

(** Two clients call [Start] with the same identifier (threads 0 and
    1); both test the registry before either has registered its session. *)
Definition two_starts : list Exec.label :=
  [Exec.Call (Exec.Start_lock "shell-1" ""); Exec.Call (Exec.Start_lock "shell-1" "");
   Exec.Run 0 exec_env; Exec.Run 1 exec_env;
   Exec.Run 0 exec_env; Exec.Run 1 exec_env;
   Exec.Run 0 exec_env; Exec.Run 1 exec_env;
   Exec.Run 0 exec_env; Exec.Run 1 exec_env].

(** The pipes of a follower command that has ended: end of input. *)
Definition logs_env_eof : Logs.env :=
  Logs.mkEnv (λ _, None) (λ _, None) (λ _, None) ("", true) None None.

(** The client starts the journal stream [logs-1] (thread 0, which
    launches the two pipe readers and the waiter as threads 1, 2 and 3);
    the follower command ends on its own; the readers see the end of their
    pipes and return; the waiter wakes up and removes the stream from the
    registry. *)
Definition natural_exit : list Logs.label :=
  [Logs.Call (Logs.StartJournalctlStream_call "logs-1"); Logs.Run 0 logs_env;
   Logs.ChildEnds 0 (Exited 0);
   Logs.Run 1 logs_env_eof; Logs.Run 1 logs_env_eof;
   Logs.Run 2 logs_env_eof; Logs.Run 2 logs_env_eof;
   Logs.Run 3 logs_env; Logs.Run 3 logs_env; Logs.Run 3 logs_env].

(** A streamer with one app-log stream, [app-1], whose worker has
    opened the log file, which holds one old line. *)
Definition logs_tailing : Logs.state :=
  Logs.set_stream 0 (Logs.set_file (Some Open))
    (Logs.StartAppLogStream "app-1"
       (Logs.NewLogStreamer {["/tmp/strux-backend.log" := String.append "old" (String LF "")]})).1.2.

(** A streamer with one journal stream, [logs-1]. *)
Definition logs_one : Logs.state :=
  (Logs.StartJournalctlStream logs_env "logs-1" (Logs.NewLogStreamer ∅)).1.2.

(** The client starts the app-log stream [app-1]; its worker finds the
    file, opens it and seeks; a line is appended and the tailer delivers
    it. *)
Definition tail_one_line : list Logs.label :=
  [Logs.Call (Logs.StartAppLogStream_call "app-1"); Logs.Run 0 logs_env;
   Logs.Run 1 logs_env; Logs.Run 1 logs_env; Logs.Run 1 logs_env; Logs.Run 1 logs_env;
   Logs.Run 1 logs_env; Logs.Run 1 logs_env;
   Logs.Append "/tmp/strux-backend.log" (String.append "line1" (String LF ""));
   Logs.Run 1 logs_env; Logs.Run 1 logs_env; Logs.Run 1 logs_env; Logs.Run 1 logs_env].

Definition tail_one_line_end : option Logs.world :=
  Eval vm_compute in
    Logs.run tail_one_line
      (Logs.mkWorld
         (Logs.NewLogStreamer
            {["/tmp/strux-backend.log" := String.append "old" (String LF "")]}) []).

(** The client starts and stops the session [shell-1]. *)
Definition exec_start_stop : list Exec.label :=
  [Exec.Call (Exec.Start_lock "shell-1" "");
   Exec.Run 0 exec_env; Exec.Run 0 exec_env; Exec.Run 0 exec_env; Exec.Run 0 exec_env;
   Exec.Call (Exec.Stop_lock "shell-1" []);
   Exec.Run 3 exec_env; Exec.Run 3 exec_env].

(** The client starts and stops the stream [logs-1]. *)
Definition logs_start_stop : list Logs.label :=
  [Logs.Call (Logs.StartJournalctlStream_call "logs-1"); Logs.Run 0 logs_env;
   Logs.Call (Logs.Stop_lock "logs-1");
   Logs.Run 4 logs_env; Logs.Run 4 logs_env; Logs.Run 4 logs_env].

Definition exec_start_stop_end : option Exec.world :=
  Eval vm_compute in
    Exec.run exec_start_stop (Exec.mkWorld (Exec.NewExecManager true true true) []).

Definition logs_start_stop_end : option Logs.world :=
  Eval vm_compute in
    Logs.run logs_start_stop (Logs.mkWorld (Logs.NewLogStreamer ∅) []).

(** A terminal on which the bytes [ls] arrive. *)
Definition exec_env_output : Exec.env :=
  Exec.mkEnv (λ _, false) (λ _, "") None ("ls", None) None true.

(** A system with /bin/bash, /usr/bin/fish and, in the working directory
    of the client, a file named sh; the search path leads to /usr/bin/sh. *)
Definition exec_env_shells : Exec.env :=
  Exec.mkEnv (λ f, String.eqb f "/bin/bash" || String.eqb f "/usr/bin/fish"
                   || String.eqb f "sh")
             (λ name, if String.eqb name "sh" then "/usr/bin/sh" else "")
             None ("", None) None true.

(** The same system when the shell cannot be started. *)
Definition exec_env_no_start : Exec.env :=
  Exec.mkEnv (Exec.fileExists exec_env_shells) (Exec.LookPath exec_env_shells)
             (Some OsError) ("", None) None true.

(** A terminal that cannot be allocated. *)
Definition exec_env_no_pty : Exec.env :=
  Exec.mkEnv (λ _, false) (λ _, "") (Some OsError) ("", None) None true.

(** The client starts [shell-1]; its read loop reads once and delivers. *)
Definition read_once : list Exec.label :=
  [Exec.Call (Exec.Start_lock "shell-1" "");
   Exec.Run 0 exec_env; Exec.Run 0 exec_env; Exec.Run 0 exec_env; Exec.Run 0 exec_env;
   Exec.Run 1 exec_env_output; Exec.Run 1 exec_env_output; Exec.Run 1 exec_env_output].

Definition read_once_end : option Exec.world :=
  Eval vm_compute in
    Exec.run read_once (Exec.mkWorld (Exec.NewExecManager true true true) []).

Definition stop_while_reading_end : option Exec.world :=
  Eval vm_compute in
    Exec.run (stop_while_reading ++ after_the_stop)
      (Exec.mkWorld (Exec.NewExecManager true true true) []).

(** [shell-1] has been stopped and started again: session 0 has ended
    and is out of the registry, session 1 has taken its identifier. *)
Definition exec_restarted : Exec.state :=
  (Exec.Start exec_env "shell-1" "" (Exec.Stop "shell-1" exec_one)).1.2.

(** Two sessions, [shell-1] and [shell-2]. *)
Definition exec_two : list Exec.label :=
  [Exec.Call (Exec.Start_lock "shell-1" "");
   Exec.Run 0 exec_env; Exec.Run 0 exec_env; Exec.Run 0 exec_env; Exec.Run 0 exec_env;
   Exec.Call (Exec.Start_lock "shell-2" "");
   Exec.Run 3 exec_env; Exec.Run 3 exec_env; Exec.Run 3 exec_env; Exec.Run 3 exec_env].

Definition exec_two_end : option Exec.world :=
  Eval vm_compute in
    Exec.run exec_two (Exec.mkWorld (Exec.NewExecManager true true true) []).

(** An operating system without [journalctl]: only [dmesg] can be
    started. *)
Definition logs_env_dmesg : Logs.env :=
  Logs.mkEnv (λ _, None) (λ _, None)
    (λ args, match args with
             | "dmesg" :: _ => None
             | _ => Some OsError
             end)
    ("", false) None None.

(** Two streams, the journal as [logs-1] and the app log as [app-1]. *)
Definition logs_two : list Logs.label :=
  [Logs.Call (Logs.StartJournalctlStream_call "logs-1"); Logs.Run 0 logs_env;
   Logs.Call (Logs.StartAppLogStream_call "app-1"); Logs.Run 4 logs_env].

Definition logs_two_end : option Logs.world :=
  Eval vm_compute in Logs.run logs_two (Logs.mkWorld (Logs.NewLogStreamer ∅) []).

(** The schedule [natural_exit] up to the moment the waiter is about to
    call [cleanupStream]. *)
Definition before_cleanup : list Logs.label :=
  [Logs.Call (Logs.StartJournalctlStream_call "logs-1"); Logs.Run 0 logs_env;
   Logs.ChildEnds 0 (Exited 0);
   Logs.Run 1 logs_env_eof; Logs.Run 1 logs_env_eof;
   Logs.Run 2 logs_env_eof; Logs.Run 2 logs_env_eof;
   Logs.Run 3 logs_env; Logs.Run 3 logs_env].

Definition before_cleanup_end : option Logs.world :=
  Eval vm_compute in Logs.run before_cleanup (Logs.mkWorld (Logs.NewLogStreamer ∅) []).

(** A streamer with one app-log stream, [app-1], whose file does not
    exist, and one whose file holds one line. *)
Definition logs_waiting : Logs.state :=
  (Logs.StartAppLogStream "app-1" (Logs.NewLogStreamer ∅)).1.2.

Definition logs_found : Logs.state :=
  (Logs.StartAppLogStream "app-1"
     (Logs.NewLogStreamer
        {["/tmp/strux-backend.log" := String.append "old" (String LF "")]})).1.2.

(** A pipe on which the line [late] arrives. *)
Definition logs_env_line : Logs.env :=
  Logs.mkEnv (λ _, None) (λ _, None) (λ _, None)
    (String.append "late" (String LF ""), false) None None.

(** The client starts the journal stream [logs-1]; the reader of the
    standard output (thread 1) scans a line and passes the [stopped]
    check; the client calls [Stop] (thread 4), which runs until it has
    returned. *)
Definition stop_after_check : list Logs.label :=
  [Logs.Call (Logs.StartJournalctlStream_call "logs-1"); Logs.Run 0 logs_env;
   Logs.Run 1 logs_env_line; Logs.Run 1 logs_env_line; Logs.Run 1 logs_env_line;
   Logs.Call (Logs.Stop_lock "logs-1");
   Logs.Run 4 logs_env; Logs.Run 4 logs_env; Logs.Run 4 logs_env;
   Logs.Run 4 logs_env; Logs.Run 4 logs_env].

(** What the reader does after the stop. *)
Definition after_the_check : list Logs.label := [Logs.Run 1 logs_env].




(* ===================================================================== *)
(** ** Facts about the library functions *)
(* ===================================================================== *)

Module GoLibFacts.
Import GoLib.

Lemma IndexByte_prefix s c i :
  IndexByte s c = Some i → IndexByte (prefix i s) c = None.
Proof.
  revert i. induction s as [|a r IH]; intros i; simpl; [done|].
  destruct (Ascii.eqb a c) eqn:E.
  - intros [= <-]. done.
  - destruct (IndexByte r c) as [j|] eqn:Er; simpl; [|done].
    intros [= <-]. simpl. rewrite E. by rewrite (IH j).
Qed.

Lemma IndexByte_prefix_None s c n :
  IndexByte s c = None → IndexByte (prefix n s) c = None.
Proof.
  revert n. induction s as [|a r IH]; intros n; simpl.
  - by destruct n.
  - destruct (Ascii.eqb a c) eqn:E; [done|].
    destruct (IndexByte r c) eqn:Er; simpl; [done|]. intros _.
    destruct n; simpl; [done|]. rewrite E. by rewrite IH.
Qed.

Lemma last_byte_IndexByte s c :
  last_byte s = Some c → is_Some (IndexByte s c).
Proof.
  induction s as [|a r IH]; simpl; [done|].
  destruct r as [|b r'].
  - intros [= ->]. rewrite Ascii.eqb_refl. by eexists.
  - intros H. destruct (Ascii.eqb a c); [by eexists|].
    destruct (IH H) as [j ->]. by eexists.
Qed.

Lemma no_LF_last s : no_LF s → last_byte s ≠ Some LF.
Proof.
  intros H Hl. apply last_byte_IndexByte in Hl as [j Hj].
  unfold no_LF in H. congruence.
Qed.

Lemma no_LF_chop s : no_LF s → no_LF (chop s).
Proof. apply IndexByte_prefix_None. Qed.

Lemma no_LF_dropCR s : no_LF s → no_LF (dropCR s).
Proof.
  intros H. unfold dropCR. destruct (last_byte s); [|done].
  destruct (Ascii.eqb a CR); [by apply no_LF_chop|done].
Qed.

(** A token of [ScanLines] holds no line feed. *)
Lemma ScanLines_no_LF data atEOF adv tok :
  ScanLines data atEOF = (adv, Some tok) → no_LF tok.
Proof.
  unfold ScanLines.
  destruct (atEOF && Nat.eqb (String.length data) 0); [done|].
  destruct (IndexByte data LF) as [i|] eqn:E.
  - intros [= _ <-]. apply no_LF_dropCR. by apply IndexByte_prefix.
  - destruct atEOF; [|done]. intros [= _ <-]. by apply no_LF_dropCR.
Qed.

Lemma Scan_no_LF max data eof tok rest :
  Scan max data eof = Token tok rest → no_LF tok.
Proof.
  unfold Scan. destruct (IndexByte data LF) as [i|].
  - destruct (N.ltb _ _); [|done].
    destruct (ScanLines data eof) as [adv [t|]] eqn:E; [|done].
    intros [= <- _]. by eapply ScanLines_no_LF.
  - destruct (N.leb _ _); [done|]. destruct eof; [|done].
    destruct (ScanLines data true) as [adv [t|]] eqn:E; [|done].
    intros [= <- _]. by eapply ScanLines_no_LF.
Qed.

Lemma prefix_length n s : n ≤ String.length s → String.length (prefix n s) = n.
Proof.
  revert s. induction n as [|n IH]; intros [|a r]; simpl; try done; try lia.
  intros H. rewrite IH; lia.
Qed.

Lemma prefix_prefix n s : prefix n (prefix (S n) s) = prefix n s.
Proof.
  revert s. induction n as [|n IH]; intros [|a r]; try done.
  change (String a (prefix n (prefix (S n) r)) = String a (prefix n r)).
  by rewrite IH.
Qed.

Lemma IndexByte_lt s c i : IndexByte s c = Some i → i < String.length s.
Proof.
  revert i. induction s as [|a r IH]; intros i; simpl; [done|].
  destruct (Ascii.eqb a c); [intros [= <-]; lia|].
  destruct (IndexByte r c) as [j|]; simpl; [|done].
  intros [= <-]. specialize (IH j eq_refl). lia.
Qed.

(** The string [ReadString] returns without error, once its last byte
    is cut, holds no line feed. *)
Lemma ReadString_chop rest n line :
  ReadString rest = (n, line, false) → no_LF (chop line).
Proof.
  unfold ReadString. destruct (IndexByte rest LF) as [i|] eqn:E; [|done].
  intros [= _ <-]. unfold chop.
  rewrite prefix_length by (apply IndexByte_lt in E; lia).
  replace (i + 1 - 1) with i by lia. replace (i + 1) with (S i) by lia.
  rewrite prefix_prefix. by apply IndexByte_prefix.
Qed.

Lemma last_byte_cons a s : s ≠ "" → last_byte (String a s) = last_byte s.
Proof. by destruct s. Qed.

Lemma IndexByte_last s c i :
  IndexByte s c = Some i → last_byte (prefix (S i) s) = Some c.
Proof.
  revert i. induction s as [|a r IH]; intros i; [done|].
  simpl IndexByte. destruct (Ascii.eqb a c) eqn:Ea.
  - intros [= <-]. apply Ascii.eqb_eq in Ea. by subst.
  - destruct (IndexByte r c) as [j|] eqn:Er; simpl; [|done].
    intros [= <-]. specialize (IH j eq_refl).
    change (last_byte (String a (prefix (S j) r)) = Some c).
    rewrite last_byte_cons; [done|]. by destruct r.
Qed.

Lemma ReadString_last rest n line :
  ReadString rest = (n, line, false) → last_byte line = Some LF.
Proof.
  unfold ReadString. destruct (IndexByte rest LF) as [i|] eqn:E; [|done].
  intros [= _ <-]. replace (i + 1) with (S i) by lia. by apply IndexByte_last.
Qed.

Lemma append_cons x l r :
  String.append (String x l) r = String x (String.append l r).
Proof. done. Qed.

Lemma append_nil_l r : String.append "" r = r.
Proof. done. Qed.

Lemma append_nil_r s : String.append s "" = s.
Proof. induction s as [|a r IH]; [done|]. by rewrite append_cons, IH. Qed.

Lemma append_assoc a b c :
  String.append (String.append a b) c = String.append a (String.append b c).
Proof. induction a as [|x r IH]; [done|]. by rewrite !append_cons, IH. Qed.

Lemma length_append a b :
  String.length (String.append a b) = String.length a + String.length b.
Proof.
  induction a as [|x r IH]; [done|]. rewrite append_cons. simpl. by rewrite IH.
Qed.

Lemma suffix_append c r : suffix (String.length c) (String.append c r) = r.
Proof.
  induction c as [|x c IH]; [by destruct r|]. by rewrite append_cons.
Qed.

Lemma prefix_append c r : prefix (String.length c) (String.append c r) = c.
Proof.
  induction c as [|x c IH]; [by destruct r|]. rewrite append_cons. simpl.
  by rewrite IH.
Qed.

Lemma IndexByte_append l r :
  no_LF l → IndexByte (String.append l (String LF r)) LF = Some (String.length l).
Proof.
  unfold no_LF. induction l as [|x l IH]; [done|].
  rewrite append_cons. simpl.
  destruct (Ascii.eqb x LF); [done|].
  destruct (IndexByte l LF); [done|]. intros _. by rewrite IH.
Qed.

Lemma last_byte_append l c : last_byte (String.append l (String c "")) = Some c.
Proof.
  induction l as [|x l IH]; [done|].
  rewrite append_cons, last_byte_cons; [done|]. by destruct l.
Qed.

Lemma chop_append l c : chop (String.append l (String c "")) = l.
Proof.
  unfold chop. rewrite length_append. simpl.
  replace (String.length l + 1 - 1) with (String.length l) by lia.
  apply prefix_append.
Qed.

Lemma ReadString_line l r :
  no_LF l →
  ReadString (String.append l (String LF r))
  = (String.length l + 1, String.append l (String LF ""), false).
Proof.
  intros Hl. unfold ReadString. rewrite IndexByte_append by done.
  f_equal. f_equal.
  replace (String.append l (String LF r))
    with (String.append (String.append l (String LF "")) r)
    by (by rewrite append_assoc).
  replace (String.length l + 1) with (String.length (String.append l (String LF "")))
    by (rewrite length_append; simpl; lia).
  apply prefix_append.
Qed.

Lemma strip_separators_bare s :
  IndexByte s "/" = None → strip_separators s = s.
Proof.
  induction s as [|c r IH]; simpl; [done|].
  unfold IsPathSeparator.
  destruct (Ascii.eqb c "/") eqn:E; [done|].
  destruct (IndexByte r "/") eqn:Er; [done|]. intros _.
  rewrite IH by done. by destruct r.
Qed.

Lemma last_element_bare s :
  IndexByte s "/" = None → last_element s = s.
Proof.
  destruct s as [|c r]; simpl; [done|].
  unfold IsPathSeparator.
  destruct (Ascii.eqb c "/") eqn:E; [done|].
  by destruct (IndexByte r "/") eqn:Er.
Qed.

Lemma last_element_no_separator s :
  IndexByte (last_element s) "/" = None.
Proof.
  induction s as [|c r IH]; simpl; [done|].
  destruct (IndexByte r "/") eqn:Er; [done|].
  unfold IsPathSeparator. destruct (Ascii.eqb c "/") eqn:E; [done|].
  simpl. by rewrite E, Er.
Qed.

(** [filepath.Base(name) == name] holds of the names without a separator
    that are not empty, and of the root. *)
Lemma Base_self name :
  Base name = name ↔ (name ≠ "" ∧ IndexByte name "/" = None) ∨ name = "/".
Proof.
  unfold Base. destruct (String.eqb_spec name "") as [->|Hne].
  - split; [done|]. by intros [[? _]|?].
  - split.
    + destruct (String.eqb_spec (last_element (strip_separators name)) "") as [E|E].
      * intros <-. by right.
      * intros H. left. split; [done|]. rewrite <- H. apply last_element_no_separator.
    + intros [[_ H]| ->]; [|done].
      rewrite strip_separators_bare, last_element_bare by done.
      by destruct (String.eqb_spec name "").
Qed.

Lemma Command_Path_separator LookPath name :
  is_Some (IndexByte name "/") → name ≠ "/" → Command_Path LookPath name = name.
Proof.
  intros [i Hi] Hr. unfold Command_Path.
  destruct (String.eqb_spec (Base name) name) as [E|E]; [|done].
  apply Base_self in E as [[_ E]|E]; congruence.
Qed.

Lemma Command_Path_bare LookPath name :
  name ≠ "" → IndexByte name "/" = None → LookPath name ≠ "" →
  Command_Path LookPath name = LookPath name.
Proof.
  intros Hne Hb Hl. unfold Command_Path.
  destruct (String.eqb_spec (Base name) name) as [E|E].
  - by destruct (String.eqb_spec (LookPath name) "").
  - exfalso. apply E. apply Base_self. by left.
Qed.

Lemma Command_Path_not_found LookPath name :
  LookPath name = "" → Command_Path LookPath name = name.
Proof.
  intros Hl. unfold Command_Path. rewrite Hl. simpl. by case_match.
Qed.

Lemma insert_delete_Permutation {A} (l : list A) i x y :
  l !! i = Some x → <[i := y]> l ≡ₚ y :: delete i l.
Proof.
  revert i. induction l as [|a l IH]; intros [|i] H; simplify_eq/=; [done|].
  rewrite (IH i H). apply perm_swap.
Qed.

End GoLibFacts.

(* ===================================================================== *)
(** ** Facts about the exec manager *)
(* ===================================================================== *)

Module ExecFacts.
Import GoLib Exec.

Lemma heap_set_session p f s : heap (set_session p f s) = alter f p (heap s).
Proof. done. Qed.

Lemma heap_set_sessions f s : heap (set_sessions f s) = heap s.
Proof. done. Qed.

(** The whole teardown of [Stop] on one session. *)
Lemma heap_Stop sessionID p s :
  sessions (mgr s) !! sessionID = Some p →
  heap (Stop sessionID s) = alter (close_pty ∘ kill ∘ close_done) p (heap s).
Proof.
  intros H. unfold Stop. rewrite H.
  rewrite !heap_set_session, heap_set_sessions.
  by rewrite !list_alter_alter_eq.
Qed.

Lemma exec_Stop_absent sessionID s :
  sessions (mgr s) !! sessionID = None → Stop sessionID s = s.
Proof. intros H. unfold Stop. by rewrite H. Qed.

Lemma sessions_Stop sessionID s :
  sessions (mgr (Stop sessionID s)) = delete sessionID (sessions (mgr s)).
Proof.
  unfold Stop. destruct (sessions (mgr s) !! sessionID) eqn:E; simpl; [done|].
  by rewrite delete_id.
Qed.

Lemma events_Stop sessionID s : events (Stop sessionID s) = events s.
Proof. unfold Stop. by destruct (sessions (mgr s) !! sessionID). Qed.

Lemma callbacks_Stop sessionID s :
  onOutput (mgr (Stop sessionID s)) = onOutput (mgr s) ∧
  onExit (mgr (Stop sessionID s)) = onExit (mgr s) ∧
  onError (mgr (Stop sessionID s)) = onError (mgr s).
Proof. unfold Stop. by destruct (sessions (mgr s) !! sessionID). Qed.

Lemma exec_Stop_twice sessionID s :
  Stop sessionID (Stop sessionID s) = Stop sessionID s.
Proof.
  apply exec_Stop_absent. rewrite sessions_Stop. apply lookup_delete_eq.
Qed.

Lemma exec_released_teardown x : released (close_pty (kill (close_done x))).
Proof.
  unfold released, close_pty, kill, close_done; simpl.
  destruct (cmd_Process x) as [[|?]|], (pty x); simpl; done.
Qed.

Lemma released_teardown_keeps x :
  released x → released (close_pty (kill (close_done x))).
Proof. intros _. apply exec_released_teardown. Qed.

Lemma Stop_released sessionID p x s :
  sessions (mgr s) !! sessionID = Some p → heap s !! p = Some x →
  ∃ x', heap (Stop sessionID s) !! p = Some x' ∧ released x' ∧
        done x' = S (done x) ∧ id x' = id x.
Proof.
  intros Hs Hx. rewrite (heap_Stop _ p) by done.
  rewrite list_lookup_alter_eq, Hx. simpl. eexists; split; [done|].
  split; [apply exec_released_teardown|].
  unfold close_pty, kill, close_done; simpl.
  destruct (cmd_Process x) as [[|?]|], (pty x); simpl; done.
Qed.

Lemma Stop_keeps_released sessionID p x s :
  heap s !! p = Some x → released x →
  ∃ x', heap (Stop sessionID s) !! p = Some x' ∧ released x'.
Proof.
  intros Hx Hr.
  destruct (sessions (mgr s) !! sessionID) as [q|] eqn:E;
    [|rewrite exec_Stop_absent by done; by eauto].
  rewrite (heap_Stop _ q) by done.
  destruct (decide (q = p)) as [->|Hne].
  - rewrite list_lookup_alter_eq, Hx. simpl. eexists; split; [done|].
    apply exec_released_teardown.
  - rewrite list_lookup_alter_ne by done. eauto.
Qed.

Lemma Stop_keeps_heap sessionID p x s :
  heap s !! p = Some x → is_Some (heap (Stop sessionID s) !! p).
Proof.
  intros Hx.
  destruct (sessions (mgr s) !! sessionID) as [q|] eqn:E;
    [|rewrite exec_Stop_absent by done; by eauto].
  rewrite (heap_Stop _ q) by done.
  destruct (decide (q = p)) as [->|Hne].
  - rewrite list_lookup_alter_eq, Hx. by eexists.
  - rewrite list_lookup_alter_ne by done. eauto.
Qed.


Lemma stop_each_keeps_released ids p x s :
  heap s !! p = Some x → released x →
  ∃ x', heap (stop_each ids s) !! p = Some x' ∧ released x'.
Proof.
  revert s x. induction ids as [|a ids IH]; intros s x Hx Hr; simpl; [by eauto|].
  destruct (Stop_keeps_released a p x s Hx Hr) as (x' & Hx' & Hr'). eauto.
Qed.

Lemma stop_each_released ids sessionID p x s :
  sessionID ∈ ids → sessions (mgr s) !! sessionID = Some p → heap s !! p = Some x →
  ∃ x', heap (stop_each ids s) !! p = Some x' ∧ released x'.
Proof.
  revert s x. induction ids as [|a ids IH]; intros s x Hin Hs Hx;
    [by apply not_elem_of_nil in Hin|].
  simpl. destruct (decide (a = sessionID)) as [->|Hne].
  - destruct (Stop_released sessionID p x s Hs Hx) as (x' & Hx' & Hr' & _).
    by eapply stop_each_keeps_released.
  - destruct (Stop_keeps_heap a p x s Hx) as [x' Hx'].
    apply (IH _ x'); [by apply elem_of_cons in Hin as [?|?]| |done].
    rewrite sessions_Stop. by rewrite lookup_delete_ne.
Qed.

Lemma elem_of_ids_of (m : gmap string nat) k : k ∈ ids_of m ↔ is_Some (m !! k).
Proof.
  unfold ids_of. rewrite list_elem_of_fmap. split.
  - intros ([k' p] & -> & H). apply elem_of_map_to_list in H. by eexists.
  - intros [p H]. exists (k, p). split; [done|]. by apply elem_of_map_to_list.
Qed.


Lemma exec_StopAll_released sessionID p x s :
  sessions (mgr s) !! sessionID = Some p → heap s !! p = Some x →
  ∃ x', heap (StopAll s) !! p = Some x' ∧ released x'.
Proof.
  intros Hs Hx. unfold StopAll.
  eapply stop_each_released; [|done..]. apply elem_of_ids_of. by eexists.
Qed.

Lemma Start_fresh e sessionID shell s :
  sessions (mgr s) !! sessionID = None → pty_Start e = None →
  ∃ s', Start e sessionID shell s
        = (None, s', [readLoop_select (length (heap s)); waitLoop_wait (length (heap s))]) ∧
        sessions (mgr s') !! sessionID = Some (length (heap s)) ∧
        heap s' !! length (heap s)
        = Some (new_session sessionID (exec_Command e (resolve_shell e shell))).
Proof.
  intros Hs He. unfold Start. rewrite Hs, He. eexists; split; [done|]. simpl.
  split; [apply lookup_insert_eq|].
  rewrite lookup_app_r by lia. by rewrite Nat.sub_diag.
Qed.

(** *** A method and its thread agree

    Run with no other thread in between, the thread of a call ends in the
    state and with the result of the method. *)

Lemma run_alone_Returned n e err s :
  run_alone n e (Returned err) s = (Returned err, s, []).
Proof. by destruct n. Qed.

Lemma Start_alone e sessionID shell s n :
  run_alone (4 + n) e (Start_lock sessionID shell) s
  = ((λ r, (Returned r.1.1, r.1.2, r.2)) (Start e sessionID shell s)).
Proof.
  unfold Start. simpl.
  destruct (sessions (mgr s) !! sessionID); simpl.
  - by destruct n.
  - destruct (pty_Start e); simpl; [by destruct n|].
    by rewrite run_alone_Returned.
Qed.

Lemma Stop_step e sessionID rest s n :
  tidy s →
  run_alone (4 + n) e (Stop_lock sessionID rest) s
  = run_alone (match sessions (mgr s) !! sessionID with Some _ => n | None => 3 + n end)
      e (after_Stop rest) (Stop sessionID s).
Proof.
  intros [Hv _]. unfold Stop.
  change (run_alone (4 + n)) with (run_alone (S (3 + n))). cbn [run_alone thread_step].
  destruct (sessions (mgr s) !! sessionID) as [p|] eqn:Es.
  - destruct (Hv _ _ Es) as (x & Hx & Hd).
    change (3 + n) with (S (S (S n))). cbn [run_alone thread_step].
    rewrite heap_set_sessions, Hx. simpl. rewrite decide_True by done.
    simpl. by destruct (run_alone n e (after_Stop rest) _) as [[? ?] ?].
  - by destruct (run_alone (3 + n) e (after_Stop rest) s) as [[? ?] ?].
Qed.

Lemma Stop_alone e sessionID s n :
  tidy s →
  run_alone (4 + n) e (Stop_lock sessionID []) s = (Returned None, Stop sessionID s, []).
Proof.
  intros Hs. rewrite Stop_step by done. simpl. apply run_alone_Returned.
Qed.

Lemma tidy_Stop sessionID s : tidy s → tidy (Stop sessionID s).
Proof.
  intros [Hv Hj]. split.
  - intros k p. rewrite sessions_Stop. intros [Hne Hk]%lookup_delete_Some.
    destruct (Hv _ _ Hk) as (x & Hx & Hd).
    destruct (sessions (mgr s) !! sessionID) as [q|] eqn:Es;
      [|rewrite exec_Stop_absent by done; by eauto].
    rewrite (heap_Stop _ q) by done.
    rewrite list_lookup_alter_ne; [by eauto|].
    intros ->. apply Hne. by apply (Hj _ _ p).
  - intros k1 k2 p. rewrite sessions_Stop.
    intros [_ H1]%lookup_delete_Some [_ H2]%lookup_delete_Some. by eapply Hj.
Qed.

Lemma stop_each_alone e ids s n :
  tidy s →
  run_alone (4 * length ids + S n) e (after_Stop ids) s
  = (Returned None, stop_each ids s, []).
Proof.
  revert s n. induction ids as [|a ids IH]; intros s n Hs; [done|].
  change (after_Stop (a :: ids)) with (Stop_lock a ids).
  replace (4 * length (a :: ids) + S n) with (4 + (4 * length ids + S n))
    by (simpl; lia).
  rewrite Stop_step by done.
  change (stop_each (a :: ids) s) with (stop_each ids (Stop a s)).
  destruct (sessions (mgr s) !! a).
  - apply IH. by apply tidy_Stop.
  - replace (3 + (4 * length ids + S n)) with (4 * length ids + S (3 + n)) by lia.
    apply IH. by apply tidy_Stop.
Qed.

Lemma StopAll_alone e s n :
  tidy s →
  run_alone (4 * size (sessions (mgr s)) + 2 + n) e StopAll_lock s
  = (Returned None, StopAll s, []).
Proof.
  intros Hs. unfold StopAll.
  replace (4 * size (sessions (mgr s)) + 2 + n)
    with (S (4 * length (ids_of (sessions (mgr s))) + S n)).
  - cbn [run_alone thread_step]. by rewrite stop_each_alone.
  - unfold ids_of. rewrite length_fmap, length_map_to_list. lia.
Qed.

Lemma run_alone_S n e t s :
  run_alone (S n) e t s
  = match thread_step e t s with
    | None => (t, s, [])
    | Some (t', s', new) =>
        let '(t'', s'', new') := run_alone n e t' s' in (t'', s'', new ++ new')
    end.
Proof. done. Qed.

Lemma waitLoop_alone e p x s s' n :
  tidy s → heap s !! p = Some x →
  waitLoop e p s = Some s' →
  run_alone (6 + n) e (waitLoop_wait p) s = (Returned None, s', []).
Proof.
  intros Hs Hx Hw. unfold waitLoop in Hw. rewrite Hx in Hw. simpl in Hw.
  destruct (cmd_Process x) as [[|ps]|] eqn:Ep; try done.
  injection Hw as <-.
  set (exitCode := exit_code (cmd_Wait ps (Wait_ok e))).
  set (s1 := if onExit (mgr s) then emit (Exit (id x) exitCode) s else s).
  assert (E1 : thread_step e (waitLoop_wait p) s
               = Some (waitLoop_onExit p exitCode, s, [])).
  { simpl. rewrite Hx. simpl. by rewrite Ep. }
  assert (E2 : thread_step e (waitLoop_onExit p exitCode) s
               = Some (Stop_lock (id x) [], s1, [])).
  { simpl. by rewrite Hx. }
  change (6 + n) with (S (S (4 + n))).
  rewrite run_alone_S, E1, run_alone_S, E2, Stop_alone; [done|].
  unfold s1. destruct (onExit (mgr s)); [|done]. apply Hs.
Qed.

(** *** Once stopped, a session stays stopped *)

Lemma settles_close_done : settles close_done.
Proof. intros x. simpl. split_and!; [done|lia|done|done]. Qed.

Lemma settles_kill : settles kill.
Proof.
  intros x. unfold kill.
  destruct (cmd_Process x) as [[|ps]|] eqn:E; simpl; rewrite ?E;
    split_and!; try done; by eauto.
Qed.

Lemma settles_close_pty : settles close_pty.
Proof. intros x. unfold close_pty. destruct (pty x) eqn:E; simpl; by rewrite ?E. Qed.

Lemma settles_child_ends ps : settles (child_ends ps).
Proof.
  intros x. unfold child_ends.
  destruct (cmd_Process x) as [[|ps']|] eqn:E; simpl; rewrite ?E;
    split_and!; try done; by eauto.
Qed.

Lemma halted_set_session p k q f s :
  settles f → halted p k s → halted p k (set_session q f s).
Proof.
  intros Hf (x & Hx & Hi & Hd & He & Hc). unfold halted. rewrite heap_set_session.
  destruct (decide (q = p)) as [->|Hne].
  - rewrite list_lookup_alter_eq, Hx. simpl. eexists; split; [done|].
    destruct (Hf x) as (Hf1 & Hf2 & Hf3 & Hf4).
    split_and!; [congruence|lia|by auto|by auto].
  - rewrite list_lookup_alter_ne by done. by eauto 10.
Qed.

Lemma halted_alloc p k x s : halted p k s → halted p k (alloc x s).
Proof.
  intros (y & Hy & Hd). exists y. split; [|done]. simpl.
  by apply lookup_app_l_Some.
Qed.

Lemma thread_step_halted e t s t' s' new p k :
  thread_step e t s = Some (t', s', new) → halted p k s → halted p k s'.
Proof.
  intros H Hp. destruct t; simpl in H;
    repeat (simplify_option_eq || case_match); simplify_eq; try done;
    try (by apply halted_alloc);
    try (by apply halted_set_session;
         auto using settles_close_done, settles_kill, settles_close_pty).
Qed.

Lemma step_halted l w w' p k :
  step l w = Some w' → halted p k (st w) → halted p k (st w').
Proof.
  intros H Hp. destruct l as [i e|t|q ps]; simpl in H.
  - destruct (threads w !! i) as [t|]; [|done]. simpl in H.
    destruct (thread_step e t (st w)) as [[[t' s'] new]|] eqn:E; [|done].
    simpl in H. simplify_eq. simpl. by eapply thread_step_halted.
  - destruct (is_call t); by simplify_eq.
  - repeat (simplify_option_eq || case_match); simplify_eq. simpl.
    apply halted_set_session; [apply settles_child_ends|done].
Qed.

Lemma run_halted ls w w' p k :
  run ls w = Some w' → halted p k (st w) → halted p k (st w').
Proof.
  revert w. induction ls as [|l ls IH]; intros w H Hp; simpl in H; [by simplify_eq|].
  destruct (step l w) as [w1|] eqn:E; [|done]. simpl in H.
  eapply IH; [done|]. by eapply step_halted.
Qed.

Lemma exec_Stop_halted sessionID p x s :
  sessions (mgr s) !! sessionID = Some p → heap s !! p = Some x →
  is_Some (cmd_Process x) → is_Some (pty x) →
  halted p (id x) (Stop sessionID s).
Proof.
  intros Hs Hx [c Hc] [h Hh]. unfold halted. rewrite (heap_Stop _ p) by done.
  rewrite list_lookup_alter_eq, Hx. simpl. eexists; split; [done|].
  unfold close_pty, kill, close_done. simpl. rewrite Hc.
  destruct c as [|ps]; simpl; rewrite Hh; simpl; split_and!; try done; try lia;
    by eauto.
Qed.

(** What the workers of a stopped session do. *)
Lemma halted_workers e p k s :
  halted p k s →
  thread_step e (readLoop_select p) s = Some (Returned None, s, []) ∧
  thread_step e (readLoop_read p) s
  = Some (readLoop_deliver p ("", Some OsError), s, []) ∧
  thread_step e (readLoop_deliver p ("", Some OsError)) s
  = Some (Returned None,
          if onError (mgr s) then emit (Error k OsError) s else s, []) ∧
  ∃ exitCode,
    thread_step e (waitLoop_wait p) s = Some (waitLoop_onExit p exitCode, s, []) ∧
    thread_step e (waitLoop_onExit p exitCode) s
    = Some (Stop_lock k [],
            if onExit (mgr s) then emit (Exit k exitCode) s else s, []).
Proof.
  intros (x & Hx & <- & Hd & [ps Hp] & Hc). simpl. rewrite Hx. simpl.
  rewrite decide_False by lia. rewrite Hc, Hp. split_and!; try done.
  by eexists.
Qed.

(** *** Who closes a channel *)

Lemma tags_set_session p f s : keeps_tag f → tags (set_session p f s) = tags s.
Proof.
  intros Hf. unfold tags. rewrite heap_set_session.
  rewrite (list_fmap_alter _ f (λ y, y)).
  - by apply list_alter_id.
  - apply Forall_forall. intros x _. simpl. by destruct (Hf x) as [-> ->].
Qed.

Lemma tags_session p x s : heap s !! p = Some x → tags s !! p = Some (id x, done x).
Proof. intros H. unfold tags. by rewrite list_lookup_fmap, H. Qed.

Lemma tags_close_session p x s :
  heap s !! p = Some x →
  tags (set_session p close_done s) = <[p := (id x, S (done x))]> (tags s).
Proof.
  intros Hx. unfold tags. rewrite heap_set_session.
  rewrite (list_fmap_alter _ close_done (λ '(i, d), (i, S d))).
  - rewrite list_insert_alter. apply list_alter_ext; [|done].
    intros [i d]. rewrite list_lookup_fmap, Hx. by intros [= <- <-].
  - apply Forall_forall. by intros y _.
Qed.

Lemma keeps_tag_kill_session : keeps_tag kill.
Proof. intros x. unfold kill. by repeat case_match. Qed.

Lemma keeps_tag_close_pty : keeps_tag close_pty.
Proof. intros x. unfold close_pty. by repeat case_match. Qed.

Lemma keeps_tag_session_ends ps : keeps_tag (child_ends ps).
Proof. intros x. unfold child_ends. by repeat case_match. Qed.

Lemma calm_none : calm [].
Proof. by split. Qed.

Lemma after_Stop_owned rest : owned (after_Stop rest) = [] ∧ after_Stop rest ≠ Panicked.
Proof. by destruct rest. Qed.

Local Ltac quiet_effect :=
  split; [apply calm_none|]; apply quiet;
  [done
  |by rewrite ?tags_set_session
       by auto using keeps_tag_kill_session, keeps_tag_close_pty
  |by rewrite ?(proj1 (after_Stop_owned _))
  |first [done | apply after_Stop_owned]].

Lemma exec_step_effect e t s t' s' new :
  thread_step e t s = Some (t', s', new) →
  calm new ∧ effect s s' t t'.
Proof.
  intros H. destruct t; simpl in H.
  - case_match; simplify_eq; quiet_effect.
  - case_match; simplify_eq; [quiet_effect|].
    split; [apply calm_none|]. apply (allocates _ _ _ _ sessionID); try done.
    + unfold tags. simpl. by rewrite fmap_app.
    + simpl. unfold tags. by rewrite length_fmap.
  - simplify_eq. split; [apply calm_none|]. by apply (stores _ _ _ _ sessionID p).
  - simplify_eq. split; [by split; repeat constructor|]. by apply quiet.
  - case_match; simplify_eq; quiet_effect.
  - destruct (heap s !! p); simplify_eq/=. repeat case_match; simplify_eq; quiet_effect.
  - destruct (sessions (mgr s) !! sessionID) as [p|] eqn:Es; simplify_eq;
      [|quiet_effect].
    split; [apply calm_none|]. by eapply removes.
  - destruct (heap s !! p) as [x|] eqn:Ex; simplify_eq/=.
    split; [apply calm_none|]. apply (closes _ _ _ _ p (id x) (done x)); try done.
    + by apply tags_session.
    + by apply tags_close_session.
    + by case_decide.
    + intros Hz. by rewrite decide_True.
  - simplify_eq. quiet_effect.
  - simplify_eq. quiet_effect.
  - simplify_eq. quiet_effect.
  - destruct (heap s !! p); simplify_eq/=. case_decide; quiet_effect.
  - destruct (heap s !! p); simplify_eq/=. repeat case_match; simplify_eq; quiet_effect.
  - destruct r as [data [err|]]; destruct (heap s !! p); simplify_eq/=;
      repeat case_match; quiet_effect.
  - destruct (heap s !! p); simplify_eq/=. repeat case_match; simplify_eq; quiet_effect.
  - destruct (heap s !! p); simplify_eq/=. case_match; quiet_effect.
  - done.
  - done.
Qed.

Lemma exec_owned_by_step ts i t t' new :
  ts !! i = Some t → owned_by new = [] →
  owned_by ts ≡ₚ owned t ++ owned_by (delete i ts) ∧
  owned_by (<[i := t']> ts ++ new) ≡ₚ owned t' ++ owned_by (delete i ts).
Proof.
  intros Hi Hn. unfold owned_by in *. split.
  - by rewrite (delete_Permutation ts i t Hi) at 1.
  - rewrite bind_app, Hn, app_nil_r.
    by rewrite (GoLibFacts.insert_delete_Permutation ts i t t' Hi).
Qed.

Lemma exec_effect_sound w i t t' s' new :
  sound w → threads w !! i = Some t → calm new → effect (st w) s' t t' →
  sound (mkWorld s' (<[i := t']> (threads w) ++ new)).
Proof.
  intros Hw Hi [Hn Hnp] He.
  destruct (exec_owned_by_step (threads w) i t t' new Hi Hn) as [Hold Hnew].
  pose proof (sound_registered w Hw) as HR.
  pose proof (sound_injective w Hw) as HJ.
  pose proof (sound_owned_once w Hw) as HN. rewrite Hold in HN.
  assert (HO : ∀ p, p ∈ owned t ++ owned_by (delete i (threads w)) →
             (∃ k, tags (st w) !! p = Some (k, 0)) ∧
             ∀ sessionID, sessions (mgr (st w)) !! sessionID ≠ Some p).
  { intros p Hp. apply (sound_owned w Hw). by rewrite Hold. }
  pose proof (sound_closed_once w Hw) as HC.
  assert (HP : t' ≠ Panicked → Panicked ∉ <[i := t']> (threads w) ++ new).
  { intros Ht' Hin. apply elem_of_app in Hin as [Hin|Hin].
    - apply list_elem_of_lookup in Hin as [j Hj].
      apply list_lookup_insert_Some in Hj as [(_ & ? & _)|[_ Hj]]; [done|].
      apply (sound_no_panic w Hw). apply list_elem_of_lookup. eauto.
    - rewrite Forall_forall in Hnp. by apply (Hnp _ Hin). }
  set (O := owned_by (delete i (threads w))) in *.
  destruct He as [Ha Hb Hc Hd|sessionID p Ha Hb Hc Hd Hf Hg
                 |p k d Ha Hb Hc Hd Hf Hg|sessionID Ha Hb Hc Hd Hf
                 |sessionID p Ha Hb Hc Hd Hf];
    (split; simpl; [| | | | |try by auto]).
  - (* quiet *) rewrite Ha, Hb. exact HR.
  - rewrite Ha. exact HJ.
  - rewrite Hnew, Hc. exact HN.
  - intros q. rewrite Hnew, Hc, Ha, Hb. apply HO.
  - rewrite Hb. exact HC.
  - (* removes *)
    rewrite Hb, Hc. intros k q Hq.
    apply lookup_delete_Some in Hq as [_ Hq]. by eapply HR.
  - rewrite Hb. intros k1 k2 q H1 H2.
    apply lookup_delete_Some in H1 as [_ H1].
    apply lookup_delete_Some in H2 as [_ H2]. by eapply HJ.
  - rewrite Hnew, Hf. rewrite Hd in HN. simpl in *.
    apply NoDup_cons. split; [|done]. intros Hin.
    destruct (HO p) as [_ Hun]; [by rewrite Hd|]. by apply (Hun sessionID).
  - intros q. rewrite Hnew, Hf, Hb, Hc. simpl. intros Hq.
    apply elem_of_cons in Hq as [->|Hq].
    + split; [by eapply HR|]. intros k Hk.
      apply lookup_delete_Some in Hk as [Hne Hk].
      apply Hne. by apply (HJ _ _ p).
    + destruct (HO q) as [Ht Hun]; [by rewrite Hd|]. split; [done|].
      intros k Hk. apply lookup_delete_Some in Hk as [_ Hk]. by apply (Hun k).
  - rewrite Hc. exact HC.
  - (* closes *)
    rewrite Hd, Hc. intros k' q Hq.
    destruct (HO p) as [_ Hun]; [rewrite Ha; by left|].
    rewrite list_lookup_insert_ne; [by eapply HR|].
    intros ->. by apply (Hun k').
  - rewrite Hd. exact HJ.
  - rewrite Hnew, Hf. rewrite Ha in HN. simpl in *.
    by apply NoDup_cons in HN as [_ HN].
  - intros q. rewrite Hnew, Hf, Hd, Hc. simpl. intros Hq.
    rewrite Ha in HN. simpl in HN. apply NoDup_cons in HN as [Hp HN'].
    destruct (HO q) as [Ht Hun]; [rewrite Ha; by right|].
    split; [|done].
    rewrite list_lookup_insert_ne; [done|]. intros ->. done.
  - rewrite Hc. intros q k' d' Hq.
    apply list_lookup_insert_Some in Hq as [(<- & Heq & _)|[_ Hq]].
    + simplify_eq.
      destruct (HO p) as [[k'' Hk] _]; [rewrite Ha; by left|].
      assert (d = 0) as -> by congruence. lia.
    + by eapply HC.
  - destruct (HO p) as [[k' Hk] _]; [rewrite Ha; by left|].
    assert (d = 0) as -> by congruence. apply HP. by apply Hg.
  - (* allocates *)
    rewrite Hd, Ha. intros k q Hq.
    destruct (HR k q Hq) as [k' Hk']. exists k'. by apply lookup_app_l_Some.
  - rewrite Hd. exact HJ.
  - rewrite Hnew, Hc. rewrite Hb in HN. simpl in *.
    apply NoDup_cons. split; [|done]. intros Hin.
    destruct (HO (length (tags (st w)))) as [[k Hk] _]; [by rewrite Hb|].
    apply lookup_lt_Some in Hk. lia.
  - intros q. rewrite Hnew, Hc, Hd, Ha. simpl. intros Hq.
    apply elem_of_cons in Hq as [->|Hq].
    + split.
      * exists sessionID. rewrite lookup_app_r by lia. by rewrite Nat.sub_diag.
      * intros k Hk. destruct (HR k _ Hk) as [k' Hk'].
        apply lookup_lt_Some in Hk'. lia.
    + destruct (HO q) as [[k Hk] Hun]; [by rewrite Hb|].
      split; [|done]. exists k. by apply lookup_app_l_Some.
  - rewrite Ha. intros q k d' Hq.
    apply lookup_app_Some in Hq as [Hq|[_ Hq]]; [by eapply HC|].
    destruct (q - length (tags (st w))) as [|n]; simplify_eq/=. lia.
  - (* stores *)
    rewrite Hd, Hc. intros k q Hq.
    apply lookup_insert_Some in Hq as [[<- <-]|[_ Hq]]; [|by eapply HR].
    destruct (HO p) as [Ht _]; [rewrite Ha; by left|]. done.
  - rewrite Hd. intros k1 k2 q H1 H2.
    destruct (HO p) as [_ Hun]; [rewrite Ha; by left|].
    apply lookup_insert_Some in H1 as [[<- <-]|[Hn1 H1]];
      apply lookup_insert_Some in H2 as [[<- ?]|[Hn2 H2]]; try done.
    + subst. by destruct (Hun k2).
    + subst. by destruct (Hun k1).
    + by eapply HJ.
  - rewrite Hnew, Hb. rewrite Ha in HN. simpl in *.
    by apply NoDup_cons in HN as [_ HN].
  - intros q. rewrite Hnew, Hb, Hd, Hc. simpl. intros Hq.
    rewrite Ha in HN. simpl in HN. apply NoDup_cons in HN as [Hp HN'].
    destruct (HO q) as [Ht Hun]; [rewrite Ha; by right|].
    split; [done|]. intros k Hk.
    apply lookup_insert_Some in Hk as [[_ <-]|[_ Hk]]; [done|by apply (Hun k)].
  - rewrite Hc. exact HC.
Qed.

Lemma exec_step_sound l w w' : step l w = Some w' → sound w → sound w'.
Proof.
  intros H Hw. destruct l as [i e|t|q ps]; simpl in H.
  - destruct (threads w !! i) as [t|] eqn:Ei; [|done]. simpl in H.
    destruct (thread_step e t (st w)) as [[[t' s'] new]|] eqn:E; [|done].
    simpl in H. simplify_eq.
    apply exec_step_effect in E as [Hc He]. by eapply exec_effect_sound.
  - destruct (is_call t) eqn:Ec; [|done]. simplify_eq.
    assert (Ho : owned t = []) by (by destruct t).
    destruct Hw as [HR HJ HN HO HC HP]. split; simpl; try done.
    + unfold owned_by in *. by rewrite bind_app, bind_cons, Ho, !app_nil_r.
    + intros p. unfold owned_by in *. rewrite bind_app, bind_cons, Ho, !app_nil_r.
      apply HO.
    + intros Hin. apply elem_of_app in Hin as [Hin|Hin]; [done|].
      apply list_elem_of_singleton in Hin. by subst t.
  - destruct (heap (st w) !! q) as [x|]; [|done]. simpl in H.
    repeat case_match; simplify_eq.
    destruct Hw as [HR HJ HN HO HC HP]. split; simpl; try done;
      rewrite tags_set_session by apply keeps_tag_session_ends; done.
Qed.

Lemma exec_run_sound ls w w' : run ls w = Some w' → sound w → sound w'.
Proof.
  revert w. induction ls as [|l ls IH]; intros w H Hw; simpl in H; [by simplify_eq|].
  destruct (step l w) as [w1|] eqn:E; [|done]. simpl in H.
  eapply IH; [done|]. by eapply exec_step_sound.
Qed.

Lemma exec_sound_init out ex er : sound (mkWorld (NewExecManager out ex er) []).
Proof.
  split; simpl; try done.
  - apply NoDup_nil_2.
  - intros p Hp. by apply not_elem_of_nil in Hp.
  - apply not_elem_of_nil.
Qed.

(** Only the thread that holds a session changes the count of its
    channel, and by one. *)
Lemma exec_effect_closes s s' t t' p k d k' d' :
  effect s s' t t' →
  tags s !! p = Some (k, d) → tags s' !! p = Some (k', d') →
  d' ≠ d → p ∈ owned t ∧ d' = S d.
Proof.
  intros He Hp Hp' Hne.
  destruct He as [Ha Hb Hc Hd|sessionID q Ha Hb Hc Hd Hf Hg
                 |q kq dq Ha Hb Hc Hd Hf Hg|sessionID Ha Hb Hc Hd Hf
                 |sessionID q Ha Hb Hc Hd Hf]; try congruence.
  - rewrite Hc in Hp'. destruct (decide (q = p)) as [->|Hqp].
    + rewrite list_lookup_insert_eq in Hp' by (by eapply lookup_lt_Some).
      rewrite Ha. split; [by left|]. congruence.
    + rewrite list_lookup_insert_ne in Hp' by done. congruence.
  - rewrite Ha in Hp'. rewrite (lookup_app_l_Some _ _ _ _ Hp) in Hp'. congruence.
Qed.

(** The step that closes the channel of session [p] is the
    [close(session.done)] of a [Stop] that has removed [p]. *)
Lemma exec_closer e t s t' s' new p x x' :
  thread_step e t s = Some (t', s', new) →
  heap s !! p = Some x → heap s' !! p = Some x' → done x' ≠ done x →
  ∃ rest, t = Stop_close p rest.
Proof.
  intros Hstep Hx Hx' Hne.
  pose proof Hstep as [_ He]%exec_step_effect.
  apply tags_session in Hx, Hx'.
  destruct (exec_effect_closes _ _ _ _ _ _ _ _ _ He Hx Hx' Hne) as [Hin Hd].
  destruct t; simpl in Hin; try (by apply not_elem_of_nil in Hin);
    apply list_elem_of_singleton in Hin as <-.
  - simpl in Hstep. simplify_eq. unfold tags in Hx, Hx'. simpl in Hx'. congruence.
  - by eexists.
Qed.

End ExecFacts.

(* ===================================================================== *)
(** ** Facts about the log streamer *)
(* ===================================================================== *)

Module LogsFacts.
Import GoLib Logs.

Lemma heap_set_stream p f s : heap (set_stream p f s) = alter f p (heap s).
Proof. done. Qed.

Lemma heap_teardown p s :
  heap (teardown p s)
  = alter (close_file ∘ kill ∘ close_done ∘ mark_stopped) p (heap s).
Proof.
  unfold teardown. rewrite !heap_set_stream. by rewrite !list_alter_alter_eq.
Qed.

Lemma streams_teardown p s : streams (teardown p s) = streams s.
Proof. done. Qed.

Lemma events_teardown p s : events (teardown p s) = events s.
Proof. done. Qed.

Lemma logs_Stop_absent streamID s : streams s !! streamID = None → Stop streamID s = s.
Proof. intros H. unfold Stop. by rewrite H. Qed.

Lemma streams_Stop streamID s :
  streams (Stop streamID s) = delete streamID (streams s).
Proof.
  unfold Stop. destruct (streams s !! streamID) eqn:E; [done|].
  by rewrite delete_id.
Qed.

Lemma logs_Stop_twice streamID s : Stop streamID (Stop streamID s) = Stop streamID s.
Proof. apply logs_Stop_absent. rewrite streams_Stop. apply lookup_delete_eq. Qed.

Lemma logs_released_teardown x :
  released (close_file (kill (close_done (mark_stopped x)))).
Proof.
  unfold released, close_file, kill, close_done, mark_stopped; simpl.
  destruct (cmd x) as [[args [[|?]|]]|], (file x); simpl; split; congruence.
Qed.

Lemma teardown_flags p x s :
  heap s !! p = Some x →
  ∃ x', heap (teardown p s) !! p = Some x' ∧ released x' ∧
        stopped x' = true ∧ done x' = S (done x) ∧ ID x' = ID x.
Proof.
  intros Hx. rewrite heap_teardown, list_lookup_alter_eq, Hx. simpl.
  eexists; split; [done|]. split; [apply logs_released_teardown|].
  unfold close_file, kill, close_done, mark_stopped; simpl.
  destruct (cmd x) as [[args [[|?]|]]|], (file x); simpl; done.
Qed.

Lemma teardown_keeps_released q p x s :
  heap s !! p = Some x → released x →
  ∃ x', heap (teardown q s) !! p = Some x' ∧ released x'.
Proof.
  intros Hx Hr. rewrite heap_teardown.
  destruct (decide (q = p)) as [->|Hne].
  - rewrite list_lookup_alter_eq, Hx. simpl. eexists; split; [done|].
    apply logs_released_teardown.
  - rewrite list_lookup_alter_ne by done. eauto.
Qed.

Lemma teardown_keeps_heap q p x s :
  heap s !! p = Some x → is_Some (heap (teardown q s) !! p).
Proof.
  intros Hx. rewrite heap_teardown.
  destruct (decide (q = p)) as [->|Hne].
  - rewrite list_lookup_alter_eq, Hx. by eexists.
  - rewrite list_lookup_alter_ne by done. eauto.
Qed.

Lemma teardown_each_keeps_released ps p x s :
  heap s !! p = Some x → released x →
  ∃ x', heap (teardown_each ps s) !! p = Some x' ∧ released x'.
Proof.
  revert s x. induction ps as [|a ps IH]; intros s x Hx Hr; [by eauto|].
  change (teardown_each (a :: ps) s) with (teardown_each ps (teardown a s)).
  destruct (teardown_keeps_released a p x s Hx Hr) as (x' & Hx' & Hr'). eauto.
Qed.

Lemma teardown_each_released ps p x s :
  p ∈ ps → heap s !! p = Some x →
  ∃ x', heap (teardown_each ps s) !! p = Some x' ∧ released x'.
Proof.
  revert s x. induction ps as [|a ps IH]; intros s x Hin Hx;
    [by apply not_elem_of_nil in Hin|].
  change (teardown_each (a :: ps) s) with (teardown_each ps (teardown a s)).
  destruct (decide (a = p)) as [->|Hne].
  - destruct (teardown_flags p x s Hx) as (x' & Hx' & Hr' & _).
    by eapply teardown_each_keeps_released.
  - destruct (teardown_keeps_heap a p x s Hx) as [x' Hx'].
    apply (IH _ x'); [by apply elem_of_cons in Hin as [?|?]|done].
Qed.

Lemma streams_teardown_each ps s : streams (teardown_each ps s) = streams s.
Proof.
  revert s. induction ps as [|a ps IH]; intros s; [done|].
  change (teardown_each (a :: ps) s) with (teardown_each ps (teardown a s)).
  by rewrite IH.
Qed.

Lemma elem_of_ptrs_of (m : gmap string nat) p :
  p ∈ ptrs_of m ↔ ∃ k, m !! k = Some p.
Proof.
  unfold ptrs_of. rewrite list_elem_of_fmap. split.
  - intros ([k p'] & -> & H). apply elem_of_map_to_list in H. by eexists.
  - intros [k H]. exists (k, p). split; [done|]. by apply elem_of_map_to_list.
Qed.

Lemma logs_StopAll_empty s : streams (StopAll s) = ∅.
Proof. unfold StopAll. by rewrite streams_teardown_each. Qed.

Lemma logs_StopAll_released streamID p x s :
  streams s !! streamID = Some p → heap s !! p = Some x →
  ∃ x', heap (StopAll s) !! p = Some x' ∧ released x'.
Proof.
  intros Hs Hx. unfold StopAll.
  eapply teardown_each_released; [|done]. apply elem_of_ptrs_of. by eexists.
Qed.

Lemma startCommandStream_ok e p s :
  can_spawn e →
  startCommandStream e p s
  = (None, set_stream p started s,
     [readPipe_select p ""; readPipe_select p ""; waiter_Wait p]).
Proof.
  intros Hc. unfold startCommandStream.
  by destruct (Hc (default [] (Args <$> (heap s !! p ≫= cmd)))) as (-> & -> & ->).
Qed.

Lemma start_command_fresh e streamID serviceName args s :
  streams s !! streamID = None → can_spawn e →
  ∃ s' new, start_command e streamID serviceName args s = (None, s', new) ∧
            streams s' !! streamID = Some (length (heap s)).
Proof.
  intros Hs Hc. unfold start_command. rewrite Hs, startCommandStream_ok by done.
  do 2 eexists; split; [done|]. apply lookup_insert_eq.
Qed.



(** *** Every line handed to a callback is clean *)

Lemma nonempty_ne line : nonempty line = true → line ≠ "".
Proof.
  unfold nonempty. destruct (String.eqb_spec line ""); [done|]. done.
Qed.

Lemma strip_newline_clean rest n line :
  ReadString rest = (n, line, false) →
  nonempty (strip_newline line) = true → clean (strip_newline line).
Proof.
  intros Hr Hn. split; [by apply nonempty_ne|].
  unfold strip_newline. rewrite (GoLibFacts.ReadString_last _ _ _ Hr).
  rewrite Ascii.eqb_refl. apply GoLibFacts.no_LF_last.
  by eapply GoLibFacts.ReadString_chop.
Qed.

Lemma Scan_clean max data eof line rest :
  Scan max data eof = Token line rest → nonempty line = true → clean line.
Proof.
  intros Hs Hn. split; [by apply nonempty_ne|].
  apply GoLibFacts.no_LF_last. by eapply GoLibFacts.Scan_no_LF.
Qed.

Lemma startCommandStream_events e p s r s' new :
  startCommandStream e p s = (r, s', new) →
  events s' = events s ∧ Forall holds_clean new.
Proof.
  unfold startCommandStream. intros H.
  repeat case_match; simplify_eq; (split; [done|]);
    repeat constructor; by intros ?.
Qed.

Lemma start_command_events e streamID serviceName args s r s' new :
  start_command e streamID serviceName args s = (r, s', new) →
  events s' = events s ∧ Forall holds_clean new.
Proof.
  unfold start_command. intros H.
  destruct (streams s !! streamID); [by simplify_eq|].
  destruct (startCommandStream _ _ _) as [[r1 s1] new1] eqn:E.
  apply startCommandStream_events in E as [E1 E2].
  destruct r1; by simplify_eq.
Qed.

Lemma start_file_events streamID filePath s r s' new :
  start_file streamID filePath s = (r, s', new) →
  events s' = events s ∧ Forall holds_clean new.
Proof.
  unfold start_file, startFileStream. intros H.
  destruct (streams s !! streamID); simplify_eq; (split; [done|]);
    repeat constructor; by intros ?.
Qed.

Lemma StartEarlyLogStream_events e streamID s r s' new :
  StartEarlyLogStream e streamID s = (r, s', new) →
  events s' = events s ∧ Forall holds_clean new.
Proof.
  unfold StartEarlyLogStream. intros H.
  destruct (streams s !! streamID); [by simplify_eq|].
  destruct (startCommandStream e _ (alloc _ s)) as [[r1 s1] new1] eqn:E.
  apply startCommandStream_events in E as [E1 E2].
  destruct r1; [|by simplify_eq].
  destruct (startCommandStream e _ (set_stream _ _ s1)) as [[r2 s2] new2] eqn:E'.
  apply startCommandStream_events in E' as [E1' E2']. simpl in E1, E1'.
  destruct r2; simplify_eq; simpl; (split; [congruence|done]).
Qed.

(** Closes the goals of a step that invokes no callback and keeps no
    line. *)
Local Ltac quiet_step :=
  split; [by left|]; split; [|done];
  repeat case_match; repeat case_decide; by intros ?.

(** A step adds at most one event, the line the thread was holding. *)
Lemma thread_step_clean e t s t' s' new :
  thread_step e t s = Some (t', s', new) →
  holds_clean t →
  (events s' = events s ∨
   ∃ p line, events s' = events s ++ [Line p line] ∧ clean line) ∧
  holds_clean t' ∧ Forall holds_clean new.
Proof.
  intros H Ht.
  destruct t; simpl in H.
  - destruct (StartJournalctlStream _ _ _) as [[r s1] n1] eqn:E.
    apply start_command_events in E as [E1 E2]. simplify_eq.
    split; [by left|]. split; [by intros ?|done].
  - destruct (StartServiceStream _ _ _ _) as [[r s1] n1] eqn:E.
    apply start_command_events in E as [E1 E2]. simplify_eq.
    split; [by left|]. split; [by intros ?|done].
  - destruct (StartAppLogStream _ _) as [[r s1] n1] eqn:E.
    apply start_file_events in E as [E1 E2]. simplify_eq.
    split; [by left|]. split; [by intros ?|done].
  - destruct (StartCageLogStream _ _) as [[r s1] n1] eqn:E.
    apply start_file_events in E as [E1 E2]. simplify_eq.
    split; [by left|]. split; [by intros ?|done].
  - destruct (StartEarlyLogStream _ _ _) as [[r s1] n1] eqn:E.
    apply StartEarlyLogStream_events in E as [E1 E2]. simplify_eq.
    split; [by left|]. split; [by intros ?|done].
  - simplify_eq. quiet_step.
  - repeat case_match; simplify_eq; quiet_step.
  - simplify_eq. quiet_step.
  - destruct (heap s !! p); simplify_eq/=. quiet_step.
  - simplify_eq. quiet_step.
  - simplify_eq. split; [by left|]. split; [|done]. destruct rest; by intros ?.
  - simplify_eq. split; [by left|]. split; [|done].
    destruct (ptrs_of _); by intros ?.
  - destruct (heap s !! p); simplify_eq/=.
    repeat case_match; simplify_eq. quiet_step.
  - simplify_eq. quiet_step.
  - destruct (heap s !! p); simplify_eq/=. quiet_step.
  - destruct (heap s !! p); simplify_eq/=. quiet_step.
  - destruct (pipe_Read e) as [chunk eof].
    destruct (Scan _ _ _) as [line rest| |] eqn:E; simplify_eq;
      try quiet_step.
    split; [by left|]. split; [|done].
    destruct (nonempty line) eqn:En; [|by intros ?].
    intros l [= <-]. by eapply Scan_clean.
  - destruct (heap s !! p) as [x|]; simplify_eq/=.
    split; [by left|]. split; [|done].
    destruct (stopped x); [by intros ?|].
    intros l [= <-]. by apply Ht.
  - simplify_eq. split; [|split; [by intros ?|done]].
    right. do 2 eexists. split; [done|]. by apply Ht.
  - destruct (heap s !! p); simplify_eq/=.
    repeat case_match; simplify_eq; quiet_step.
  - repeat case_match; simplify_eq; quiet_step.
  - destruct (heap s !! p); simplify_eq/=. quiet_step.
  - repeat case_match; simplify_eq; quiet_step.
  - simplify_eq. quiet_step.
  - simplify_eq. quiet_step.
  - destruct (heap s !! p); simplify_eq/=.
    case_decide; simplify_eq; quiet_step.
  - destruct (heap s !! p) as [x|]; simplify_eq/=.
    destruct (is_open x); [|simplify_eq; quiet_step].
    destruct (file_Read e); [simplify_eq; quiet_step|].
    destruct (ReadString _) as [[n line] eof] eqn:E.
    destruct eof; simplify_eq; [quiet_step|].
    split; [by left|]. split; [|done].
    destruct (nonempty _) eqn:En; [|by intros ?].
    intros l [= <-]. by eapply strip_newline_clean.
  - destruct (heap s !! p) as [x|]; simplify_eq/=.
    destruct (stopped x); simplify_eq; [quiet_step|].
    split; [by left|]. split; [|done].
    intros l [= <-]. by apply Ht.
  - simplify_eq. split; [|split; [by intros ?|done]].
    right. do 2 eexists. split; [done|]. by apply Ht.
  - done.
  - done.
Qed.

Lemma step_clean l w w' : step l w = Some w' → all_clean w → all_clean w'.
Proof.
  intros H [He Ht]. destruct l as [i e|t|p ps|path data]; simpl in H.
  - destruct (threads w !! i) as [t|] eqn:Ei; [|done]. simpl in H.
    destruct (thread_step e t (st w)) as [[[t' s'] new]|] eqn:E; [|done].
    simpl in H. simplify_eq.
    apply thread_step_clean in E as (E1 & E2 & E3);
      [|by eapply Forall_lookup_1 in Ht].
    split; simpl.
    + destruct E1 as [E1|(p & line & E1 & Hc)]; rewrite E1; [done|].
      apply Forall_app. split; [done|]. by apply Forall_singleton.
    + apply Forall_app. split; [|done]. by apply Forall_insert.
  - destruct (is_call t) eqn:Ec; [|done]. simplify_eq. split; [done|]. simpl.
    apply Forall_app. split; [done|]. apply Forall_singleton.
    destruct t; try done; by intros ?.
  - by simplify_eq.
  - by simplify_eq.
Qed.

Lemma run_clean ls w w' : run ls w = Some w' → all_clean w → all_clean w'.
Proof.
  revert w. induction ls as [|l ls IH]; intros w H Hw; simpl in H; [by simplify_eq|].
  destruct (step l w) as [w1|] eqn:E; [|done]. simpl in H.
  eapply IH; [done|]. by eapply step_clean.
Qed.

(** *** Tailing a file *)

Lemma join_lines_app U V :
  join_lines (U ++ V) = String.append (join_lines U) (join_lines V).
Proof.
  induction U as [|l U IH]; [done|]. simpl.
  by rewrite IH, GoLibFacts.append_assoc, GoLibFacts.append_cons.
Qed.

Lemma strip_newline_line l :
  strip_newline (String.append l (String LF "")) = l.
Proof.
  unfold strip_newline. rewrite GoLibFacts.last_byte_append, Ascii.eqb_refl.
  apply GoLibFacts.chop_append.
Qed.

Section tail.
Context (e : env) (p : nat) (path : string) (ev0 : list event).
Hypothesis He : file_Read e = None.

Local Abbreviation tail_inv := (Logs.tail_inv p path ev0).

Lemma tail_point_here pos :
  tail_point p path (tailFile_select p path pos) = Some (pos, []) ∧
  tail_point p path (tailFile_Read p path pos) = Some (pos, []) ∧
  ∀ line,
    tail_point p path (tailFile_check p path pos line) = Some (pos, [line]) ∧
    tail_point p path (tailFile_callback p path pos line) = Some (pos, [line]).
Proof.
  split_and!; [..|intros line; split]; simpl; case_decide; naive_solver.
Qed.

Lemma tail_step W U pend t s :
  tail_inv W U pend t s →
  ∃ t' s' U' pend',
    thread_step e t s = Some (t', s', []) ∧
    tail_inv W U' pend' t' s' ∧
    (tail_cost t' U' < tail_cost t U ∨ (U = [] ∧ pend = [])) ∧
    (U = [] → pend = [] → U' = [] ∧ pend' = []).
Proof.
  intros (x & c & D & pos & Hx & Hd & Hs & Hf & Ht & Hc & Hl & HU & Hev & HD).
  destruct t; simpl in Ht; try done; case_decide as Hp; try done;
    destruct Hp as [-> ->]; simplify_eq; simpl; rewrite ?Hx; simpl.
  - (* select *)
    rewrite decide_True by done.
    exists (tailFile_Read p path (String.length c)), s, U, [].
    split; [done|]. split; [|split; [simpl; lia|done]].
    exists x, c, D, (String.length c). split_and!; try done; try apply tail_point_here.
  - (* Read *)
    unfold is_open. rewrite Hf, He, Hc, GoLibFacts.suffix_append.
    destruct U as [|l U].
    + simpl. exists (tailFile_select p path (String.length c + 0)), s, [], [].
      split; [done|]. split; [|split; [by right|done]].
      exists x, c, D, (String.length c + 0). split_and!; try done; try lia; try apply tail_point_here.
    + apply Forall_cons in HU as [Hl HU].
      simpl join_lines. rewrite GoLibFacts.ReadString_line by done.
      rewrite strip_newline_line.
      assert (Hc' : default "" (fs s !! path)
                    = String.append (String.append c (String.append l (String LF "")))
                        (join_lines U)).
      { rewrite Hc. simpl. by rewrite !GoLibFacts.append_assoc. }
      assert (Hlen : String.length (String.append c (String.append l (String LF "")))
                     = String.length c + (String.length l + 1)).
      { rewrite !GoLibFacts.length_append. simpl. lia. }
      simpl in HD. destruct (nonempty l) eqn:En.
      * exists (tailFile_check p path (String.length c + (String.length l + 1)) l),
          s, U, [l].
        split; [done|]. split; [|split; [left; simpl; lia|done]].
        eexists x, _, D, _. split_and!; try done; try apply tail_point_here.
      * exists (tailFile_select p path (String.length c + (String.length l + 1))),
          s, U, [].
        split; [done|]. split; [|split; [left; simpl; lia|done]].
        eexists x, _, D, _. split_and!; try done; try apply tail_point_here.
  - (* check *)
    rewrite Hs.
    exists (tailFile_callback p path (String.length c) line), s, U, [line].
    split; [done|]. split; [|split; [left; simpl; lia|done]].
    exists x, c, D, (String.length c). split_and!; try done; try apply tail_point_here.
  - (* callback *)
    exists (tailFile_select p path (String.length c)),
      (emit (Line p line) s), U, [].
    split; [done|]. split; [|split; [left; simpl; lia|done]].
    exists x, c, (D ++ [line]), (String.length c). split_and!; try done; try apply tail_point_here.
    + simpl. rewrite Hev, fmap_app. by rewrite <- app_assoc.
    + rewrite <- HD. by rewrite <- !app_assoc.
Qed.

Lemma tail_write W U pend t s lines :
  tail_inv W U pend t s → Forall no_LF lines →
  tail_inv (W ++ lines) (U ++ lines) pend t
           (append_file path (join_lines lines) s).
Proof.
  intros (x & c & D & pos & Hx & Hd & Hs & Hf & Ht & Hc & Hl & HU & Hev & HD) Hls.
  exists x, c, D, pos. split_and!; try done.
  - simpl. rewrite lookup_insert_eq. simpl.
    by rewrite Hc, join_lines_app, GoLibFacts.append_assoc.
  - by apply Forall_app.
  - rewrite !List.filter_app, <- HD. by rewrite <- !app_assoc.
Qed.

Lemma tail_acts acts W U pend t s :
  tail_inv W U pend t s → Forall no_LF (lines_written acts) →
  ∃ U' pend',
    tail_inv (W ++ lines_written acts) U' pend'
             (solo e (as_solo path <$> acts) t s).1
             (solo e (as_solo path <$> acts) t s).2 ∧
    length U' ≤ length U + length (lines_written acts).
Proof.
  revert W U pend t s. induction acts as [|a acts IH]; intros W U pend t s Hi Hw.
  - exists U, pend. simpl. rewrite app_nil_r. split; [done|lia].
  - assert (Hlw : lines_written (a :: acts) = lines_of a ++ lines_written acts)
      by apply bind_cons.
    rewrite Hlw in *. clear Hlw.
    apply Forall_app in Hw as [Ha Hw]. destruct a as [|lines]; simpl.
    + destruct (tail_step _ _ _ _ _ Hi)
        as (t' & s' & U' & pend' & -> & Hi' & Hc & Hidle).
      destruct (IH _ _ _ _ _ Hi' Hw) as (U'' & pend'' & Hi'' & Hlen).
      exists U'', pend''. split; [done|].
      assert (length U' ≤ length U); [|lia].
      destruct Hc as [Hc|[-> ->]].
      * destruct Hi as (? & ? & ? & ? & _ & _ & _ & _ & Ht & _).
        destruct Hi' as (? & ? & ? & ? & _ & _ & _ & _ & Ht' & _).
        destruct t; simpl in Ht; try done; destruct t'; simpl in Ht'; try done;
          simpl in Hc; lia.
      * by destruct Hidle as [-> _].
    + pose proof (tail_write _ _ _ _ _ _ Hi Ha) as Hi'.
      destruct (IH _ _ _ _ _ Hi' Hw) as (U'' & pend'' & Hi'' & Hlen).
      exists U'', pend''. rewrite app_assoc. split; [done|].
      rewrite !length_app in *. simpl in Hlen. lia.
Qed.

Lemma tail_drain k W U pend t s :
  tail_inv W U pend t s →
  tail_cost t U ≤ k ∨ (U = [] ∧ pend = []) →
  events (solo e (replicate k Step) t s).2
  = ev0 ++ (Line p <$> List.filter nonempty W).
Proof.
  revert U pend t s. induction k as [|k IH]; intros U pend t s Hi Hk.
  - assert (U = [] ∧ pend = []) as [-> ->].
    { destruct Hk as [Hk|]; [|done].
      destruct Hi as (? & ? & ? & ? & _ & _ & _ & _ & Ht & _).
      destruct t; simpl in Ht; try done; case_decide; simplify_eq;
        simpl in Hk; try lia.
      split; [|done]. destruct U; [done|simpl in Hk; lia]. }
    destruct Hi as (x & c & D & pos & _ & _ & _ & _ & _ & _ & _ & _ & Hev & HD).
    simpl in *. rewrite app_nil_r in HD. by rewrite Hev, HD.
  - destruct (tail_step _ _ _ _ _ Hi) as (t' & s' & U' & pend' & Hst & Hi' & Hc & Hidle).
    simpl. rewrite Hst. apply (IH U' pend'); [done|].
    destruct Hk as [Hk|[-> ->]].
    + destruct Hc as [Hc|[-> ->]]; [left; lia|].
      right. by apply Hidle.
    + right. by apply Hidle.
Qed.

Lemma tail_seek x s :
  heap s !! p = Some x → done x = 0 → stopped x = false → file x = Some Open →
  events s = ev0 →
  ∃ pos, thread_step e (file_Seek p path) s = Some (tailFile_select p path pos, s, []) ∧
         tail_inv [] [] [] (tailFile_select p path pos) s.
Proof.
  intros Hx Hd Hs Hf Hev. eexists. split; [done|].
  exists x, (default "" (fs s !! path)), [],
    (String.length (default "" (fs s !! path))). split_and!; try done.
  - apply tail_point_here.
  - simpl. by rewrite GoLibFacts.append_nil_r.
  - by rewrite Hev, app_nil_r.
Qed.

Lemma solo_app acts1 acts2 t s :
  solo e (acts1 ++ acts2) t s
  = solo e acts2 (solo e acts1 t s).1 (solo e acts1 t s).2.
Proof.
  revert t s. induction acts1 as [|a acts1 IH]; intros t s; [done|].
  destruct a as [|path' data]; simpl.
  - destruct (thread_step e t s) as [[[t' s'] new]|]; apply IH.
  - apply IH.
Qed.

End tail.

(** *** A method and its thread agree

    The start methods are one step each.  Run with no other thread in
    between, the threads of [Stop] and [StopAll] end in the state of the
    method. *)

Lemma solo_S e n t s :
  solo e (replicate (S n) Step) t s
  = match thread_step e t s with
    | Some (t', s', _) => solo e (replicate n Step) t' s'
    | None => solo e (replicate n Step) t s
    end.
Proof. done. Qed.

Lemma solo_Returned e n err ids s :
  solo e (replicate n Step) (Returned err ids) s = (Returned err ids, s).
Proof. induction n as [|n IH]; [done|]. by rewrite solo_S. Qed.

Lemma teardown_alone e p rest x s n :
  heap s !! p = Some x → done x = 0 →
  solo e (replicate (4 + n) Step) (Stop_mark p rest) s
  = solo e (replicate n Step) (after_teardown rest) (teardown p s).
Proof.
  intros Hx Hd.
  assert (E : thread_step e (Stop_close p rest) (set_stream p mark_stopped s)
              = Some (Stop_kill p rest,
                      set_stream p close_done (set_stream p mark_stopped s), [])).
  { simpl. rewrite list_lookup_alter_eq, Hx. simpl. by rewrite decide_True. }
  change (4 + n) with (S (S (S (S n)))).
  rewrite solo_S. cbn [thread_step]. rewrite solo_S, E.
  rewrite solo_S. cbn [thread_step]. rewrite solo_S. by cbn [thread_step].
Qed.

Lemma teardown_each_alone e ps s n :
  NoDup ps → (∀ p, p ∈ ps → ∃ x, heap s !! p = Some x ∧ done x = 0) →
  solo e (replicate (4 * length ps + n) Step) (after_teardown ps) s
  = (ret None, teardown_each ps s).
Proof.
  revert s. induction ps as [|a ps IH]; intros s Hnd Hv.
  - apply solo_Returned.
  - apply NoDup_cons in Hnd as [Ha Hnd].
    destruct (Hv a) as (x & Hx & Hd); [by left|].
    replace (4 * length (a :: ps) + n) with (4 + (4 * length ps + n))
      by (simpl; lia).
    change (after_teardown (a :: ps)) with (Stop_mark a ps).
    rewrite (teardown_alone e a ps x) by done.
    change (teardown_each (a :: ps) s) with (teardown_each ps (teardown a s)).
    apply IH; [done|]. intros p Hp.
    destruct (Hv p) as (y & Hy & Hdy); [by right|].
    exists y. split; [|done]. rewrite heap_teardown.
    rewrite list_lookup_alter_ne; [done|]. by intros ->.
Qed.

Lemma logs_Stop_alone e streamID s n :
  (∀ p, streams s !! streamID = Some p → ∃ x, heap s !! p = Some x ∧ done x = 0) →
  solo e (replicate (5 + n) Step) (Stop_lock streamID) s = (ret None, Stop streamID s).
Proof.
  intros Hv. unfold Stop. change (5 + n) with (S (4 + n)).
  rewrite solo_S. cbn [thread_step].
  destruct (streams s !! streamID) as [p|] eqn:Es.
  - destruct (Hv p eq_refl) as (x & Hx & Hd).
    rewrite (teardown_alone e p [] x) by done. apply solo_Returned.
  - apply solo_Returned.
Qed.

Lemma logs_StopAll_alone e s n :
  NoDup (ptrs_of (streams s)) →
  (∀ k p, streams s !! k = Some p → ∃ x, heap s !! p = Some x ∧ done x = 0) →
  solo e (replicate (S (4 * size (streams s) + n)) Step) StopAll_lock s
  = (ret None, StopAll s).
Proof.
  intros Hnd Hv. rewrite solo_S. cbn [thread_step]. unfold StopAll.
  replace (size (streams s)) with (length (ptrs_of (streams s)))
    by (unfold ptrs_of; by rewrite length_fmap, length_map_to_list).
  apply teardown_each_alone; [done|].
  intros p [k Hk]%elem_of_ptrs_of. by apply (Hv k).
Qed.

(** Two calls of a start method with one identifier, in either order
    and whatever happens in between that keeps the first registration: the
    first succeeds and the second fails with the already-exists error. *)
Lemma start_command_twice e1 e2 streamID service1 service2 args1 args2 s :
  streams s !! streamID = None → can_spawn e1 →
  ∃ s1 new1,
    start_command e1 streamID service1 args1 s = (None, s1, new1) ∧
    start_command e2 streamID service2 args2 s1
    = (Some (AlreadyExists streamID), s1, []).
Proof.
  intros Hs Hc.
  destruct (start_command_fresh e1 streamID service1 args1 s Hs Hc)
    as (s1 & new1 & H1 & H2).
  exists s1, new1. split; [done|]. unfold start_command. by rewrite H2.
Qed.

(** *** Once stopped, a stream stays stopped *)

Lemma grows_refl s : grows s s.
Proof. intros p x Hx. by exists x. Qed.

Lemma grows_trans s1 s2 s3 : grows s1 s2 → grows s2 s3 → grows s1 s3.
Proof.
  intros H12 H23 p x Hx.
  destruct (H12 p x Hx) as (x2 & Hx2 & Hi2 & Hd2 & Hs2).
  destruct (H23 p x2 Hx2) as (x3 & Hx3 & Hi3 & Hd3 & Hs3).
  exists x3. split_and!; [done|congruence|lia|tauto].
Qed.

Lemma grows_set_stream q f s : gentle f → grows s (set_stream q f s).
Proof.
  intros Hf p x Hx. rewrite heap_set_stream.
  destruct (decide (q = p)) as [->|Hne].
  - rewrite list_lookup_alter_eq, Hx. simpl. eexists; split; [done|]. apply Hf.
  - rewrite list_lookup_alter_ne by done. by exists x.
Qed.

Lemma grows_alloc x s : grows s (alloc x s).
Proof. intros p y Hy. exists y. split; [|done]. by apply lookup_app_l_Some. Qed.

Lemma grows_set_streams f s : grows s (set_streams f s).
Proof. intros p x Hx. by exists x. Qed.

Lemma grows_emit ev s : grows s (emit ev s).
Proof. intros p x Hx. by exists x. Qed.

Lemma gentle_set_cmd c : gentle (set_cmd c).
Proof. by intros x. Qed.

Lemma gentle_set_file f : gentle (set_file f).
Proof. by intros x. Qed.

Lemma gentle_started : gentle started.
Proof. intros x. unfold started. by destruct (cmd x). Qed.

Lemma gentle_mark_stopped : gentle mark_stopped.
Proof. by intros x. Qed.

Lemma gentle_close_done : gentle close_done.
Proof. intros x. simpl. split_and!; [done|lia|done]. Qed.

Lemma gentle_kill : gentle kill.
Proof. intros x. unfold kill. by repeat case_match. Qed.

Lemma gentle_close_file : gentle close_file.
Proof. intros x. unfold close_file. by repeat case_match. Qed.

Lemma gentle_child_ends ps : gentle (child_ends ps).
Proof. intros x. unfold child_ends. by repeat case_match. Qed.

Create HintDb grows.

#[local] Hint Resolve grows_refl grows_set_stream grows_alloc grows_set_streams
  grows_emit gentle_set_cmd gentle_set_file gentle_started gentle_mark_stopped
  gentle_close_done gentle_kill gentle_close_file gentle_child_ends : grows.

Lemma startCommandStream_grows e p s r s' new :
  startCommandStream e p s = (r, s', new) → grows s s'.
Proof.
  unfold startCommandStream. intros H.
  repeat case_match; simplify_eq; auto with grows.
Qed.

Lemma start_command_grows e streamID serviceName args s r s' new :
  start_command e streamID serviceName args s = (r, s', new) → grows s s'.
Proof.
  unfold start_command. intros H.
  destruct (streams s !! streamID); [simplify_eq; auto with grows|].
  destruct (startCommandStream _ _ _) as [[r1 s1] new1] eqn:E.
  apply startCommandStream_grows in E.
  destruct r1; simplify_eq;
    (eapply grows_trans; [apply grows_alloc|]);
    (eapply grows_trans; [exact E|]); auto with grows.
Qed.

Lemma start_file_grows streamID filePath s r s' new :
  start_file streamID filePath s = (r, s', new) → grows s s'.
Proof.
  unfold start_file, startFileStream. intros H.
  destruct (streams s !! streamID); simplify_eq; [auto with grows|].
  eapply grows_trans; [apply grows_alloc|]. auto with grows.
Qed.

Lemma StartEarlyLogStream_grows e streamID s r s' new :
  StartEarlyLogStream e streamID s = (r, s', new) → grows s s'.
Proof.
  unfold StartEarlyLogStream. intros H.
  destruct (streams s !! streamID); [simplify_eq; auto with grows|].
  destruct (startCommandStream e _ (alloc _ s)) as [[r1 s1] new1] eqn:E.
  apply startCommandStream_grows in E.
  eapply grows_trans; [apply grows_alloc|].
  eapply grows_trans; [exact E|].
  destruct r1; [|simplify_eq; auto with grows].
  destruct (startCommandStream e _ (set_stream _ _ s1)) as [[r2 s2] new2] eqn:E'.
  apply startCommandStream_grows in E'.
  eapply grows_trans; [apply grows_set_stream, gentle_set_cmd|].
  eapply grows_trans; [exact E'|].
  destruct r2; simplify_eq; auto with grows.
Qed.

Lemma thread_step_grows e t s t' s' new :
  thread_step e t s = Some (t', s', new) → grows s s'.
Proof.
  intros H. destruct t; simpl in H.
  - destruct (StartJournalctlStream _ _ _) as [[r s1] n1] eqn:E.
    apply start_command_grows in E. by simplify_eq.
  - destruct (StartServiceStream _ _ _ _) as [[r s1] n1] eqn:E.
    apply start_command_grows in E. by simplify_eq.
  - destruct (StartAppLogStream _ _) as [[r s1] n1] eqn:E.
    apply start_file_grows in E. by simplify_eq.
  - destruct (StartCageLogStream _ _) as [[r s1] n1] eqn:E.
    apply start_file_grows in E. by simplify_eq.
  - destruct (StartEarlyLogStream _ _ _) as [[r s1] n1] eqn:E.
    apply StartEarlyLogStream_grows in E. by simplify_eq.
  - simplify_eq. auto with grows.
  - repeat case_match; simplify_eq; auto with grows.
  - simplify_eq. auto with grows.
  - destruct (heap s !! p); simplify_eq/=. auto with grows.
  - simplify_eq. auto with grows.
  - simplify_eq. auto with grows.
  - simplify_eq. auto with grows.
  - destruct (heap s !! p); simplify_eq/=.
    repeat case_match; simplify_eq. auto with grows.
  - simplify_eq. auto with grows.
  - destruct (heap s !! p); simplify_eq/=. unfold cleanupStream. auto with grows.
  - destruct (heap s !! p); simplify_eq/=. auto with grows.
  - repeat case_match; simplify_eq; auto with grows.
  - destruct (heap s !! p); simplify_eq/=. auto with grows.
  - simplify_eq. auto with grows.
  - destruct (heap s !! p); simplify_eq/=.
    repeat case_match; simplify_eq; auto with grows.
  - repeat case_match; simplify_eq; auto with grows.
  - destruct (heap s !! p); simplify_eq/=. auto with grows.
  - repeat case_match; simplify_eq; auto with grows.
  - simplify_eq. auto with grows.
  - simplify_eq. auto with grows.
  - destruct (heap s !! p); simplify_eq/=.
    case_decide; simplify_eq; auto with grows.
  - destruct (heap s !! p); simplify_eq/=.
    repeat case_match; simplify_eq; auto with grows.
  - destruct (heap s !! p); simplify_eq/=.
    repeat case_match; simplify_eq; auto with grows.
  - simplify_eq. auto with grows.
  - done.
  - done.
Qed.

Lemma step_grows l w w' : step l w = Some w' → grows (st w) (st w').
Proof.
  intros H. destruct l as [i e|t|q ps|path data]; simpl in H.
  - destruct (threads w !! i) as [t|]; [|done]. simpl in H.
    destruct (thread_step e t (st w)) as [[[t' s'] new]|] eqn:E; [|done].
    simpl in H. simplify_eq. simpl. by eapply thread_step_grows.
  - destruct (is_call t); simplify_eq. apply grows_refl.
  - simplify_eq. simpl. auto with grows.
  - simplify_eq. intros p x Hx. by exists x.
Qed.

Lemma run_grows ls w w' : run ls w = Some w' → grows (st w) (st w').
Proof.
  revert w. induction ls as [|l ls IH]; intros w H; simpl in H.
  - simplify_eq. apply grows_refl.
  - destruct (step l w) as [w1|] eqn:E; [|done]. simpl in H.
    eapply grows_trans; [by eapply step_grows|by apply IH].
Qed.

Lemma grows_halted s s' p : grows s s' → halted p s → halted p s'.
Proof.
  intros Hg (x & Hx & Hd & Hs).
  destruct (Hg p x Hx) as (x' & Hx' & _ & Hd' & Hs').
  exists x'. split_and!; [done|lia|tauto].
Qed.

Lemma logs_Stop_halted streamID p x s :
  streams s !! streamID = Some p → heap s !! p = Some x →
  halted p (Stop streamID s).
Proof.
  intros Hs Hx. unfold Stop. rewrite Hs.
  destruct (teardown_flags p x (set_streams (delete streamID) s) Hx)
    as (x' & Hx' & _ & Hst & Hd & _).
  exists x'. split_and!; [done|lia|done].
Qed.

(** A stopped stream: every check of a worker ends the worker, and no
    callback is made. *)
Lemma halted_checks e p s :
  halted p s →
  (∀ buf, thread_step e (readPipe_select p buf) s = Some (ret None, s, [])) ∧
  (∀ line buf, thread_step e (readPipe_check p line buf) s = Some (ret None, s, [])) ∧
  (∀ filePath elapsed, (elapsed < maxWait)%N →
     thread_step e (fileWait_select p filePath elapsed) s = Some (ret None, s, [])) ∧
  (∀ filePath, thread_step e (file_check p filePath) s = Some (ret None, s, [])) ∧
  (∀ filePath pos,
     thread_step e (tailFile_select p filePath pos) s
     = Some (ret None, set_stream p close_file s, [])) ∧
  (∀ filePath pos line,
     thread_step e (tailFile_check p filePath pos line) s
     = Some (ret None, set_stream p close_file s, [])).
Proof.
  intros (x & Hx & Hd & Hs). split_and!; intros; simpl; rewrite Hx; simpl;
    rewrite ?Hs, ?decide_False by lia; try done.
  by destruct (N.ltb_spec elapsed maxWait); [|lia].
Qed.

(** *** Who closes a channel *)

Lemma tags_set_stream p f s : keeps_tag f → tags (set_stream p f s) = tags s.
Proof.
  intros Hf. unfold tags. rewrite heap_set_stream.
  rewrite (list_fmap_alter _ f id).
  - by apply list_alter_id.
  - apply Forall_forall. intros x _. simpl. by destruct (Hf x) as [-> ->].
Qed.

Lemma tags_alloc x s : tags (alloc x s) = tags s ++ [(ID x, done x)].
Proof. unfold tags. simpl. by rewrite fmap_app. Qed.

Lemma tags_set_streams f s : tags (set_streams f s) = tags s.
Proof. done. Qed.

Lemma tags_lookup p x s : heap s !! p = Some x → tags s !! p = Some (ID x, done x).
Proof. intros H. unfold tags. by rewrite list_lookup_fmap, H. Qed.

Lemma tags_close_done p x s :
  heap s !! p = Some x →
  tags (set_stream p close_done s) = <[p := (ID x, S (done x))]> (tags s).
Proof.
  intros Hx. unfold tags. rewrite heap_set_stream.
  rewrite (list_fmap_alter _ close_done (λ '(i, d), (i, S d))).
  - rewrite list_insert_alter. apply list_alter_ext; [|done].
    intros [i d]. rewrite list_lookup_fmap, Hx. by intros [= <- <-].
  - apply Forall_forall. by intros y _.
Qed.

Lemma keeps_tag_set_cmd c : keeps_tag (set_cmd c).
Proof. by intros x. Qed.

Lemma keeps_tag_set_file f : keeps_tag (set_file f).
Proof. by intros x. Qed.

Lemma keeps_tag_started : keeps_tag started.
Proof. intros x. unfold started. by destruct (cmd x). Qed.

Lemma keeps_tag_mark_stopped : keeps_tag mark_stopped.
Proof. by intros x. Qed.

Lemma keeps_tag_kill : keeps_tag kill.
Proof. intros x. unfold kill. by repeat case_match. Qed.

Lemma keeps_tag_close_file : keeps_tag close_file.
Proof. intros x. unfold close_file. by repeat case_match. Qed.

Lemma keeps_tag_child_ends ps : keeps_tag (child_ends ps).
Proof. intros x. unfold child_ends. by repeat case_match. Qed.

Create HintDb tags.
Create Rewrite HintDb tags.

#[local] Hint Resolve keeps_tag_set_cmd keeps_tag_set_file keeps_tag_started
  keeps_tag_mark_stopped keeps_tag_kill keeps_tag_close_file
  keeps_tag_child_ends : tags.

#[local] Hint Rewrite tags_set_streams tags_alloc : tags.
#[local] Hint Rewrite tags_set_stream using (by auto with tags) : tags.

Lemma startCommandStream_tags e p s r s' new :
  startCommandStream e p s = (r, s', new) →
  streams s' = streams s ∧ tags s' = tags s ∧ calm new.
Proof.
  unfold startCommandStream. intros H.
  repeat case_match; simplify_eq; split_and!; try done;
    try (by autorewrite with tags); by repeat constructor.
Qed.

Lemma calm_nil : calm [].
Proof. by split. Qed.

Local Ltac allocates_effect streamID :=
  split; [first [done | apply calm_nil | by repeat constructor]|];
  apply (allocates _ _ _ _ streamID); try done;
  try (autorewrite with tags; simpl; congruence);
  try (left; congruence);
  try (right; simpl; unfold tags in *; rewrite ?length_fmap; congruence).

Lemma start_command_effect e streamID serviceName args s r s' new :
  start_command e streamID serviceName args s = (r, s', new) →
  calm new ∧ effect s s' (ret None) (ret r).
Proof.
  unfold start_command. intros H.
  destruct (streams s !! streamID) eqn:Es; [simplify_eq; split; [apply calm_nil|by apply quiet]|].
  destruct (startCommandStream _ _ _) as [[r1 s1] new1] eqn:E.
  apply startCommandStream_tags in E as (E1 & E2 & E3).
  autorewrite with tags in E2. simpl in E1, E2.
  destruct r1; simplify_eq; allocates_effect streamID.
Qed.

Lemma start_file_effect streamID filePath s r s' new :
  start_file streamID filePath s = (r, s', new) →
  calm new ∧ effect s s' (ret None) (ret r).
Proof.
  unfold start_file, startFileStream. intros H.
  destruct (streams s !! streamID) eqn:Es; simplify_eq;
    [split; [apply calm_nil|by apply quiet]|].
  allocates_effect streamID.
Qed.

Lemma StartEarlyLogStream_effect e streamID s r s' new :
  StartEarlyLogStream e streamID s = (r, s', new) →
  calm new ∧ effect s s' (ret None) (ret r).
Proof.
  unfold StartEarlyLogStream. intros H.
  destruct (streams s !! streamID) eqn:Es; [simplify_eq; split; [apply calm_nil|by apply quiet]|].
  destruct (startCommandStream e _ (alloc _ s)) as [[r1 s1] new1] eqn:E.
  apply startCommandStream_tags in E as (E1 & E2 & E3).
  autorewrite with tags in E2. simpl in E1, E2.
  destruct r1.
  - destruct (startCommandStream e _ (set_stream _ _ s1)) as [[r2 s2] new2] eqn:E'.
    apply startCommandStream_tags in E' as (E1' & E2' & E3').
    autorewrite with tags in E2'. simpl in E1', E2'.
    destruct r2; simplify_eq; allocates_effect streamID.
  - simplify_eq. allocates_effect streamID.
Qed.

Lemma effect_thread s s' t1 t1' t2 t2' :
  owned t2 = owned t1 → owned t2' = owned t1' → t2' ≠ Panicked →
  effect s s' t1 t1' → effect s s' t2 t2'.
Proof.
  intros H1 H2 Hp He.
  destruct He as [Ha Hb Hc Hd|streamID p Ha Hb Hc Hd Hf Hg|streamID Ha Hb Hc Hd
                 |Ha Hb Hc Hd Hf|p rest streamID d Ha Hb Hc Hd Hf Hg
                 |streamID Ha Hb Hc Hd Hf].
  - apply quiet; congruence.
  - apply (removes _ _ _ _ streamID p); congruence.
  - apply (forgets _ _ _ _ streamID); congruence.
  - apply clears; congruence.
  - apply (closes _ _ _ _ p rest streamID d); congruence.
  - apply (allocates _ _ _ _ streamID); try congruence; done.
Qed.

Lemma owned_after_teardown rest : owned (after_teardown rest) = rest.
Proof. by destruct rest. Qed.

Lemma after_teardown_no_panic rest : after_teardown rest ≠ Panicked.
Proof. by destruct rest. Qed.

Local Ltac quiet_effect :=
  split; [apply calm_nil|]; apply quiet;
  [done|by autorewrite with tags|by rewrite ?owned_after_teardown
  |by auto using after_teardown_no_panic].

Lemma thread_step_effect e t s t' s' new :
  thread_step e t s = Some (t', s', new) →
  calm new ∧ effect s s' t t'.
Proof.
  intros H. destruct t; simpl in H.
  - destruct (StartJournalctlStream _ _ _) as [[r s1] n1] eqn:E.
    apply start_command_effect in E as [E1 E2]. simplify_eq.
    split; [done|]. by apply (effect_thread _ _ (ret None) (ret r)).
  - destruct (StartServiceStream _ _ _ _) as [[r s1] n1] eqn:E.
    apply start_command_effect in E as [E1 E2]. simplify_eq.
    split; [done|]. by apply (effect_thread _ _ (ret None) (ret r)).
  - destruct (StartAppLogStream _ _) as [[r s1] n1] eqn:E.
    apply start_file_effect in E as [E1 E2]. simplify_eq.
    split; [done|]. by apply (effect_thread _ _ (ret None) (ret r)).
  - destruct (StartCageLogStream _ _) as [[r s1] n1] eqn:E.
    apply start_file_effect in E as [E1 E2]. simplify_eq.
    split; [done|]. by apply (effect_thread _ _ (ret None) (ret r)).
  - destruct (StartEarlyLogStream _ _ _) as [[r s1] n1] eqn:E.
    apply StartEarlyLogStream_effect in E as [E1 E2]. simplify_eq.
    split; [done|]. by apply (effect_thread _ _ (ret None) (ret r)).
  - simplify_eq. quiet_effect.
  - destruct (streams s !! streamID) as [p|] eqn:Es; simplify_eq; [|quiet_effect].
    split; [apply calm_nil|]. by eapply removes.
  - simplify_eq. quiet_effect.
  - destruct (heap s !! p) as [x|] eqn:Ex; simplify_eq/=.
    split; [apply calm_nil|]. eapply (closes _ _ _ _ p rest (ID x) (done x)); try done.
    + by apply tags_lookup.
    + by apply tags_close_done.
    + by case_decide.
    + intros Hz. by rewrite decide_True.
  - simplify_eq. quiet_effect.
  - simplify_eq. quiet_effect.
  - simplify_eq. split; [apply calm_nil|]. apply clears; try done.
    + by rewrite owned_after_teardown.
    + apply after_teardown_no_panic.
  - destruct (heap s !! p); simplify_eq/=.
    repeat case_match; simplify_eq. quiet_effect.
  - simplify_eq. quiet_effect.
  - destruct (heap s !! p) as [x|]; simplify_eq/=.
    split; [apply calm_nil|]. by eapply (forgets _ _ _ _ (ID x)).
  - destruct (heap s !! p); simplify_eq/=. case_decide; quiet_effect.
  - repeat case_match; simplify_eq; quiet_effect.
  - destruct (heap s !! p); simplify_eq/=. case_match; quiet_effect.
  - simplify_eq. quiet_effect.
  - destruct (heap s !! p); simplify_eq/=.
    repeat case_match; simplify_eq; quiet_effect.
  - repeat case_match; simplify_eq; quiet_effect.
  - destruct (heap s !! p); simplify_eq/=. case_match; quiet_effect.
  - repeat case_match; simplify_eq; quiet_effect.
  - simplify_eq. quiet_effect.
  - simplify_eq. quiet_effect.
  - destruct (heap s !! p); simplify_eq/=.
    case_decide; simplify_eq; quiet_effect.
  - destruct (heap s !! p); simplify_eq/=.
    repeat case_match; simplify_eq; quiet_effect.
  - destruct (heap s !! p); simplify_eq/=.
    repeat case_match; simplify_eq; quiet_effect.
  - simplify_eq. quiet_effect.
  - done.
  - done.
Qed.

Lemma owned_by_step ts i t t' new :
  ts !! i = Some t → owned_by new = [] →
  owned_by ts ≡ₚ owned t ++ owned_by (delete i ts) ∧
  owned_by (<[i := t']> ts ++ new) ≡ₚ owned t' ++ owned_by (delete i ts).
Proof.
  intros Hi Hn. unfold owned_by in *. split.
  - by rewrite (delete_Permutation ts i t Hi) at 1.
  - rewrite bind_app, Hn, app_nil_r.
    by rewrite (GoLibFacts.insert_delete_Permutation ts i t t' Hi).
Qed.

Lemma ptrs_of_NoDup (m : gmap string nat) :
  (∀ k1 k2 p, m !! k1 = Some p → m !! k2 = Some p → k1 = k2) →
  NoDup (ptrs_of m).
Proof.
  intros Hinj. unfold ptrs_of. apply NoDup_fmap_2_strong; [|apply NoDup_map_to_list].
  intros [k1 p1] [k2 p2] H1 H2 Heq. simpl in Heq. subst p2.
  apply elem_of_map_to_list in H1, H2. by rewrite (Hinj k1 k2 p1).
Qed.

(** The registry never holds one stream twice. *)
Lemma sound_injective w k1 k2 p :
  sound w → streams (st w) !! k1 = Some p → streams (st w) !! k2 = Some p → k1 = k2.
Proof.
  intros Hw H1 H2. apply (sound_registered w Hw) in H1, H2. congruence.
Qed.

Lemma effect_sound w i t t' s' new :
  sound w → threads w !! i = Some t → calm new → effect (st w) s' t t' →
  sound (mkWorld s' (<[i := t']> (threads w) ++ new)).
Proof.
  intros Hw Hi [Hn Hnp] He.
  destruct (owned_by_step (threads w) i t t' new Hi Hn) as [Hold Hnew].
  pose proof (sound_registered w Hw) as HR.
  pose proof (sound_owned_once w Hw) as HN. rewrite Hold in HN.
  assert (HO : ∀ p, p ∈ owned t ++ owned_by (delete i (threads w)) →
             (∃ streamID, tags (st w) !! p = Some (streamID, 0)) ∧
             ∀ streamID, streams (st w) !! streamID ≠ Some p).
  { intros p Hp. apply (sound_owned w Hw). by rewrite Hold. }
  pose proof (sound_closed_once w Hw) as HC.
  assert (HP : t' ≠ Panicked → Panicked ∉ <[i := t']> (threads w) ++ new).
  { intros Ht' Hin. apply elem_of_app in Hin as [Hin|Hin].
    - apply list_elem_of_lookup in Hin as [j Hj].
      apply list_lookup_insert_Some in Hj as [(_ & ? & _)|[_ Hj]]; [done|].
      apply (sound_no_panic w Hw). apply list_elem_of_lookup. eauto.
    - rewrite Forall_forall in Hnp. by apply (Hnp _ Hin). }
  set (O := owned_by (delete i (threads w))) in *.
  destruct He as [Ha Hb Hc Hd|streamID p Ha Hb Hc Hd Hf Hg|streamID Ha Hb Hc Hd
                 |Ha Hb Hc Hd Hf|p rest streamID d Ha Hb Hc Hd Hr Hf
                 |streamID Ha Hb Hc Hd Hf];
    (split; simpl; [| | | |try by auto]).
  - (* quiet *) rewrite Ha, Hb. exact HR.
  - rewrite Hnew, Hc. exact HN.
  - intros p. rewrite Hnew, Hc, Ha, Hb. apply HO.
  - rewrite Hb. exact HC.
  - (* removes *)
    rewrite Hb, Hc. intros k q Hq.
    apply lookup_delete_Some in Hq as [_ Hq]. by apply HR.
  - rewrite Hnew, Hf. rewrite Hd in HN. simpl in *.
    apply NoDup_cons. split; [|done]. intros Hin.
    destruct (HO p) as [_ Hun]; [by rewrite Hd|]. by apply (Hun streamID).
  - intros q. rewrite Hnew, Hf, Hb, Hc. simpl. intros Hq.
    apply elem_of_cons in Hq as [->|Hq].
    + split; [by eauto|]. intros k Hk.
      apply lookup_delete_Some in Hk as [Hne Hk].
      apply Hne. by apply (sound_injective w _ _ p).
    + destruct (HO q) as [Ht Hun]; [by rewrite Hd|]. split; [done|].
      intros k Hk. apply lookup_delete_Some in Hk as [_ Hk]. by apply (Hun k).
  - rewrite Hc. exact HC.
  - (* forgets *)
    rewrite Ha, Hb. intros k q Hq.
    apply lookup_delete_Some in Hq as [_ Hq]. by apply HR.
  - rewrite Hnew, Hc. exact HN.
  - intros q. rewrite Hnew, Hc, Ha, Hb. intros Hq.
    destruct (HO q Hq) as [Ht Hun]. split; [done|].
    intros k Hk. apply lookup_delete_Some in Hk as [_ Hk]. by apply (Hun k).
  - rewrite Hb. exact HC.
  - (* clears *)
    rewrite Ha. intros k q Hq. by rewrite lookup_empty in Hq.
  - rewrite Hnew, Hd. rewrite Hc in HN. simpl in HN.
    apply NoDup_app. split_and!; [| |done].
    + apply ptrs_of_NoDup. intros k1 k2 q. by apply sound_injective.
    + intros q Hq Hin. apply elem_of_ptrs_of in Hq as [k Hk].
      destruct (HO q) as [_ Hun]; [by rewrite Hc|]. by apply (Hun k).
  - intros q. rewrite Hnew, Hd, Ha, Hb. intros Hq.
    split; [|intros k; by rewrite lookup_empty].
    apply elem_of_app in Hq as [Hq|Hq].
    + apply elem_of_ptrs_of in Hq as [k Hk]. by eauto.
    + destruct (HO q) as [Ht _]; [by rewrite Hc|]. done.
  - rewrite Hb. exact HC.
  - (* closes *)
    rewrite Hd, Hc. intros k q Hq.
    destruct (HO p) as [_ Hun]; [rewrite Ha; by left|].
    rewrite list_lookup_insert_ne; [by apply HR|].
    intros ->. by apply (Hun k).
  - destruct (HO p) as [[k Hk] _]; [rewrite Ha; by left|].
    assert (d = 0) as -> by congruence.
    rewrite decide_True in Hr by done. rewrite Hnew, Hr.
    rewrite Ha in HN. simpl in HN. by apply NoDup_cons in HN as [_ HN].
  - destruct (HO p) as [[k Hk] _]; [rewrite Ha; by left|].
    assert (d = 0) as -> by congruence.
    rewrite decide_True in Hr by done.
    intros q. rewrite Hnew, Hr, Hd, Hc. intros Hq.
    rewrite Ha in HN. simpl in HN. apply NoDup_cons in HN as [Hp HN'].
    destruct (HO q) as [Ht Hun]; [rewrite Ha; by right|].
    split; [|done].
    rewrite list_lookup_insert_ne; [done|]. intros ->. done.
  - rewrite Hc. intros q k d' Hq.
    apply list_lookup_insert_Some in Hq as [(<- & Heq & _)|[_ Hq]].
    + specialize (HC _ _ _ Hb). simplify_eq.
      destruct (HO p) as [[k' Hk] _]; [rewrite Ha; by left|].
      assert (d = 0) as -> by congruence. lia.
    + by eapply HC.
  - destruct (HO p) as [[k Hk] _]; [rewrite Ha; by left|].
    assert (d = 0) as -> by congruence.
    apply HP. by apply Hf.
  - (* allocates *)
    rewrite Ha. intros k q Hq. destruct Hd as [Hd|Hd]; rewrite Hd in Hq.
    + apply lookup_app_l_Some. by apply HR.
    + apply lookup_insert_Some in Hq as [[<- <-]|[_ Hq]].
      * rewrite lookup_app_r by lia. by rewrite Nat.sub_diag.
      * apply lookup_app_l_Some. by apply HR.
  - rewrite Hnew, Hc. by rewrite Hb in HN.
  - intros q. rewrite Hnew, Hc, Ha. intros Hq.
    destruct (HO q) as [[k Hk] Hun]; [by rewrite Hb|].
    split; [exists k; by apply lookup_app_l_Some|].
    intros k' Hk'. destruct Hd as [Hd|Hd]; rewrite Hd in Hk'.
    + by apply (Hun k').
    + apply lookup_insert_Some in Hk' as [[_ <-]|[_ Hk']]; [|by apply (Hun k')].
      apply lookup_lt_Some in Hk. lia.
  - rewrite Ha. intros q k d' Hq.
    apply lookup_app_Some in Hq as [Hq|[_ Hq]]; [by eapply HC|].
    destruct (q - length (tags (st w))) as [|n]; simplify_eq/=. lia.
Qed.

Lemma step_sound l w w' : step l w = Some w' → sound w → sound w'.
Proof.
  intros H Hw. destruct l as [i e|t|q ps|path data]; simpl in H.
  - destruct (threads w !! i) as [t|] eqn:Ei; [|done]. simpl in H.
    destruct (thread_step e t (st w)) as [[[t' s'] new]|] eqn:E; [|done].
    simpl in H. simplify_eq.
    apply thread_step_effect in E as [Hc He]. by eapply effect_sound.
  - destruct (is_call t) eqn:Ec; [|done]. simplify_eq.
    assert (Ho : owned t = []) by (by destruct t).
    destruct Hw as [HR HN HO HC HP]. split; simpl; try done.
    + unfold owned_by in *. by rewrite bind_app, bind_cons, Ho, !app_nil_r.
    + intros p. unfold owned_by in *. rewrite bind_app, bind_cons, Ho, !app_nil_r.
      apply HO.
    + intros Hin. apply elem_of_app in Hin as [Hin|Hin]; [done|].
      apply list_elem_of_singleton in Hin. by subst t.
  - simplify_eq. destruct Hw as [HR HN HO HC HP]. split; simpl; try done;
      rewrite tags_set_stream by apply keeps_tag_child_ends; done.
  - simplify_eq. by destruct Hw as [HR HN HO HC HP].
Qed.

Lemma run_sound ls w w' : run ls w = Some w' → sound w → sound w'.
Proof.
  revert w. induction ls as [|l ls IH]; intros w H Hw; simpl in H; [by simplify_eq|].
  destruct (step l w) as [w1|] eqn:E; [|done]. simpl in H.
  eapply IH; [done|]. by eapply step_sound.
Qed.

Lemma sound_init files : sound (mkWorld (NewLogStreamer files) []).
Proof.
  split; simpl; try done.
  - apply NoDup_nil_2.
  - intros p Hp. by apply not_elem_of_nil in Hp.
  - apply not_elem_of_nil.
Qed.

(** An orphan stays one: its channel is never closed. *)
Lemma effect_orphan p w i t t' s' new :
  orphan p w → threads w !! i = Some t → calm new → effect (st w) s' t t' →
  orphan p (mkWorld s' (<[i := t']> (threads w) ++ new)).
Proof.
  intros (Hun & Hno & k & Hk) Hi [Hn Hnp] He.
  destruct (owned_by_step (threads w) i t t' new Hi Hn) as [Hold Hnew].
  rewrite Hold in Hno. apply not_elem_of_app in Hno as [Hno1 Hno2].
  unfold orphan. simpl. rewrite Hnew.
  destruct He as [Ha Hb Hc Hd|streamID q Ha Hb Hc Hd Hf Hg|streamID Ha Hb Hc Hd
                 |Ha Hb Hc Hd Hf|q rest streamID d Ha Hb Hc Hd Hr Hf
                 |streamID Ha Hb Hc Hd Hf].
  - rewrite Ha, Hb, Hc. split; [done|]. split; [|by eauto].
    by apply not_elem_of_app.
  - rewrite Hb, Hc, Hf. split; [|split; [|by eauto]].
    + intros k' Hk'. apply lookup_delete_Some in Hk' as [_ Hk']. by apply (Hun k').
    + apply not_elem_of_app. split; [|done].
      apply not_elem_of_cons. split; [|apply not_elem_of_nil].
      intros ->. by apply (Hun streamID).
  - rewrite Ha, Hb, Hc. split; [|split; [|by eauto]].
    + intros k' Hk'. apply lookup_delete_Some in Hk' as [_ Hk']. by apply (Hun k').
    + by apply not_elem_of_app.
  - rewrite Ha, Hb, Hd. split; [|split; [|by eauto]].
    + intros k'. by rewrite lookup_empty.
    + apply not_elem_of_app. split; [|done].
      intros Hin. apply elem_of_ptrs_of in Hin as [k' Hk']. by apply (Hun k').
  - rewrite Hc, Hd, Hr. rewrite Ha in Hno1.
    apply not_elem_of_cons in Hno1 as [Hne Hno1]. split; [done|]. split.
    + apply not_elem_of_app. split; [|done].
      case_decide; [done|apply not_elem_of_nil].
    + exists k. by rewrite list_lookup_insert_ne.
  - rewrite Ha, Hc. split; [|split; [|exists k; by apply lookup_app_l_Some]].
    + intros k' Hk'. destruct Hd as [Hd|Hd]; rewrite Hd in Hk'; [by apply (Hun k')|].
      apply lookup_insert_Some in Hk' as [[_ <-]|[_ Hk']]; [|by apply (Hun k')].
      apply lookup_lt_Some in Hk. lia.
    + done.
Qed.

Lemma step_orphan p l w w' : step l w = Some w' → orphan p w → orphan p w'.
Proof.
  intros H Hw. destruct l as [i e|t|q ps|path data]; simpl in H.
  - destruct (threads w !! i) as [t|] eqn:Ei; [|done]. simpl in H.
    destruct (thread_step e t (st w)) as [[[t' s'] new]|] eqn:E; [|done].
    simpl in H. simplify_eq.
    apply thread_step_effect in E as [Hc He]. by eapply effect_orphan.
  - destruct (is_call t) eqn:Ec; [|done]. simplify_eq.
    assert (Ho : owned t = []) by (by destruct t).
    destruct Hw as (Hun & Hno & Hk). split; [done|]. split; [|done]. simpl.
    unfold owned_by in *. by rewrite bind_app, bind_cons, Ho, !app_nil_r.
  - simplify_eq. destruct Hw as (Hun & Hno & Hk). split; [done|]. split; [done|].
    simpl. by rewrite tags_set_stream by apply keeps_tag_child_ends.
  - simplify_eq. by destruct Hw as (Hun & Hno & Hk).
Qed.

Lemma run_orphan p ls w w' : run ls w = Some w' → orphan p w → orphan p w'.
Proof.
  revert w. induction ls as [|l ls IH]; intros w H Hw; simpl in H; [by simplify_eq|].
  destruct (step l w) as [w1|] eqn:E; [|done]. simpl in H.
  eapply IH; [done|]. by eapply step_orphan.
Qed.

(** Only a thread that owns a stream changes the count of its channel,
    and by one. *)
Lemma effect_closes s s' t t' p streamID d streamID' d' :
  effect s s' t t' →
  tags s !! p = Some (streamID, d) → tags s' !! p = Some (streamID', d') →
  d' ≠ d → p ∈ owned t ∧ d' = S d.
Proof.
  intros He Hp Hp' Hne.
  destruct He as [Ha Hb Hc Hd|k q Ha Hb Hc Hd Hf Hg|k Ha Hb Hc Hd
                 |Ha Hb Hc Hd Hf|q rest k dq Ha Hb Hc Hd Hr Hf
                 |k Ha Hb Hc Hd Hf]; try congruence.
  - rewrite Hc in Hp'. destruct (decide (q = p)) as [->|Hqp].
    + rewrite list_lookup_insert_eq in Hp' by (by eapply lookup_lt_Some).
      rewrite Ha. split; [by left|]. congruence.
    + rewrite list_lookup_insert_ne in Hp' by done. congruence.
  - rewrite Ha in Hp'. rewrite (lookup_app_l_Some _ _ _ _ Hp) in Hp'. congruence.
Qed.

(** The step that closes the channel of stream [p] is the
    [close(stream.done)] of a [Stop] or [StopAll] that has removed [p]. *)
Lemma logs_closer e t s t' s' new p x x' :
  thread_step e t s = Some (t', s', new) →
  heap s !! p = Some x → heap s' !! p = Some x' → done x' ≠ done x →
  ∃ rest, t = Stop_close p rest.
Proof.
  intros Hstep Hx Hx' Hne.
  pose proof Hstep as [_ He]%thread_step_effect.
  pose proof (tags_lookup _ _ _ Hx) as Ht.
  pose proof (tags_lookup _ _ _ Hx') as Ht'.
  destruct He as [Ha Hb Hc Hd|k q Ha Hb Hc Hd Hf Hg|k Ha Hb Hc Hd
                 |Ha Hb Hc Hd Hf|q rest k dq Ha Hb Hc Hd Hr Hf
                 |k Ha Hb Hc Hd Hf]; try congruence.
  - assert (q = p) as ->.
    { destruct (decide (q = p)) as [|Hqp]; [done|].
      rewrite Hc, list_lookup_insert_ne in Ht' by done. congruence. }
    assert (Hl : tags s' !! p = Some (k, S dq)).
    { rewrite Hc. apply list_lookup_insert_eq. by eapply lookup_lt_Some. }
    destruct t; simpl in Ha; try discriminate Ha;
      [|injection Ha as -> ->; by eexists|..];
      injection Hstep as <- <- <-;
      rewrite tags_set_stream in Hl by auto with tags;
      rewrite Hb in Hl; injection Hl; lia.
  - rewrite Ha in Ht'. rewrite (lookup_app_l_Some _ _ _ _ Ht) in Ht'. congruence.
Qed.

End LogsFacts.

(* ===================================================================== *)
(** ** More facts about the exec manager

    What a step does to the callbacks made, the invariant that the
    callbacks made and still to come are among the sessions allocated, and
    the invariant that the registry names its sessions. *)
(* ===================================================================== *)

Module ExecMore.
Import GoLib Exec ExecFacts.

Lemma ids_tags s : id <$> heap s = (tags s).*1.
Proof. unfold tags. by rewrite <- list_fmap_compose. Qed.

Lemma exec_step_ids e t s t' s' new :
  thread_step e t s = Some (t', s', new) →
  ∃ ks, id <$> heap s' = (id <$> heap s) ++ ks.
Proof.
  intros H. apply exec_step_effect in H as [_ H]. rewrite !ids_tags.
  destruct H as [? Ht|? ? ? ? Ht|p k d ? Hp Ht|k Ht|? ? ? ? Ht];
    try (exists []; rewrite Ht, ?app_nil_r; done).
  - exists []. rewrite Ht, app_nil_r, list_fmap_insert. simpl.
    apply list_insert_id. by rewrite list_lookup_fmap, Hp.
  - exists [k]. by rewrite Ht, fmap_app.
Qed.

Lemma exec_step_mgr e t s t' s' new :
  thread_step e t s = Some (t', s', new) →
  onOutput (mgr s') = onOutput (mgr s) ∧ onExit (mgr s') = onExit (mgr s) ∧
  onError (mgr s') = onError (mgr s).
Proof.
  intros H. destruct t; simpl in H;
    repeat (simplify_option_eq || case_match); done.
Qed.


Lemma id_elem_of p x s : heap s !! p = Some x → id x ∈ id <$> heap s.
Proof.
  intros H. apply list_elem_of_fmap. exists x. split; [done|].
  by eapply list_elem_of_lookup_2.
Qed.

Lemma exec_step_events e t s t' s' new :
  thread_step e t s = Some (t', s', new) →
  events s' = events s ∨ ∃ ev, events s' = events s ++ [ev] ∧ well_formed s ev.
Proof.
  intros H. destruct t; simpl in H;
    try (repeat (simplify_option_eq || case_match); by left).
  - destruct r as [data [err|]]; destruct (heap s !! p) as [x|] eqn:Hx; simplify_eq/=.
    + destruct (onError (mgr s)) eqn:Hcb; [|by left].
      right. eexists. split; [done|]. split; [done|]. by eapply id_elem_of.
    + destruct (0 <? String.length data) eqn:Hn; simpl; [|by left].
      destruct (onOutput (mgr s)) eqn:Hcb; [|by left].
      right. eexists. split; [done|]. split; [done|]. split; [done|].
      split; [|by eapply id_elem_of].
      intros ->. simpl in Hn. discriminate.
  - destruct (heap s !! p) as [x|] eqn:Hx; simplify_eq/=.
    destruct (onExit (mgr s)) eqn:Hcb; [|by left].
    right. eexists. split; [done|]. split; [done|]. by eapply id_elem_of.
Qed.

Lemma well_formed_step e t s t' s' new ev :
  thread_step e t s = Some (t', s', new) → well_formed s ev → well_formed s' ev.
Proof.
  intros H. destruct (exec_step_mgr _ _ _ _ _ _ H) as (Ho & Hx & He).
  destruct (exec_step_ids _ _ _ _ _ _ H) as [ks Hk].
  destruct ev; simpl; rewrite ?Ho, ?Hx, ?He, Hk; intros; destruct_and?;
    split_and?; try done; apply elem_of_app; by left.
Qed.

Lemma well_formed_set_session p f s ev :
  keeps_tag f → well_formed s ev → well_formed (set_session p f s) ev.
Proof.
  intros Hf. assert (id <$> heap (set_session p f s) = id <$> heap s) as Hi.
  { by rewrite !ids_tags, tags_set_session. }
  destruct ev; unfold well_formed; rewrite Hi; done.
Qed.

Lemma exec_step_well_formed l w w' :
  step l w = Some w' →
  Forall (well_formed (st w)) (events (st w)) →
  Forall (well_formed (st w')) (events (st w')).
Proof.
  intros H Hw. destruct l as [i e|t|p ps]; simpl in H.
  - destruct (threads w !! i) as [t|] eqn:Ht; [|done]. simpl in H.
    destruct (thread_step e t (st w)) as [[[t' s'] new]|] eqn:Hs; [|done].
    simplify_eq/=.
    assert (Forall (well_formed s') (events (st w))) as Hw'.
    { eapply Forall_impl; [done|]. intros ev. by eapply well_formed_step. }
    destruct (exec_step_events _ _ _ _ _ _ Hs) as [->|(ev & -> & Hev)]; [done|].
    apply Forall_app. split; [done|]. apply Forall_singleton.
    by eapply well_formed_step.
  - destruct (is_call t); by simplify_eq/=.
  - repeat (simplify_option_eq || case_match).
    eapply Forall_impl; [done|]. intros ev.
    apply well_formed_set_session, keeps_tag_session_ends.
Qed.

Lemma exec_run_well_formed ls w w' :
  run ls w = Some w' →
  Forall (well_formed (st w)) (events (st w)) →
  Forall (well_formed (st w')) (events (st w')).
Proof.
  revert w. induction ls as [|l ls IH]; intros w H Hw; simpl in H.
  - by simplify_eq.
  - destruct (step l w) as [w1|] eqn:Hs; [|done]. simpl in H.
    eapply IH; [done|]. by eapply exec_step_well_formed.
Qed.

Lemma reports_snoc c evs ev : reports c (evs ++ [ev]) = reports c evs ++ reports c [ev].
Proof. unfold reports. by rewrite bind_app. Qed.

Lemma ids_at_heap s s' ps : heap s' = heap s → ids_at s' ps = ids_at s ps.
Proof. unfold ids_at. by intros ->. Qed.

Lemma ids_at_here p x s : heap s !! p = Some x → ids_at s [p] = [id x].
Proof. unfold ids_at. simpl. by intros ->. Qed.

Lemma ids_alter f p (l : list ExecSession) :
  (∀ x, id (f x) = id x) → id <$> alter f p l = id <$> l.
Proof.
  intros Hf. apply list_eq. intros j. rewrite !list_lookup_fmap.
  destruct (decide (j = p)) as [->|].
  - rewrite list_lookup_alter_eq. destruct (l !! p); simpl; by rewrite ?Hf.
  - by rewrite list_lookup_alter_ne.
Qed.

Lemma id_close_done x : id (close_done x) = id x.
Proof. done. Qed.
Lemma id_kill x : id (kill x) = id x.
Proof. unfold kill. by repeat case_match. Qed.
Lemma id_close_pty x : id (close_pty x) = id x.
Proof. unfold close_pty. by repeat case_match. Qed.
Lemma id_child_ends ps x : id (child_ends ps x) = id x.
Proof. unfold child_ends. by repeat case_match. Qed.

Lemma pending_after_Stop c rest : pending c (after_Stop rest) = [].
Proof. by destruct rest. Qed.

Local Ltac nothing :=
  exists [], []; rewrite ?app_nil_r; simpl;
  rewrite ?pending_after_Stop, ?ids_alter
    by auto using id_close_done, id_kill, id_close_pty;
  split_and?; done.

Lemma exec_step_pending c e t s t' s' new :
  thread_step e t s = Some (t', s', new) →
  Forall (λ p, p < length (heap s)) (pending c t) →
  ∃ ks r, id <$> heap s' = (id <$> heap s) ++ ks ∧
          reports c (events s') = reports c (events s) ++ r ∧
          r ++ ids_at s' (pending c t' ++ pending_by c new)
            ⊆+ ids_at s (pending c t) ++ ks ∧
          Forall (λ p, p < length (heap s')) (pending c t' ++ pending_by c new).
Proof.
  intros H Hp. destruct t; simpl in H.
  - exists [], []. repeat case_match; simplify_eq/=; by rewrite !app_nil_r.
  - destruct (pty_Start e); simplify_eq/=.
    + exists [], []. by rewrite !app_nil_r.
    + exists [sessionID], []. rewrite fmap_app, app_nil_r. simpl.
      split; [done|]. split; [done|]. split.
      * unfold ids_at. simpl. by rewrite lookup_app_r, Nat.sub_diag by done.
      * apply Forall_singleton. rewrite length_app. simpl. lia.
  - simplify_eq/=. exists [], []. rewrite !app_nil_r. simpl.
    split; [done|]. split; [done|]. split; [done|]. done.
  - simplify_eq/=. exists [], []. rewrite !app_nil_r. simpl.
    split; [done|]. split; [done|]. destruct c; simpl; done.
  - repeat case_match; simplify_eq/=; nothing.
  - repeat (simplify_option_eq || case_match); nothing.
  - repeat case_match; simplify_eq/=; nothing.
  - destruct (heap s !! p) as [x|] eqn:Hx; simplify_eq/=. case_decide; nothing.
  - simplify_eq/=. nothing.
  - simplify_eq/=. nothing.
  - simplify_eq/=. nothing.
  - destruct (heap s !! p) as [x|] eqn:Hx; simplify_eq/=.
    exists [], []. rewrite !app_nil_r. split; [done|]. split; [done|].
    case_decide; destruct c; simpl; split; try done; apply submseteq_nil_l.
  - destruct (heap s !! p) as [x|] eqn:Hx; simplify_eq/=.
    repeat case_match; simplify_eq/=; nothing.
  - destruct r as [data [err|]]; destruct (heap s !! p) as [x|] eqn:Hx; simplify_eq/=.
    + destruct (onError (mgr s)); destruct c; simpl;
        try (exists [], []; rewrite ?app_nil_r; simpl;
             rewrite ?reports_snoc, ?app_nil_r; simpl; rewrite ?app_nil_r;
             split_and?; first [done | apply submseteq_nil_l]).
      exists [], [id x]. rewrite ?app_nil_r; simpl.
      rewrite ?reports_snoc; simpl. split_and?; try done.
      unfold ids_at. simpl. by rewrite Hx.
    + destruct ((0 <? String.length data) && onOutput (mgr s)); destruct c; simpl;
        exists [], []; rewrite ?app_nil_r; simpl;
        rewrite ?reports_snoc, ?app_nil_r; simpl; rewrite ?app_nil_r;
        split_and?; done.
  - destruct (heap s !! p) as [x|] eqn:Hx; simplify_eq/=.
    repeat case_match; simplify_eq/=; nothing.
  - destruct (heap s !! p) as [x|] eqn:Hx; simplify_eq/=.
    destruct (onExit (mgr s)); destruct c; simpl;
      try (exists [], []; rewrite ?app_nil_r; simpl;
           rewrite ?reports_snoc, ?app_nil_r; simpl; rewrite ?app_nil_r;
           split_and?; first [done | apply submseteq_nil_l]).
    exists [], [id x]. rewrite ?app_nil_r; simpl.
    rewrite ?reports_snoc; simpl. split_and?; try done.
    unfold ids_at. simpl. by rewrite Hx.
  - done.
  - done.
Qed.

Lemma pending_by_step c ts i t t' new :
  ts !! i = Some t →
  pending_by c ts ≡ₚ pending c t ++ pending_by c (delete i ts) ∧
  pending_by c (<[i := t']> ts ++ new)
    ≡ₚ (pending c t' ++ pending_by c new) ++ pending_by c (delete i ts).
Proof.
  intros Hi. unfold pending_by. split.
  - by rewrite (delete_Permutation ts i t Hi) at 1.
  - rewrite bind_app, (GoLibFacts.insert_delete_Permutation ts i t t' Hi), bind_cons.
    rewrite <- !(assoc_L (++)). apply Permutation_app_head, Permutation_app_comm.
Qed.

Lemma ids_at_app s ps qs : ids_at s (ps ++ qs) = ids_at s ps ++ ids_at s qs.
Proof. apply omap_app. Qed.

Lemma ids_at_grows s s' ks ps :
  id <$> heap s' = (id <$> heap s) ++ ks →
  Forall (λ p, p < length (heap s)) ps → ids_at s' ps = ids_at s ps.
Proof.
  intros Hk Hp. induction Hp as [|p ps Hp _ IH]; [done|].
  change (p :: ps) with ([p] ++ ps). rewrite !ids_at_app, IH. f_equal.
  unfold ids_at. simpl. rewrite <- !list_lookup_fmap, Hk, lookup_app_l; [done|].
  by rewrite length_fmap.
Qed.

#[local] Instance ids_at_Permutation s : Proper ((≡ₚ) ==> (≡ₚ)) (ids_at s).
Proof. intros ps qs Hp. unfold ids_at. by rewrite Hp. Qed.

Lemma exec_step_accounted c l w w' : step l w = Some w' → accounted c w → accounted c w'.
Proof.
  intros H [Hs Hb]. destruct l as [i e|t|q ps]; simpl in H.
  - destruct (threads w !! i) as [t|] eqn:Ei; [|done]. simpl in H.
    destruct (thread_step e t (st w)) as [[[t' s'] new]|] eqn:E; [|done].
    simpl in H. simplify_eq.
    destruct (pending_by_step c (threads w) i t t' new Ei) as [Hold Hnew].
    rewrite Hold in Hs, Hb. apply Forall_app in Hb as [Hbt Hbr].
    destruct (exec_step_pending c _ _ _ _ _ _ E Hbt) as (ks & r & Hk & Hr & Hsub & Hb').
    assert (length (heap (st w)) ≤ length (heap s')) as Hlen.
    { apply (f_equal length) in Hk. rewrite length_app, !length_fmap in Hk. lia. }
    unfold accounted. simpl. rewrite Hnew. split.
    + rewrite Hr, Hk, ids_at_app, (ids_at_grows _ _ _ _ Hk Hbr).
      rewrite ids_at_app in Hs.
      transitivity ((reports c (events (st w)) ++ ids_at (st w) (pending c t)
                     ++ ids_at (st w) (pending_by c (delete i (threads w)))) ++ ks).
      * rewrite <- !(assoc_L (++)). apply submseteq_skips_l.
        rewrite !(assoc_L (++)).
        rewrite <- (assoc_L (++) (ids_at (st w) (pending c t))).
        rewrite (Permutation_app_comm (ids_at (st w) (pending_by c (delete i (threads w)))) ks).
        rewrite !(assoc_L (++)). apply submseteq_skips_r. done.
      * by apply submseteq_skips_r.
    + apply Forall_app. split; [done|].
      eapply Forall_impl; [done|]. simpl. intros; lia.
  - destruct (is_call t) eqn:Ec; [|done]. simplify_eq.
    assert (Ho : pending c t = []) by (by destruct t).
    unfold accounted, pending_by in *. simpl.
    by rewrite bind_app, bind_cons, Ho, !app_nil_r.
  - destruct (heap (st w) !! q) as [x|]; [|done]. simpl in H.
    repeat case_match; simplify_eq.
    unfold accounted in *. simpl.
    assert (id <$> alter (child_ends ps) q (heap (st w)) = id <$> heap (st w)) as Hi
      by apply ids_alter, id_child_ends.
    split.
    + rewrite Hi. rewrite (ids_at_grows (st w) _ []); [done| |done].
      simpl. by rewrite app_nil_r.
    + by rewrite length_alter.
Qed.

Lemma exec_run_accounted c ls w w' : run ls w = Some w' → accounted c w → accounted c w'.
Proof.
  revert w. induction ls as [|l ls IH]; intros w H Hw; simpl in H; [by simplify_eq|].
  destruct (step l w) as [w1|] eqn:E; [|done]. simpl in H.
  eapply IH; [done|]. by eapply exec_step_accounted.
Qed.

Lemma accounted_init c out ex er : accounted c (mkWorld (NewExecManager out ex er) []).
Proof. by split. Qed.

Lemma exec_step_registry e t s t' s' new :
  thread_step e t s = Some (t', s', new) →
  (∀ k p, sessions (mgr s') !! k = Some p →
          sessions (mgr s) !! k = Some p ∨ t = Start_store k p) ∧
  (∀ k p, t' = Start_store k p → id <$> heap s' !! p = Some k) ∧
  (∀ k p, Start_store k p ∉ new).
Proof.
  intros H. destruct t; simpl in H;
    try (repeat (simplify_option_eq || case_match || case_decide);
         split_and?; first [by left | by destruct rest | by intros ?? ?%not_elem_of_nil
                           | intros ??; apply not_elem_of_nil | by auto]).
  - destruct (pty_Start e); simplify_eq/=.
    + split_and?; [by left|done|intros ??; apply not_elem_of_nil].
    + split_and?; [by left| |intros ??; apply not_elem_of_nil].
      intros k p [= <- <-]. by rewrite lookup_app_r, Nat.sub_diag by done.
  - simplify_eq/=. split_and?; [|done|intros ??; apply not_elem_of_nil].
    intros k q Hk. destruct (decide (sessionID = k)) as [->|Hne].
    + rewrite lookup_insert_eq in Hk. right. congruence.
    + rewrite lookup_insert_ne in Hk by done. by left.
  - simplify_eq/=. split_and?; [by left|done|].
    intros k q Hin. repeat (apply elem_of_cons in Hin as [?|Hin]; [done|]).
    by apply not_elem_of_nil in Hin.
  - destruct (sessions (mgr s) !! sessionID) as [q|] eqn:Hq; simplify_eq/=.
    + split_and?; [|done|intros ??; apply not_elem_of_nil].
      intros k p Hk. apply lookup_delete_Some in Hk as [_ Hk]. by left.
    + split_and?; [by left|by destruct rest|intros ??; apply not_elem_of_nil].
  - simplify_eq/=.
    split_and?; [by left| |intros ??; apply not_elem_of_nil].
    by destruct (ids_of _).
Qed.

Lemma ids_stable e t s t' s' new p k :
  thread_step e t s = Some (t', s', new) →
  id <$> heap s !! p = Some k → id <$> heap s' !! p = Some k.
Proof.
  intros H Hp. destruct (exec_step_ids _ _ _ _ _ _ H) as [ks Hk].
  rewrite <- list_lookup_fmap in *. rewrite Hk. by apply lookup_app_l_Some.
Qed.

Lemma exec_step_named l w w' : step l w = Some w' → named w → named w'.
Proof.
  intros H [Hr Ht]. destruct l as [i e|t|q ps]; simpl in H.
  - destruct (threads w !! i) as [t|] eqn:Ei; [|done]. simpl in H.
    destruct (thread_step e t (st w)) as [[[t' s'] new]|] eqn:E; [|done].
    simpl in H. simplify_eq.
    destruct (exec_step_registry _ _ _ _ _ _ E) as (H1 & H2 & H3).
    split; simpl.
    + intros k p Hk. eapply ids_stable; [done|].
      destruct (H1 k p Hk) as [?| ->]; [by apply Hr|].
      apply Ht. by eapply list_elem_of_lookup_2.
    + intros k p Hin. apply elem_of_app in Hin as [Hin|Hin]; [|by apply H3 in Hin].
      apply list_elem_of_lookup in Hin as [j Hj].
      apply list_lookup_insert_Some in Hj as [(-> & -> & _)|[_ Hj]]; [by apply H2|].
      eapply ids_stable; [done|]. apply Ht. by eapply list_elem_of_lookup_2.
  - destruct (is_call t) eqn:Ec; [|done]. simplify_eq. split; simpl; [done|].
    intros k p Hin. apply elem_of_app in Hin as [Hin|Hin]; [by apply Ht|].
    apply list_elem_of_singleton in Hin. by subst t.
  - destruct (heap (st w) !! q) as [x|]; [|done]. simpl in H.
    repeat case_match; simplify_eq.
    split; simpl; intros k p Hk; rewrite <- list_lookup_fmap;
      rewrite ids_alter by apply id_child_ends; rewrite list_lookup_fmap; auto.
Qed.

Lemma exec_run_named ls w w' : run ls w = Some w' → named w → named w'.
Proof.
  revert w. induction ls as [|l ls IH]; intros w H Hw; simpl in H; [by simplify_eq|].
  destruct (step l w) as [w1|] eqn:E; [|done]. simpl in H.
  eapply IH; [done|]. by eapply exec_step_named.
Qed.

Lemma named_init out ex er : named (mkWorld (NewExecManager out ex er) []).
Proof. split; simpl; [done|]. intros k p Hin. by apply not_elem_of_nil in Hin. Qed.

Lemma exec_step_flags l w w' :
  step l w = Some w' →
  onOutput (mgr (st w')) = onOutput (mgr (st w)) ∧
  onExit (mgr (st w')) = onExit (mgr (st w)) ∧
  onError (mgr (st w')) = onError (mgr (st w)).
Proof.
  intros H. destruct l as [i e|t|q ps]; simpl in H.
  - destruct (threads w !! i) as [t|] eqn:Ei; [|done]. simpl in H.
    destruct (thread_step e t (st w)) as [[[t' s'] new]|] eqn:E; [|done].
    simpl in H. simplify_eq. by eapply exec_step_mgr.
  - destruct (is_call t); by simplify_eq.
  - repeat (simplify_option_eq || case_match). done.
Qed.

Lemma exec_run_flags ls w w' :
  run ls w = Some w' →
  onOutput (mgr (st w')) = onOutput (mgr (st w)) ∧
  onExit (mgr (st w')) = onExit (mgr (st w)) ∧
  onError (mgr (st w')) = onError (mgr (st w)).
Proof.
  revert w. induction ls as [|l ls IH]; intros w H; simpl in H; [by simplify_eq|].
  destruct (step l w) as [w1|] eqn:E; [|done]. simpl in H.
  destruct (IH _ H) as (-> & -> & ->). by eapply exec_step_flags.
Qed.

Lemma times_submseteq k (l1 l2 : list string) : l1 ⊆+ l2 → times k l1 ≤ times k l2.
Proof.
  intros [l3 Hl]%submseteq_Permutation. unfold times.
  rewrite Hl, filter_app, length_app. lia.
Qed.

Lemma elem_of_ids k s : k ∈ id <$> heap s → ∃ p x, heap s !! p = Some x ∧ id x = k.
Proof.
  intros (x & -> & Hx)%list_elem_of_fmap.
  apply list_elem_of_lookup in Hx as [p Hp]. eauto.
Qed.

Lemma halted_readLoop e p k s t n :
  halted p k s → readLoop_of p t = true →
  ∃ s' evs,
    run_alone (3 + n) e t s = (Returned None, s', []) ∧
    mgr s' = mgr s ∧ heap s' = heap s ∧ events s' = events s ++ evs ∧
    length evs ≤ 1 ∧
    Forall (λ ev, match ev with
                  | Output k' _ _ | Error k' _ => k' = k
                  | Exit _ _ => False
                  end) evs.
Proof.
  intros (x & Hx & Hk & Hd & _ & Hp) Ht.
  assert (Hsel : ∀ s0 m, heap s0 = heap s →
            run_alone (S m) e (readLoop_select p) s0 = (Returned None, s0, [])).
  { intros s0 m Hh. rewrite run_alone_S. cbn [thread_step]. rewrite Hh, Hx. simpl.
    rewrite decide_False by lia. by rewrite run_alone_Returned. }
  assert (Hdel : ∀ m r, ∃ s' evs,
            run_alone (2 + m) e (readLoop_deliver p r) s = (Returned None, s', []) ∧
            mgr s' = mgr s ∧ heap s' = heap s ∧ events s' = events s ++ evs ∧
            length evs ≤ 1 ∧
            Forall (λ ev, match ev with
                          | Output k' _ _ | Error k' _ => k' = k
                          | Exit _ _ => False
                          end) evs).
  { intros m [data [err|]]; change (2 + m) with (S (S m)); rewrite run_alone_S;
      cbn [thread_step]; rewrite Hx; cbn [mbind option_bind].
    - rewrite run_alone_Returned. rewrite Hk.
      destruct (onError (mgr s)).
      + exists (emit (Error k err) s), [Error k err].
        split_and?; try done. by apply Forall_singleton.
      + exists s, []. split_and?; try done; [by rewrite app_nil_r|simpl; lia].
    - rewrite Hk. destruct ((0 <? String.length data) && onOutput (mgr s)).
      + rewrite (Hsel (emit (Output k "stdout" data) s) m eq_refl).
        exists (emit (Output k "stdout" data) s), [Output k "stdout" data].
        split_and?; try done. by apply Forall_singleton.
      + rewrite (Hsel s m eq_refl).
        exists s, []. split_and?; try done; [by rewrite app_nil_r|simpl; lia]. }
  destruct t; simpl in Ht; try discriminate; apply Nat.eqb_eq in Ht; subst p0.
  - exists s, []. change (3 + n) with (S (2 + n)).
    rewrite (Hsel s (2 + n) eq_refl). split_and?; try done; [by rewrite app_nil_r|simpl; lia].
  - change (3 + n) with (S (2 + n)). rewrite run_alone_S. cbn [thread_step].
    rewrite Hx. cbn [mbind option_bind]. rewrite Hp.
    destruct (Hdel n ("", Some OsError)) as (s' & evs & -> & H).
    by exists s', evs.
  - destruct (Hdel (S n) r) as (s' & evs & H1 & H). by exists s', evs.
Qed.

Lemma exec_step_wired e t s t' s' new :
  thread_step e t s = Some (t', s', new) →
  (∀ p x', heap s' !! p = Some x' →
     (∃ x, heap s !! p = Some x ∧ done x ≤ done x' ∧
           (pty x' = pty x ∨
            (is_Some (pty x) ∧ pty x' = Some Closed ∧ p ∈ closing t)))
     ∨ (heap s !! p = None ∧ pty x' = Some Open)) ∧
  (∀ p, p ∈ closing t' →
        p ∈ closing t ∨ ∃ x', heap s' !! p = Some x' ∧ 1 ≤ done x') ∧
  (∀ t0 p, t0 ∈ new → p ∉ closing t0).
Proof.
  intros H.
  assert (Hsame : ∀ p x', heap s !! p = Some x' →
            (∃ x, heap s !! p = Some x ∧ done x ≤ done x' ∧
                  (pty x' = pty x ∨
                   (is_Some (pty x) ∧ pty x' = Some Closed ∧ p ∈ closing t)))
            ∨ (heap s !! p = None ∧ pty x' = Some Open)).
  { intros p x' Hx. left. exists x'. split_and?; [done|lia|by left]. }
  assert (Hnone : ∀ (t0 : thread) (p : nat), t0 ∈ @nil thread → p ∉ closing t0).
  { intros t0 p Hin. by apply not_elem_of_nil in Hin. }
  assert (Hnil : ∀ p, p ∈ @nil nat → p ∈ closing t ∨
                 ∃ x', heap s' !! p = Some x' ∧ 1 ≤ done x').
  { intros p Hin. by apply not_elem_of_nil in Hin. }
  assert (Halt : ∀ f q, (∀ x, done x ≤ done (f x) ∧ pty (f x) = pty x) →
            ∀ p x', alter f q (heap s) !! p = Some x' →
            (∃ x, heap s !! p = Some x ∧ done x ≤ done x' ∧
                  (pty x' = pty x ∨
                   (is_Some (pty x) ∧ pty x' = Some Closed ∧ p ∈ closing t)))
            ∨ (heap s !! p = None ∧ pty x' = Some Open)).
  { intros f q Hf p x' Hx'. left. destruct (decide (p = q)) as [->|Hne].
    - rewrite list_lookup_alter_eq in Hx'. destruct (heap s !! q) as [x|]; [|done].
      simpl in Hx'. simplify_eq. exists x. destruct (Hf x) as [? ?].
      split_and?; [done|done|by left].
    - rewrite list_lookup_alter_ne in Hx' by done. exists x'.
      split_and?; [done|lia|by left]. }
  assert (Hafter : ∀ rest p, p ∈ closing (after_Stop rest) →
            p ∈ closing t ∨ ∃ x', heap s' !! p = Some x' ∧ 1 ≤ done x').
  { intros rest p Hin. destruct rest; by apply not_elem_of_nil in Hin. }
  destruct t; simpl in H.
  - repeat case_match; simplify_eq; by split_and?.
  - destruct (pty_Start e); simplify_eq; [by split_and?|].
    split_and?; [|done|done].
    intros p x' Hx'. simpl in Hx'. apply lookup_app_Some in Hx' as [Hx'|[Hlen Hx']].
    + by apply Hsame.
    + right. split; [by apply lookup_ge_None|].
      apply list_lookup_singleton_Some in Hx' as [_ <-]. done.
  - simplify_eq. by split_and?.
  - simplify_eq. split_and?; [done|done|].
    intros t0 q Hin. repeat (apply elem_of_cons in Hin as [->|Hin]; [apply not_elem_of_nil|]).
    by apply not_elem_of_nil in Hin.
  - repeat case_match; simplify_eq; by split_and?.
  - repeat (simplify_option_eq || case_match); by split_and?.
  - repeat case_match; simplify_eq; split_and?; try done; by apply Hafter.
  - destruct (heap s !! p) as [x|] eqn:Hx; simplify_eq/=.
    split_and?; [|  |done].
    + apply Halt. intros y. simpl. split; [lia|done].
    + intros q Hq. right. case_decide; [|by apply not_elem_of_nil in Hq].
      apply list_elem_of_singleton in Hq as ->.
      rewrite list_lookup_alter_eq, Hx. simpl. eexists. split; [done|simpl; lia].
  - simplify_eq/=. split_and?; [|by left|done].
    apply Halt. intros y. split; [|unfold kill; by repeat case_match].
    unfold kill. repeat case_match; simpl; lia.
  - simplify_eq/=. split_and?; [|by apply Hafter|done].
    intros q x' Hx'. left. destruct (decide (q = p)) as [->|Hne].
    + rewrite list_lookup_alter_eq in Hx'. destruct (heap s !! p) as [x|]; [|done].
      simpl in Hx'. simplify_eq. exists x. split; [done|].
      unfold close_pty. destruct (pty x) as [h|] eqn:Hp; simpl.
      * split; [lia|]. right. split_and?; [by eexists|done|by left].
      * split; [lia|]. left. by rewrite Hp.
    + rewrite list_lookup_alter_ne in Hx' by done. exists x'.
      split_and?; [done|lia|by left].
  - simplify_eq. split_and?; [done| |done]. by apply Hafter.
  - repeat (simplify_option_eq || case_match || case_decide); by split_and?.
  - repeat (simplify_option_eq || case_match); by split_and?.
  - destruct r as [data [err|]]; destruct (heap s !! p) as [x|] eqn:Hx; simplify_eq/=;
      repeat case_match; by split_and?.
  - repeat (simplify_option_eq || case_match); by split_and?.
  - destruct (heap s !! p) as [x|] eqn:Hx; simplify_eq/=.
    repeat case_match; by split_and?.
  - done.
  - done.
Qed.

Lemma exec_step_done e t s t' s' new p x :
  thread_step e t s = Some (t', s', new) → heap s !! p = Some x →
  ∃ x', heap s' !! p = Some x' ∧ done x ≤ done x'.
Proof.
  intros H Hx.
  destruct (exec_step_ids _ _ _ _ _ _ H) as [ks Hk].
  assert (is_Some (heap s' !! p)) as [x' Hx'].
  { apply lookup_lt_is_Some. apply lookup_lt_Some in Hx.
    apply (f_equal length) in Hk. rewrite length_app, !length_fmap in Hk. lia. }
  exists x'. split; [done|].
  destruct (exec_step_wired _ _ _ _ _ _ H) as (H1 & _ & _).
  destruct (H1 p x' Hx') as [(x0 & Hx0 & Hd & _)|[Hn _]]; congruence.
Qed.

Lemma exec_step_wired_world l w w' : step l w = Some w' → wired w → wired w'.
Proof.
  intros H [Hp Ht]. destruct l as [i e|t|q ps]; simpl in H.
  - destruct (threads w !! i) as [t|] eqn:Ei; [|done]. simpl in H.
    destruct (thread_step e t (st w)) as [[[t' s'] new]|] eqn:E; [|done].
    simpl in H. simplify_eq.
    destruct (exec_step_wired _ _ _ _ _ _ E) as (H1 & H2 & H3).
    assert (Hin : t ∈ threads w) by (by eapply list_elem_of_lookup_2).
    assert (Hkeep : ∀ t0 p, t0 ∈ threads w → p ∈ closing t0 →
              ∃ x', heap s' !! p = Some x' ∧ 1 ≤ done x').
    { intros t0 p Ht0 Hc. destruct (Ht t0 p Ht0 Hc) as (x & Hx & Hd).
      destruct (exec_step_done _ _ _ _ _ _ _ _ E Hx) as (x' & Hx' & Hd').
      exists x'. split; [done|lia]. }
    split; simpl.
    + intros p x' Hx'.
      destruct (H1 p x' Hx') as [(x & Hx & Hd & [Hs|(Hs & Hc & Hcl)])|[_ Ho]].
      * destruct (Hp p x Hx) as [Hsome Hclosed]. rewrite Hs. split; [done|].
        intros Hcc. specialize (Hclosed Hcc). lia.
      * split; [by rewrite Hc|]. intros _.
        destruct (Ht t p Hin Hcl) as (x0 & Hx0 & Hd0). simplify_eq. lia.
      * rewrite Ho. split; [by eexists|done].
    + intros t0 p Hin0 Hc. apply elem_of_app in Hin0 as [Hin0|Hin0];
        [|by apply H3 in Hc].
      apply list_elem_of_lookup in Hin0 as [j Hj].
      apply list_lookup_insert_Some in Hj as [(-> & -> & _)|[_ Hj]].
      * destruct (H2 p Hc) as [Hc'|?]; [by eapply Hkeep|done].
      * eapply Hkeep; [|done]. by eapply list_elem_of_lookup_2.
  - destruct (is_call t) eqn:Ec; [|done]. simplify_eq. split; simpl; [done|].
    intros t0 p Hin Hc. apply elem_of_app in Hin as [Hin|Hin]; [by eapply Ht|].
    apply list_elem_of_singleton in Hin. subst t0. destruct t; try done;
      by apply not_elem_of_nil in Hc.
  - destruct (heap (st w) !! q) as [x|] eqn:Hx; [|done]. simpl in H.
    destruct (cmd_Process x) as [[|]|] eqn:Hc; simplify_eq.
    assert (Hlook : ∀ p y', alter (child_ends ps) q (heap (st w)) !! p = Some y' →
              ∃ y, heap (st w) !! p = Some y ∧ pty y' = pty y ∧ done y' = done y).
    { intros p y' Hy'. destruct (decide (p = q)) as [->|Hne].
      - rewrite list_lookup_alter_eq, Hx in Hy'. simpl in Hy'. simplify_eq.
        exists x. split; [done|]. unfold child_ends. by rewrite Hc.
      - rewrite list_lookup_alter_ne in Hy' by done. by exists y'. }
    split; simpl.
    + intros p y' Hy'. destruct (Hlook p y' Hy') as (y & Hy & -> & ->).
      by apply (Hp p).
    + intros t0 p Hin Hcl. destruct (Ht t0 p Hin Hcl) as (y & Hy & Hd).
      destruct (decide (p = q)) as [->|Hne].
      * rewrite list_lookup_alter_eq, Hy. simpl. eexists. split; [done|].
        simplify_eq. unfold child_ends. by rewrite Hc.
      * rewrite list_lookup_alter_ne by done. by exists y.
Qed.

Lemma exec_run_wired ls w w' : run ls w = Some w' → wired w → wired w'.
Proof.
  revert w. induction ls as [|l ls IH]; intros w H Hw; simpl in H; [by simplify_eq|].
  destruct (step l w) as [w1|] eqn:E; [|done]. simpl in H.
  eapply IH; [done|]. by eapply exec_step_wired_world.
Qed.

Lemma wired_init out ex er : wired (mkWorld (NewExecManager out ex er) []).
Proof.
  split; simpl; [done|]. intros t p Hin. by apply not_elem_of_nil in Hin.
Qed.

(** *** What [Stop] and [StopAll] do to the channels *)

(** In a world of a schedule the registered sessions have an open
    channel and the registry holds no session twice. *)
Lemma sound_tidy w : sound w → tidy (st w).
Proof.
  intros Hw. split.
  - intros k p Hk. destruct (sound_registered w Hw k p Hk) as [k' Hk'].
    unfold tags in Hk'. rewrite list_lookup_fmap in Hk'.
    destruct (heap (st w) !! p) as [x|]; [|done].
    exists x. split; [done|]. simpl in Hk'. congruence.
  - apply (sound_injective w Hw).
Qed.

Lemma Stop_unregistered sessionID p s :
  (∀ k, sessions (mgr s) !! k ≠ Some p) →
  heap (Stop sessionID s) !! p = heap s !! p.
Proof.
  intros Hno. destruct (sessions (mgr s) !! sessionID) as [q|] eqn:Es.
  - rewrite (heap_Stop _ q) by done. apply list_lookup_alter_ne.
    intros ->. by apply (Hno sessionID).
  - by rewrite exec_Stop_absent.
Qed.

(** A session that is not in the registry is out of the reach of
    [StopAll]. *)
Lemma stop_each_unregistered ids p s :
  (∀ k, sessions (mgr s) !! k ≠ Some p) →
  heap (stop_each ids s) !! p = heap s !! p.
Proof.
  revert s. induction ids as [|a ids IH]; intros s Hno; [done|].
  change (stop_each (a :: ids) s) with (stop_each ids (Stop a s)).
  rewrite IH.
  - by apply Stop_unregistered.
  - intros k. rewrite sessions_Stop. intros [_ Hk]%lookup_delete_Some.
    by apply (Hno k).
Qed.

(** [Stop] closes the channel of the session it finds, once. *)
Lemma Stop_done sessionID p s :
  tidy s → sessions (mgr s) !! sessionID = Some p →
  ∃ x x', heap s !! p = Some x ∧ done x = 0 ∧
          heap (Stop sessionID s) !! p = Some x' ∧ done x' = 1 ∧ released x' ∧
          id x' = id x ∧
          ∀ k, sessions (mgr (Stop sessionID s)) !! k ≠ Some p.
Proof.
  intros [Hv Hj] Hk. destruct (Hv _ _ Hk) as (x & Hx & Hd).
  destruct (Stop_released sessionID p x s Hk Hx) as (x' & Hx' & Hr & Hd' & Hi).
  exists x, x'. split_and?; [done..|lia|done|done|].
  intros k. rewrite sessions_Stop. intros [Hne Hk']%lookup_delete_Some.
  apply Hne. by apply (Hj _ _ p).
Qed.

(** The loop of [StopAll] closes the channel of every session it was
    given, once. *)
Lemma stop_each_done ids k p s :
  tidy s → k ∈ ids → sessions (mgr s) !! k = Some p →
  ∃ x', heap (stop_each ids s) !! p = Some x' ∧ done x' = 1 ∧ released x'.
Proof.
  revert s. induction ids as [|a ids IH]; intros s Ht Hin Hk;
    [by apply not_elem_of_nil in Hin|].
  change (stop_each (a :: ids) s) with (stop_each ids (Stop a s)).
  destruct (decide (a = k)) as [->|Hne].
  - destruct (Stop_done k p s Ht Hk) as (x & x' & _ & _ & Hx' & Hd & Hr & _ & Hno).
    exists x'. by rewrite stop_each_unregistered.
  - apply IH; [by apply tidy_Stop|by apply elem_of_cons in Hin as [?|?]|].
    rewrite sessions_Stop. by rewrite lookup_delete_ne.
Qed.

Lemma StopAll_done k p s :
  tidy s → sessions (mgr s) !! k = Some p →
  ∃ x', heap (StopAll s) !! p = Some x' ∧ done x' = 1 ∧ released x'.
Proof.
  intros Ht Hk. apply (stop_each_done _ k); [done| |done].
  apply elem_of_ids_of. by eexists.
Qed.

(** The step of [Stop] at its [close] closes an open channel. *)
Lemma Stop_close_step e w i p rest :
  sound w → threads w !! i = Some (Stop_close p rest) →
  ∃ x, heap (st w) !! p = Some x ∧ done x = 0 ∧
       thread_step e (Stop_close p rest) (st w)
       = Some (Stop_kill p rest, set_session p close_done (st w), []) ∧
       heap (set_session p close_done (st w)) !! p = Some (close_done x) ∧
       done (close_done x) = 1.
Proof.
  intros Hw Hi.
  assert (Hown : p ∈ owned_by (threads w)).
  { unfold owned_by. apply list_elem_of_bind.
    exists (Stop_close p rest). split; [by left|].
    apply list_elem_of_lookup. eauto. }
  destruct (sound_owned w Hw p Hown) as [[k Hk] _].
  unfold tags in Hk. rewrite list_lookup_fmap in Hk.
  destruct (heap (st w) !! p) as [x|] eqn:Hx; [|done].
  simpl in Hk. exists x. assert (Hd : done x = 0) by congruence.
  split_and?; [done..| | |].
  - cbn [thread_step]. rewrite Hx. simpl. by rewrite decide_True.
  - by rewrite heap_set_session, list_lookup_alter_eq, Hx.
  - simpl. lia.
Qed.

End ExecMore.

(* ===================================================================== *)
(** ** More facts about the log streamer

    Starting a command, [StopAll] as a sequence of [Stop], the workers of
    a stopped stream, the wait for a file, and the pipe reader and the
    tailer line by line. *)
(* ===================================================================== *)

Module LogsMore.
Import GoLib GoLibFacts Logs LogsFacts.

Lemma logs_elem_of_ids_of (m : gmap string nat) k : k ∈ ids_of m ↔ is_Some (m !! k).
Proof.
  unfold ids_of. rewrite list_elem_of_fmap. split.
  - intros ([k' p] & -> & Hin). apply elem_of_map_to_list in Hin. by eexists.
  - intros [p Hp]. exists (k, p). split; [done|]. by apply elem_of_map_to_list.
Qed.

Lemma ids_of_NoDup (m : gmap string nat) : NoDup (ids_of m).
Proof. apply NoDup_fst_map_to_list. Qed.

Lemma startCommandStream_startable e p s args :
  (heap s !! p ≫= cmd) = Some (mkCmd args None) →
  startCommandStream e p s
  = if startable e args
    then (None, set_stream p started s,
          [readPipe_select p ""; readPipe_select p ""; waiter_Wait p])
    else (match StdoutPipe e args, StderrPipe e args, cmd_Start e args with
          | Some err, _, _ | None, Some err, _ | None, None, Some err =>
              Some (SpawnFailed err)
          | None, None, None => None
          end, s, []).
Proof.
  intros Hc. unfold startCommandStream, startable. rewrite Hc. simpl.
  by destruct (StdoutPipe e args), (StderrPipe e args), (cmd_Start e args).
Qed.

Lemma alloc_lookup x s : heap (alloc x s) !! length (heap s) = Some x.
Proof. simpl. by rewrite lookup_app_r, Nat.sub_diag by done. Qed.

Lemma started_lookup p x args s :
  heap s !! p = Some x → cmd x = Some (mkCmd args None) →
  heap (set_stream p started s) !! p
  = Some (set_cmd (Some (mkCmd args (Some Running))) x).
Proof.
  intros Hx Hc. simpl. rewrite list_lookup_alter_eq, Hx. simpl.
  unfold started. by rewrite Hc.
Qed.

(** The outcome of starting command [args] on the stream just allocated
    at the end of the heap. *)
Lemma start_command_outcome e streamID serviceName args s :
  streams s !! streamID = None →
  ∃ err s' new,
    start_command e streamID serviceName args s = (err, s', new) ∧
    events s' = events s ∧
    (startable e args = true →
     err = None ∧ streams s' = <[streamID := length (heap s)]> (streams s) ∧
     heap s' = heap s ++ [mkStream streamID serviceName LogStreamTypeCommand
                            (Some (mkCmd args (Some Running))) None 0 false] ∧
     new = [readPipe_select (length (heap s)) ""; readPipe_select (length (heap s)) "";
            waiter_Wait (length (heap s))]) ∧
    (startable e args = false →
     (∃ cause, err = Some (SpawnFailed cause)) ∧ streams s' = streams s ∧ new = []).
Proof.
  intros Hk. unfold start_command. rewrite Hk.
  set (x := mkStream streamID serviceName LogStreamTypeCommand (Some (mkCmd args None))
              None 0 false).
  rewrite (startCommandStream_startable e _ _ args)
    by (by rewrite alloc_lookup).
  destruct (startable e args) eqn:Hs.
  - do 3 eexists. split; [done|]. split; [done|]. split; [|done]. intros _.
    split_and?; try done. simpl.
    by rewrite alter_app_r_alt, Nat.sub_diag by lia.
  - unfold startable in Hs.
    destruct (StdoutPipe e args), (StderrPipe e args), (cmd_Start e args);
      try discriminate;
      (do 3 eexists; split; [done|]; split; [done|]; split; [done|]; intros _;
       split_and?; [by eexists|done..]).
Qed.

Lemma logs_heap_Stop streamID p s :
  streams s !! streamID = Some p →
  heap (Stop streamID s)
  = alter (close_file ∘ kill ∘ close_done ∘ mark_stopped) p (heap s).
Proof. intros Hp. unfold Stop. rewrite Hp. by rewrite heap_teardown. Qed.

Lemma logs_events_Stop streamID s : events (Stop streamID s) = events s.
Proof. unfold Stop. case_match; [|done]. by rewrite events_teardown. Qed.

Lemma fs_teardown p s : fs (teardown p s) = fs s.
Proof. done. Qed.

Lemma state_eq (s1 s2 : state) :
  streams s1 = streams s2 → heap s1 = heap s2 → events s1 = events s2 →
  fs s1 = fs s2 → s1 = s2.
Proof. destruct s1, s2. simpl. by intros -> -> -> ->. Qed.

Lemma lookup_foldl_delete (m : gmap string nat) ks k :
  foldl (λ m' k', delete k' m') m ks !! k
  = if decide (k ∈ ks) then None else m !! k.
Proof.
  revert m. induction ks as [|k0 ks IH]; intros m; cbn [foldl].
  - case_decide as H; [by apply not_elem_of_nil in H|done].
  - rewrite IH. destruct (decide (k = k0)) as [->|Hne].
    + rewrite lookup_delete_eq. rewrite (decide_True (P := k0 ∈ k0 :: ks)) by left.
      by case_decide.
    + rewrite lookup_delete_ne by done.
      case_decide as H1; case_decide as H2; try done.
      * exfalso. apply H2. by right.
      * apply elem_of_cons in H2 as [?|?]; done.
Qed.

(** Stopping the identifiers of some registry entries one after the
    other: the entries are removed and their streams torn down in turn. *)
Lemma stop_each_entries (l : list (string * nat)) s :
  NoDup l.*1 → (∀ k p, (k, p) ∈ l → streams s !! k = Some p) →
  stop_each l.*1 s
  = teardown_each l.*2 (set_streams (λ m, foldl (λ m' k, delete k m') m l.*1) s).
Proof.
  revert s. induction l as [|[k p] l IH]; intros s Hnd Hl.
  - by destruct s.
  - simpl in *. apply NoDup_cons in Hnd as [Hk Hnd].
    assert (streams s !! k = Some p) as Hp by (apply Hl; left).
    unfold stop_each, teardown_each in *. simpl.
    unfold Stop at 2. rewrite Hp. rewrite IH; [done|done|].
    intros k' p' Hin. simpl. rewrite lookup_delete_ne; [apply Hl; by right|].
    intros ->. apply Hk. apply list_elem_of_fmap. by exists (k', p').
Qed.

Lemma halted_reader_step e q t s :
  halted q s → reader_of q t = true →
  ∃ t' s',
    thread_step e t s = Some (t', s', []) ∧
    events s' = events s ++ (Line q <$> committed t) ∧
    halted q s' ∧
    committed t' = [] ∧ (reader_of q t' = true ∨ ∃ err ids, t' = Returned err ids).
Proof.
  intros Hh Hr.
  assert (∀ t' s' new, thread_step e t s = Some (t', s', new) → halted q s') as Hh'.
  { intros t' s' new Hs. eapply grows_halted; [|done]. by eapply thread_step_grows. }
  destruct Hh as (x & Hx & Hd & Hs).
  destruct t; simpl in Hr; try discriminate; apply Nat.eqb_eq in Hr; subst p;
    simpl in *; rewrite ?Hx in *; simpl in *; rewrite ?Hs in *.
  all: repeat (case_match || case_decide); try lia; try discriminate;
    (do 2 eexists; split; [reflexivity|]; split_and?;
     [by rewrite ?app_nil_r | by eapply Hh' | done
     |first [left; simpl; by apply Nat.eqb_refl | right; by do 2 eexists]]).
Qed.

Lemma halted_reader_run e q k t s :
  halted q s → reader_of q t = true →
  events (solo e (replicate (S k) Step) t s).2 = events s ++ (Line q <$> committed t).
Proof.
  revert t s. induction k as [|k IH]; intros t s Hh Hr;
    destruct (halted_reader_step e q t s Hh Hr) as (t' & s' & Hs & He & Hh' & Hc & Ht');
    rewrite solo_S, Hs.
  - done.
  - destruct Ht' as [Ht'|(err & ids & ->)].
    + rewrite (IH t' s' Hh' Ht'), Hc, He. simpl. by rewrite app_nil_r.
    + by rewrite solo_Returned.
Qed.

Lemma solo_SS e acts t s :
  solo e (Step :: acts) t s
  = match thread_step e t s with
    | Some (t', s', _) => solo e acts t' s'
    | None => solo e acts t s
    end.
Proof. done. Qed.

Lemma poll_once e p path s x elapsed n :
  heap s !! p = Some x → done x = 0 → fs s !! path = None →
  (elapsed < maxWait)%N →
  solo e (replicate (2 + n) Step) (fileWait_select p path elapsed) s
  = solo e (replicate n Step) (fileWait_select p path (elapsed + waitInterval)) s.
Proof.
  intros Hx Hd Hf He.
  change (replicate (2 + n) Step) with (Step :: Step :: replicate n Step).
  rewrite solo_SS. cbn [thread_step]. rewrite Hx. cbn [mbind option_bind].
  apply N.ltb_lt in He. rewrite He. rewrite decide_True by done.
  rewrite solo_SS. cbn [thread_step]. by rewrite Hf.
Qed.

Lemma poll_many e p path s x j n :
  heap s !! p = Some x → done x = 0 → fs s !! path = None →
  j ≤ polls →
  solo e (replicate (2 * j + n) Step) (fileWait_select p path 0) s
  = solo e (replicate n Step)
      (fileWait_select p path (N.of_nat j * waitInterval)) s.
Proof.
  intros Hx Hd Hf. revert n. induction j as [|j IH]; intros n Hj; [done|].
  replace (2 * S j + n) with (2 * j + (2 + n)) by lia.
  rewrite IH by lia.
  rewrite (poll_once e p path s x)
    by (try done; unfold maxWait, waitInterval, polls in *; lia).
  do 2 f_equal. lia.
Qed.

Lemma poll_timeout e p path s x n :
  heap s !! p = Some x → fs s !! path = None →
  solo e (replicate (3 + n) Step)
    (fileWait_select p path (N.of_nat polls * waitInterval)) s
  = (ret None, s).
Proof.
  intros Hx Hf.
  change (replicate (3 + n) Step) with (Step :: Step :: Step :: replicate n Step).
  rewrite solo_SS. cbn [thread_step]. rewrite Hx. cbn [mbind option_bind].
  replace (N.of_nat polls * waitInterval <? maxWait)%N with false by done.
  rewrite solo_SS. cbn [thread_step]. rewrite Hx. cbn [mbind option_bind].
  destruct (stopped x).
  - apply (solo_Returned e (S n)).
  - rewrite solo_SS. cbn [thread_step]. rewrite Hf.
    destruct (os_Open e); apply solo_Returned.
Qed.

Lemma tail_select_step e p path pos s x :
  heap s !! p = Some x → done x = 0 →
  thread_step e (tailFile_select p path pos) s = Some (tailFile_Read p path pos, s, []).
Proof. intros Hx Hd. cbn [thread_step]. rewrite Hx. simpl. by rewrite decide_True. Qed.

Lemma tail_read_step e p path s x c r :
  heap s !! p = Some x → file x = Some Open → file_Read e = None →
  default "" (fs s !! path) = String.append c r →
  thread_step e (tailFile_Read p path (String.length c)) s
  = Some (let '(n, line, eof) := ReadString r in
          if eof then tailFile_select p path (String.length c + n)
          else if nonempty (strip_newline line)
               then tailFile_check p path (String.length c + n) (strip_newline line)
               else tailFile_select p path (String.length c + n), s, []).
Proof.
  intros Hx Hf He Hc. cbn [thread_step]. rewrite Hx. simpl.
  unfold is_open. rewrite Hf, He, Hc, suffix_append.
  by destruct (ReadString r) as [[n line] [|]].
Qed.

Lemma tail_check_step e p path pos line s x :
  heap s !! p = Some x → stopped x = false →
  thread_step e (tailFile_check p path pos line) s
  = Some (tailFile_callback p path pos line, s, []).
Proof. intros Hx Hs. cbn [thread_step]. rewrite Hx. simpl. by rewrite Hs. Qed.

Lemma ReadString_no_LF r : no_LF r → ReadString r = (String.length r, r, true).
Proof. intros Hr. unfold ReadString. by rewrite Hr. Qed.

Lemma fs_append_file path data s :
  default "" (fs (append_file path data s) !! path)
  = String.append (default "" (fs s !! path)) data.
Proof. simpl. by rewrite lookup_insert_eq. Qed.

Lemma nonempty_false b : nonempty b = false → b = "".
Proof.
  unfold nonempty. intros H. apply negb_false_iff in H. by apply String.eqb_eq.
Qed.

Lemma tail_torn e p path s x a b :
  file_Read e = None → heap s !! p = Some x → done x = 0 → stopped x = false →
  file x = Some Open → no_LF a → no_LF b →
  events (solo e ([Write path a; Step; Step;
                   Write path (String.append b (String LF ""))] ++ replicate 4 Step)
            (tailFile_select p path (String.length (default "" (fs s !! path)))) s).2
  = events s ++ (if nonempty b then [Line p b] else []).
Proof.
  intros He Hx Hd Hs Hf Ha Hb.
  set (c := default "" (fs s !! path)).
  set (s1 := append_file path a s).
  set (s2 := append_file path (String.append b (String LF "")) s1).
  assert (Hc1 : default "" (fs s1 !! path) = String.append c a)
    by apply fs_append_file.
  assert (Hc2 : default "" (fs s2 !! path)
                = String.append (String.append c a) (String.append b (String LF ""))).
  { unfold s2. by rewrite fs_append_file, Hc1. }
  cbn [app replicate solo]. fold s1.
  rewrite (tail_select_step e p path _ s1 x Hx Hd).
  rewrite (tail_read_step e p path s1 x c a Hx Hf He Hc1).
  rewrite (ReadString_no_LF a Ha). cbn iota. fold s2.
  rewrite (tail_select_step e p path _ s2 x Hx Hd).
  rewrite <- length_append.
  rewrite (tail_read_step e p path s2 x _ _ Hx Hf He Hc2).
  rewrite (ReadString_line b "" Hb). cbn iota. rewrite strip_newline_line.
  destruct (nonempty b) eqn:Hn.
  - by rewrite (tail_check_step e p path _ b s2 x Hx Hs).
  - apply nonempty_false in Hn. subst b.
    rewrite (tail_select_step e p path _ s2 x Hx Hd).
    assert (Hc3 : default "" (fs s2 !! path)
                  = String.append (String.append (String.append c a) (String LF "")) "").
    { rewrite Hc2. by rewrite append_nil_r. }
    assert (Hl : String.length (String.append c a) + (String.length "" + 1)
                 = String.length (String.append (String.append c a) (String LF ""))).
    { by rewrite (length_append _ (String LF "")). }
    rewrite Hl.
    rewrite (tail_read_step e p path s2 x _ _ Hx Hf He Hc3).
    simpl. by rewrite app_nil_r.
Qed.

Lemma no_LF_append a b : no_LF a → no_LF b → no_LF (String.append a b).
Proof.
  unfold no_LF. induction a as [|ch a IH]; intros Ha Hb; [done|].
  rewrite append_cons. simpl in *. destruct (Ascii.eqb ch LF); [done|].
  destruct (IndexByte a LF); [done|]. by rewrite IH.
Qed.

Lemma tail_whole e p path s x a b :
  file_Read e = None → heap s !! p = Some x → done x = 0 → stopped x = false →
  file x = Some Open → no_LF a → no_LF b →
  events (solo e ([Write path a; Write path (String.append b (String LF ""))]
                  ++ replicate 4 Step)
            (tailFile_select p path (String.length (default "" (fs s !! path)))) s).2
  = events s ++ (if nonempty (String.append a b)
                 then [Line p (String.append a b)] else []).
Proof.
  intros He Hx Hd Hs Hf Ha Hb.
  set (c := default "" (fs s !! path)).
  set (s1 := append_file path a s).
  set (s2 := append_file path (String.append b (String LF "")) s1).
  assert (Hc2 : default "" (fs s2 !! path)
                = String.append c (String.append (String.append a b) (String LF ""))).
  { unfold s2, s1. by rewrite !fs_append_file, !append_assoc. }
  cbn [app replicate solo]. fold s1. fold s2.
  rewrite (tail_select_step e p path _ s2 x Hx Hd).
  rewrite (tail_read_step e p path s2 x _ _ Hx Hf He Hc2).
  rewrite (ReadString_line (String.append a b) "") by by apply no_LF_append.
  cbn iota. rewrite strip_newline_line.
  destruct (nonempty (String.append a b)) eqn:Hn.
  - by rewrite (tail_check_step e p path _ _ s2 x Hx Hs).
  - apply nonempty_false in Hn. rewrite Hn in *.
    rewrite (tail_select_step e p path _ s2 x Hx Hd).
    assert (Hc3 : default "" (fs s2 !! path)
                  = String.append (String.append c (String LF "")) "").
    { rewrite Hc2. by rewrite append_nil_r. }
    assert (Hl : String.length c + (String.length "" + 1)
                 = String.length (String.append c (String LF ""))).
    { by rewrite (length_append _ (String LF "")). }
    rewrite Hl.
    rewrite (tail_read_step e p path s2 x _ _ Hx Hf He Hc3).
    simpl. by rewrite app_nil_r.
Qed.

Lemma suffix_append_LF l r :
  suffix (String.length l + 1) (String.append l (String LF r)) = r.
Proof.
  replace (String.append l (String LF r))
    with (String.append (String.append l (String LF "")) r)
    by (by rewrite append_assoc).
  replace (String.length l + 1) with (String.length (String.append l (String LF "")))
    by (rewrite length_append; simpl; lia).
  apply suffix_append.
Qed.

Lemma Scan_line max l r eof :
  no_LF l → (N.of_nat (String.length l) < max)%N →
  Scan max (String.append l (String LF r)) eof = Token (dropCR l) r.
Proof.
  intros Hl Hm. unfold Scan, ScanLines. rewrite (IndexByte_append l r Hl).
  apply N.ltb_lt in Hm. rewrite Hm.
  assert ((String.length (String.append l (String LF r)) =? 0) = false) as ->.
  { rewrite length_append. simpl. apply Nat.eqb_neq. lia. }
  rewrite andb_false_r. by rewrite prefix_append, suffix_append_LF.
Qed.

Lemma suffix_all l : suffix (String.length l) l = "".
Proof. rewrite <- (append_nil_r l) at 2. apply suffix_append. Qed.

Lemma Scan_rest max l eof :
  no_LF l → (N.of_nat (String.length l) < max)%N →
  Scan max l eof
  = if eof then (if String.eqb l "" then ScanEnd else Token (dropCR l) "")
    else NeedMore.
Proof.
  intros Hl Hm. unfold Scan, ScanLines. rewrite Hl.
  assert ((max <=? N.of_nat (String.length l))%N = false) as ->
    by (apply N.leb_gt; lia).
  destruct eof; [|done]. simpl. destruct l as [|a l]; [done|].
  simpl String.length. cbn [Nat.eqb]. 
  change (String.eqb (String a l) "") with false. cbn iota.
  change (S (String.length l)) with (String.length (String a l)).
  by rewrite suffix_all.
Qed.

Section pipe.
Context (e : env) (p : nat) (eof : bool).
Hypothesis He : pipe_Read e = ("", eof).

Local Abbreviation live := (Logs.live p).

Lemma pipe_select_step buf s :
  live s → thread_step e (readPipe_select p buf) s = Some (readPipe_Scan p buf, s, []).
Proof.
  intros (x & Hx & Hd & _). cbn [thread_step]. rewrite Hx. simpl.
  by rewrite decide_True.
Qed.

Lemma pipe_Scan_step buf s :
  thread_step e (readPipe_Scan p buf) s
  = match Scan maxTokenSize buf eof with
    | Token line rest =>
        Some (if nonempty line then readPipe_check p line rest
              else readPipe_select p rest, s, [])
    | NeedMore => Some (readPipe_Scan p buf, s, [])
    | ScanEnd => Some (ret None, s, [])
    end.
Proof. cbn [thread_step]. rewrite He. by rewrite append_nil_r. Qed.

Lemma pipe_check_step line buf s :
  live s →
  thread_step e (readPipe_check p line buf) s = Some (readPipe_callback p line buf, s, []).
Proof.
  intros (x & Hx & _ & Hs). cbn [thread_step]. rewrite Hx. simpl. by rewrite Hs.
Qed.

Lemma live_emit ev s : live s → live (emit ev s).
Proof. done. Qed.

Lemma pipe_lines lines last s :
  live s →
  Forall (λ l, no_LF l ∧ (N.of_nat (String.length l) < maxTokenSize)%N) lines →
  ∃ j s', j ≤ 4 * length lines ∧ live s' ∧
    events s' = events s ++ (Line p <$> List.filter nonempty (dropCR <$> lines)) ∧
    ∀ k, solo e (replicate (j + k) Step)
           (readPipe_select p (String.append (join_lines lines) last)) s
         = solo e (replicate k Step) (readPipe_select p last) s'.
Proof.
  intros Hs Hl. revert s Hs. induction Hl as [|l lines [Hn Hm] _ IH]; intros s Hs.
  - exists 0, s. split; [done|]. split; [done|]. split; [by rewrite app_nil_r|done].
  - simpl join_lines. rewrite append_assoc, append_cons.
    destruct (nonempty (dropCR l)) eqn:Hne.
    + destruct (IH (emit (Line p (dropCR l)) s) (live_emit _ _ Hs))
        as (j & s' & Hj & Hs' & Hev & Hrun).
      exists (4 + j), s'. split; [simpl; lia|]. split; [done|]. split.
      * rewrite Hev. simpl. rewrite Hne. simpl. by rewrite <- app_assoc.
      * intros k. rewrite <- Hrun.
        change (replicate (4 + j + k) Step)
          with (Step :: Step :: Step :: Step :: replicate (j + k) Step).
        rewrite solo_SS, pipe_select_step by done.
        rewrite solo_SS, pipe_Scan_step, Scan_line, Hne by done.
        rewrite solo_SS, pipe_check_step by done.
        by rewrite solo_SS.
    + destruct (IH s Hs) as (j & s' & Hj & Hs' & Hev & Hrun).
      exists (2 + j), s'. split; [simpl; lia|]. split; [done|]. split.
      * rewrite Hev. simpl. by rewrite Hne.
      * intros k. rewrite <- Hrun.
        change (replicate (2 + j + k) Step)
          with (Step :: Step :: replicate (j + k) Step).
        rewrite solo_SS, pipe_select_step by done.
        by rewrite solo_SS, pipe_Scan_step, Scan_line, Hne by done.
Qed.

Lemma pipe_blocked buf s k :
  Scan maxTokenSize buf eof = NeedMore →
  solo e (replicate k Step) (readPipe_Scan p buf) s = (readPipe_Scan p buf, s).
Proof.
  intros Hb. induction k as [|k IH]; [done|].
  by rewrite solo_S, pipe_Scan_step, Hb.
Qed.

Lemma pipe_rest last s k :
  live s → no_LF last → (N.of_nat (String.length last) < maxTokenSize)%N →
  events (solo e (replicate (6 + k) Step) (readPipe_select p last) s).2
  = events s ++ (Line p <$> List.filter nonempty (if eof then [dropCR last] else [])).
Proof.
  intros Hs Hn Hm.
  change (replicate (6 + k) Step)
    with (Step :: Step :: Step :: Step :: Step :: Step :: replicate k Step).
  rewrite solo_SS, pipe_select_step by done.
  pose proof (Scan_rest maxTokenSize last eof Hn Hm) as Hr.
  pose proof (Scan_rest maxTokenSize "" eof eq_refl eq_refl) as Hr0.
  assert (eof = true ∨ eof = false) as [Ht|Hf] by (clear; destruct eof; auto).
  - replace (if eof then [dropCR last] else []) with [dropCR last]
      by (by rewrite Ht).
    assert (Scan maxTokenSize last eof
            = if String.eqb last "" then ScanEnd else Token (dropCR last) "") as Hr'
      by (rewrite Hr; by rewrite Ht).
    assert (Scan maxTokenSize "" eof = ScanEnd) as Hr0'
      by (rewrite Hr0; by rewrite Ht).
    clear Hr Hr0. rename Hr' into Hr. rename Hr0' into Hr0.
    destruct (String.eqb_spec last "") as [->|Hne].
    + rewrite solo_SS, pipe_Scan_step, Hr.
      change (Step :: Step :: Step :: Step :: replicate k Step)
        with (replicate (4 + k) Step).
      unfold ret. rewrite (solo_Returned e (4 + k)). simpl. by rewrite app_nil_r.
    + rewrite solo_SS, pipe_Scan_step, Hr. simpl List.filter.
      destruct (nonempty (dropCR last)) eqn:Hd.
      * rewrite solo_SS, pipe_check_step by done.
        rewrite solo_SS. cbn [thread_step].
        rewrite solo_SS, pipe_select_step by by apply live_emit.
        rewrite solo_SS, pipe_Scan_step, Hr0.
        unfold ret. by rewrite solo_Returned.
      * rewrite solo_SS, pipe_select_step by done.
        rewrite solo_SS, pipe_Scan_step, Hr0.
        change (Step :: Step :: replicate k Step) with (replicate (2 + k) Step).
        unfold ret. rewrite (solo_Returned e (2 + k)). simpl. by rewrite app_nil_r.
  - replace (if eof then [dropCR last] else []) with (@nil string)
      by (by rewrite Hf).
    change (Step :: Step :: Step :: Step :: Step :: replicate k Step)
      with (replicate (5 + k) Step).
    rewrite (pipe_blocked last s (5 + k)) by (rewrite Hr; by rewrite Hf).
    simpl. by rewrite app_nil_r.
Qed.

End pipe.




(** No stream of [s'] has its [stopped] flag set that had not in [s]. *)
Lemma unflagged_refl s :
  ∀ p x', heap s !! p = Some x' → stopped x' = true →
          ∃ x, heap s !! p = Some x ∧ stopped x = true.
Proof. intros p x' ? ?. by exists x'. Qed.

Lemma unflagged_set_stream q f s :
  (∀ x, stopped (f x) = stopped x) →
  ∀ p x', heap (set_stream q f s) !! p = Some x' → stopped x' = true →
          ∃ x, heap s !! p = Some x ∧ stopped x = true.
Proof.
  intros Hf p x' Hl Hs. simpl in Hl. destruct (decide (p = q)) as [->|Hne].
  - rewrite list_lookup_alter_eq in Hl. destruct (heap s !! q) as [x|]; [|done].
    simpl in Hl. simplify_eq. exists x. split; [done|]. by rewrite <- Hf.
  - rewrite list_lookup_alter_ne in Hl by done. by eexists.
Qed.

Lemma unflagged_alloc y s :
  stopped y = false →
  ∀ p x', heap (alloc y s) !! p = Some x' → stopped x' = true →
          ∃ x, heap s !! p = Some x ∧ stopped x = true.
Proof.
  intros Hy p x' Hl Hs. simpl in Hl. apply lookup_app_Some in Hl as [Hl|[_ Hl]].
  - by exists x'.
  - apply list_lookup_singleton_Some in Hl as [_ <-]. congruence.
Qed.

Lemma stopped_started x : stopped (started x) = stopped x.
Proof. unfold started. by repeat case_match. Qed.
Lemma stopped_set_cmd c x : stopped (set_cmd c x) = stopped x.
Proof. done. Qed.
Lemma stopped_set_file f x : stopped (set_file f x) = stopped x.
Proof. done. Qed.
Lemma stopped_close_done x : stopped (close_done x) = stopped x.
Proof. done. Qed.
Lemma stopped_kill x : stopped (kill x) = stopped x.
Proof. unfold kill. by repeat case_match. Qed.
Lemma stopped_close_file x : stopped (close_file x) = stopped x.
Proof. unfold close_file. by repeat case_match. Qed.
Lemma stopped_child_ends ps x : stopped (child_ends ps x) = stopped x.
Proof. unfold child_ends. by repeat case_match. Qed.

Lemma unflagged_startCommandStream e q s r s' new :
  startCommandStream e q s = (r, s', new) →
  ∀ p x', heap s' !! p = Some x' → stopped x' = true →
          ∃ x, heap s !! p = Some x ∧ stopped x = true.
Proof.
  unfold startCommandStream. intros H.
  repeat case_match; simplify_eq; try apply unflagged_refl.
  apply unflagged_set_stream, stopped_started.
Qed.

Lemma unflagged_start_command e streamID serviceName args s r s' new :
  start_command e streamID serviceName args s = (r, s', new) →
  ∀ p x', heap s' !! p = Some x' → stopped x' = true →
          ∃ x, heap s !! p = Some x ∧ stopped x = true.
Proof.
  unfold start_command. intros H p x' Hl Hs.
  destruct (streams s !! streamID); [simplify_eq; by exists x'|].
  destruct (startCommandStream e _ _) as [[r1 s1] new1] eqn:Hc.
  assert (heap s' = heap s1) as Hh by (destruct r1; by simplify_eq).
  rewrite Hh in Hl.
  destruct (unflagged_startCommandStream _ _ _ _ _ _ Hc p x' Hl Hs) as (x1 & Hx1 & Hs1).
  eapply (unflagged_alloc _ s); [|done..]. done.
Qed.

Lemma unflagged_start_file streamID filePath s r s' new :
  start_file streamID filePath s = (r, s', new) →
  ∀ p x', heap s' !! p = Some x' → stopped x' = true →
          ∃ x, heap s !! p = Some x ∧ stopped x = true.
Proof.
  unfold start_file, startFileStream. intros H p x' Hl Hs.
  destruct (streams s !! streamID); simplify_eq; [by exists x'|].
  exact (unflagged_alloc (mkStream streamID "" LogStreamTypeFile None None 0 false) s
           eq_refl p x' Hl Hs).
Qed.

Lemma unflagged_StartEarlyLogStream e streamID s r s' new :
  StartEarlyLogStream e streamID s = (r, s', new) →
  ∀ p x', heap s' !! p = Some x' → stopped x' = true →
          ∃ x, heap s !! p = Some x ∧ stopped x = true.
Proof.
  unfold StartEarlyLogStream. intros H p x' Hl Hs.
  destruct (streams s !! streamID); [simplify_eq; by exists x'|].
  destruct (startCommandStream e _ (alloc _ s)) as [[r1 s1] new1] eqn:Hc1.
  destruct r1 as [err|].
  - destruct (startCommandStream e _ (set_stream _ _ s1)) as [[r2 s2] new2] eqn:Hc2.
    assert (heap s' = heap s2) as Hh by (destruct r2; by simplify_eq).
    rewrite Hh in Hl.
    destruct (unflagged_startCommandStream _ _ _ _ _ _ Hc2 p x' Hl Hs) as (x2 & Hx2 & Hs2).
    destruct (unflagged_set_stream _ _ _ (stopped_set_cmd _) p x2 Hx2 Hs2)
      as (x1 & Hx1 & Hs1).
    destruct (unflagged_startCommandStream _ _ _ _ _ _ Hc1 p x1 Hx1 Hs1) as (x0 & Hx0 & Hs0).
    eapply (unflagged_alloc _ s); [|done..]. done.
  - simplify_eq. simpl in Hl.
    destruct (unflagged_startCommandStream _ _ _ _ _ _ Hc1 p x' Hl Hs) as (x0 & Hx0 & Hs0).
    eapply (unflagged_alloc _ s); [|done..]. done.
Qed.

Lemma step_stopped e t s t' s' new p x' :
  thread_step e t s = Some (t', s', new) →
  heap s' !! p = Some x' → stopped x' = true →
  (∃ x, heap s !! p = Some x ∧ stopped x = true) ∨ ∃ rest, t = Stop_mark p rest.
Proof.
  intros H Hx' Hs.
  destruct t; simpl in H.
  - destruct (StartJournalctlStream e streamID s) as [[r s1] n1] eqn:Hst. simplify_eq.
    left. by eapply unflagged_start_command.
  - destruct (StartServiceStream e streamID serviceName s) as [[r s1] n1] eqn:Hst.
    simplify_eq. left. by eapply unflagged_start_command.
  - destruct (StartAppLogStream streamID s) as [[r s1] n1] eqn:Hst. simplify_eq.
    left. by eapply unflagged_start_file.
  - destruct (StartCageLogStream streamID s) as [[r s1] n1] eqn:Hst. simplify_eq.
    left. by eapply unflagged_start_file.
  - destruct (StartEarlyLogStream e streamID s) as [[r s1] n1] eqn:Hst. simplify_eq.
    left. by eapply unflagged_StartEarlyLogStream.
  - simplify_eq. left. by eexists.
  - repeat case_match; simplify_eq; left; by eexists.
  - simplify_eq. simpl in Hx'. destruct (decide (p = p0)) as [->|Hne].
    + right. by eexists.
    + rewrite list_lookup_alter_ne in Hx' by done. left. by eexists.
  - destruct (heap s !! p0) as [x|] eqn:Hx; simplify_eq/=.
    left. exact (unflagged_set_stream p0 close_done s stopped_close_done p x' Hx' Hs).
  - simplify_eq. left. exact (unflagged_set_stream p0 kill s stopped_kill p x' Hx' Hs).
  - simplify_eq. left. exact (unflagged_set_stream p0 close_file s stopped_close_file p x' Hx' Hs).
  - simplify_eq. left. by eexists.
  - repeat (simplify_option_eq || case_match); left; by eexists.
  - simplify_eq. left. by eexists.
  - repeat (simplify_option_eq || case_match); left; by eexists.
  - repeat (simplify_option_eq || case_match || case_decide); left; by eexists.
  - repeat (simplify_option_eq || case_match); left; by eexists.
  - repeat (simplify_option_eq || case_match); left; by eexists.
  - simplify_eq. left. by eexists.
  - repeat (simplify_option_eq || case_match || case_decide); left; by eexists.
  - repeat (simplify_option_eq || case_match); left; by eexists.
  - repeat (simplify_option_eq || case_match); left; by eexists.
  - repeat (simplify_option_eq || case_match); left; by eexists.
  - simplify_eq. left.
    exact (unflagged_set_stream p0 (set_file (Some Open)) s (stopped_set_file _) p x' Hx' Hs).
  - simplify_eq. left. by eexists.
  - destruct (heap s !! p0) as [x|] eqn:Hx; simplify_eq/=.
    case_decide; simplify_eq; left; [by eexists|].
    exact (unflagged_set_stream p0 close_file s stopped_close_file p x' Hx' Hs).
  - destruct (heap s !! p0) as [x|] eqn:Hx; simplify_eq/=.
    repeat case_match; simplify_eq; left; try (by eexists);
      exact (unflagged_set_stream p0 close_file s stopped_close_file p x' Hx' Hs).
  - destruct (heap s !! p0) as [x|] eqn:Hx; simplify_eq/=.
    repeat case_match; simplify_eq; left; try (by eexists);
      exact (unflagged_set_stream p0 close_file s stopped_close_file p x' Hx' Hs).
  - simplify_eq. left. by eexists.
  - done.
  - done.
Qed.

Lemma step_flagged l w w' : step l w = Some w' → sound w → flagged w → flagged w'.
Proof.
  intros H Hs Hf. destruct l as [i e|t|q ps|path data]; simpl in H.
  - destruct (threads w !! i) as [t|] eqn:Ei; [|done]. simpl in H.
    destruct (thread_step e t (st w)) as [[[t' s'] new]|] eqn:E; [|done].
    simpl in H. simplify_eq.
    pose proof (thread_step_grows _ _ _ _ _ _ E) as Hg.
    destruct (thread_step_effect _ _ _ _ _ _ E) as [[Hn _] He].
    destruct (owned_by_step (threads w) i t t' new Ei Hn) as [Hold Hnew].
    intros p x' Hx' Hst. simpl in *. rewrite Hnew.
    destruct (step_stopped _ _ _ _ _ _ _ _ E Hx' Hst) as [(x & Hx & Hsx)|[rest ->]].
    + destruct (Hg p x Hx) as (x'' & Hx'' & _ & Hd & _). simplify_eq.
      destruct (Hf p x Hx Hsx) as [Hdone|Hown]; [left; lia|].
      rewrite Hold in Hown. apply elem_of_app in Hown as [Hown|Hown];
        [|right; apply elem_of_app; by right].
      destruct He as [Ha Hb Hc Hd'|k q Ha Hb Hc Hd' Hf' Hg'|k Ha Hb Hc Hd'
                     |Ha Hb Hc Hd' Hf'|q rest k d Ha Hb Hc Hd' Hr Hf'
                     |k Ha Hb Hc Hd' Hf'];
        try (rewrite Hc in Hown || rewrite Hd' in Hown || rewrite Hb in Hown;
             by apply not_elem_of_nil in Hown);
        try (right; apply elem_of_app; left; by rewrite Hc).
      assert (q ∈ owned_by (threads w)) as Hq.
      { rewrite Hold, Ha. apply elem_of_app. left. by left. }
      destruct (sound_owned w Hs q Hq) as [[k0 Hk0] _].
      assert (d = 0) as -> by congruence.
      rewrite Ha in Hown. apply elem_of_cons in Hown as [->|Hown].
      * left. pose proof (tags_lookup _ _ _ Hx') as Ht'.
        rewrite Hc in Ht'. rewrite list_lookup_insert_eq in Ht'
          by (by eapply lookup_lt_Some). simplify_eq. lia.
      * right. apply elem_of_app. left. by rewrite Hr.
    + right. simpl in E. simplify_eq. apply elem_of_app. left. by left.
  - destruct (is_call t) eqn:Ec; [|done]. simplify_eq.
    intros p x Hx Hst. simpl in *.
    destruct (Hf p x Hx Hst) as [?|Hown]; [by left|right].
    unfold owned_by in *. rewrite bind_app. apply elem_of_app. by left.
  - simplify_eq. intros p x' Hx' Hst. simpl in *.
    destruct (decide (p = q)) as [->|Hne].
    + rewrite list_lookup_alter_eq in Hx'.
      destruct (heap (st w) !! q) as [x|] eqn:Hx; [|done]. simpl in Hx'. simplify_eq.
      rewrite stopped_child_ends in Hst.
      destruct (Hf q x Hx Hst) as [?|?]; [left|by right].
      by rewrite (proj2 (keeps_tag_child_ends ps x)).
    + rewrite list_lookup_alter_ne in Hx' by done. by apply (Hf p).
  - simplify_eq. intros p x Hx Hst. by apply (Hf p).
Qed.

Lemma run_flagged ls w w' :
  run ls w = Some w' → sound w → flagged w → sound w' ∧ flagged w'.
Proof.
  revert w. induction ls as [|l ls IH]; intros w H Hs Hf; simpl in H; [by simplify_eq|].
  destruct (step l w) as [w1|] eqn:E; [|done]. simpl in H.
  eapply IH; [done|by eapply step_sound|by eapply step_flagged].
Qed.

Lemma flagged_init files : flagged (mkWorld (NewLogStreamer files) []).
Proof. intros p x Hx. done. Qed.

(** *** What [Stop], [StopAll] and [cleanupStream] do to the channels *)

Lemma sound_open w k p :
  sound w → streams (st w) !! k = Some p →
  ∃ x, heap (st w) !! p = Some x ∧ done x = 0 ∧ ID x = k.
Proof.
  intros Hw Hk. apply (sound_registered w Hw) in Hk.
  unfold tags in Hk. rewrite list_lookup_fmap in Hk.
  destruct (heap (st w) !! p) as [x|]; [|done].
  exists x. simpl in Hk. split; [done|]. split; congruence.
Qed.

Lemma sound_NoDup w : sound w → NoDup (ptrs_of (streams (st w))).
Proof. intros Hw. apply ptrs_of_NoDup. intros k1 k2 p. by apply sound_injective. Qed.

(** [Stop] closes the channel of the stream it finds, once. *)
Lemma logs_Stop_done streamID p x s :
  streams s !! streamID = Some p → heap s !! p = Some x →
  ∃ x', heap (Stop streamID s) !! p = Some x' ∧ done x' = S (done x) ∧
        released x' ∧ stopped x' = true ∧ ID x' = ID x.
Proof.
  intros Hk Hx. unfold Stop. rewrite Hk.
  destruct (teardown_flags p x (set_streams (delete streamID) s) Hx)
    as (x' & Hx' & Hr & Hs & Hd & Hi).
  by exists x'.
Qed.

Lemma teardown_each_other ps p s :
  p ∉ ps → heap (teardown_each ps s) !! p = heap s !! p.
Proof.
  revert s. induction ps as [|a ps IH]; intros s Hin; [done|].
  change (teardown_each (a :: ps) s) with (teardown_each ps (teardown a s)).
  apply not_elem_of_cons in Hin as [Hne Hin].
  rewrite IH by done. rewrite heap_teardown. by apply list_lookup_alter_ne.
Qed.

(** The loop of [StopAll] closes the channel of every stream it was
    given, once. *)
Lemma teardown_each_done ps p x s :
  NoDup ps → p ∈ ps → heap s !! p = Some x →
  ∃ x', heap (teardown_each ps s) !! p = Some x' ∧ done x' = S (done x) ∧
        released x' ∧ stopped x' = true.
Proof.
  revert s. induction ps as [|a ps IH]; intros s Hnd Hin Hx;
    [by apply not_elem_of_nil in Hin|].
  change (teardown_each (a :: ps) s) with (teardown_each ps (teardown a s)).
  apply NoDup_cons in Hnd as [Ha Hnd].
  destruct (decide (a = p)) as [->|Hne].
  - destruct (teardown_flags p x s Hx) as (x' & Hx' & Hr & Hs & Hd & _).
    exists x'. by rewrite teardown_each_other.
  - apply IH; [done|by apply elem_of_cons in Hin as [?|?]|].
    rewrite heap_teardown. by rewrite list_lookup_alter_ne.
Qed.

Lemma logs_StopAll_done k p x s :
  NoDup (ptrs_of (streams s)) → streams s !! k = Some p → heap s !! p = Some x →
  ∃ x', heap (StopAll s) !! p = Some x' ∧ done x' = S (done x) ∧
        released x' ∧ stopped x' = true.
Proof.
  intros Hnd Hk Hx. unfold StopAll.
  apply teardown_each_done; [done| |done]. apply elem_of_ptrs_of. by eexists.
Qed.


(** The step of [Stop] at its [close] closes an open channel. *)
Lemma logs_Stop_close_step e w i p rest :
  sound w → threads w !! i = Some (Stop_close p rest) →
  ∃ x, heap (st w) !! p = Some x ∧ done x = 0 ∧
       thread_step e (Stop_close p rest) (st w)
       = Some (Stop_kill p rest, set_stream p close_done (st w), []) ∧
       heap (set_stream p close_done (st w)) !! p = Some (close_done x) ∧
       done (close_done x) = 1.
Proof.
  intros Hw Hi.
  assert (Hown : p ∈ owned_by (threads w)).
  { unfold owned_by. apply list_elem_of_bind.
    exists (Stop_close p rest). split; [by left|].
    apply list_elem_of_lookup. eauto. }
  destruct (sound_owned w Hw p Hown) as [[k Hk] _].
  unfold tags in Hk. rewrite list_lookup_fmap in Hk.
  destruct (heap (st w) !! p) as [x|] eqn:Hx; [|done].
  simpl in Hk. exists x. assert (Hd : done x = 0) by congruence.
  split_and?; [done..| | |].
  - cbn [thread_step]. rewrite Hx. simpl. by rewrite decide_True.
  - by rewrite heap_set_stream, list_lookup_alter_eq, Hx.
  - simpl. lia.
Qed.

(** The step of a waiter at [cleanupStream] drops the stream registered
    under its identifier and leaves it as it is; that stream is never
    registered again and its channel is never closed. *)
Lemma cleanup_orphans e w i p q x :
  sound w → threads w !! i = Some (waiter_cleanup p) →
  heap (st w) !! p = Some x → streams (st w) !! ID x = Some q →
  ∃ w', step (Run i e) w = Some w' ∧
        streams (st w') = delete (ID x) (streams (st w)) ∧
        heap (st w') = heap (st w) ∧
        events (st w') = events (st w) ∧
        ∀ ls' w'', run ls' w' = Some w'' →
          (∀ k, streams (st w'') !! k ≠ Some q) ∧
          ∃ y, heap (st w'') !! q = Some y ∧ done y = 0.
Proof.
  intros Hs Hi Hx Hq.
  eexists. split.
  { simpl. rewrite Hi. simpl. rewrite Hx. simpl. done. }
  simpl. split_and?; try done.
  intros ls' w'' Hrun'.
  apply (run_orphan q) in Hrun' as (Hun & _ & k & Hk).
  - split; [done|]. unfold tags in Hk. rewrite list_lookup_fmap in Hk.
    destruct (heap (st w'') !! q) as [y|]; [|done].
    exists y. split; [done|]. simpl in Hk. congruence.
  - unfold orphan. split_and?; simpl.
    + intros k Hk. apply lookup_delete_Some in Hk as [Hne Hk].
      apply Hne. by eapply sound_injective.
    + rewrite app_nil_r. intros Hin.
      destruct (owned_by_step (threads w) i _ (ret None) [] Hi eq_refl) as [Hold Hnew].
      rewrite app_nil_r in Hnew. rewrite Hnew in Hin. simpl in Hin.
      assert (q ∈ owned_by (threads w)) as Hown.
      { rewrite Hold. apply elem_of_app. by right. }
      by destruct (sound_owned w Hs q Hown) as [_ Hno]; apply (Hno (ID x)).
    + exists (ID x). by apply (sound_registered w Hs).
Qed.

End LogsMore.

(* ===================================================================== *)
(** ** The properties of the specification *)
(* ===================================================================== *)

(** C1, as amended: when the child of a session has ended, the wait loop
    invokes the exit callback (when one is installed) exactly once, with
    code 0 after a clean wait, the child's own exit code when it exited
    non-zero, -1 when it was killed by a signal, and 1 when waiting itself
    failed; it then removes the entry of the session's identifier and, when
    that entry is this session, tears it down. *)
Theorem C1_waitLoop_exit_code (e : Exec.env) (p : nat) (s : Exec.state)
    (x : Exec.ExecSession) (ps : ProcessState) :
  Exec.heap s !! p = Some x →
  Exec.cmd_Process x = Some (Ended ps) →
  Exec.onExit (Exec.mgr s) = true →
  ∃ s' code,
    Exec.waitLoop e p s = Some s' ∧
    Exec.events s' = Exec.events s ++ [Exec.Exit (Exec.id x) code] ∧
    code = (if Exec.Wait_ok e then
              match ps with Exited c => c | Signaled _ => -1 end
            else 1)%Z ∧
    Exec.sessions (Exec.mgr s') !! Exec.id x = None ∧
    (Exec.sessions (Exec.mgr s) !! Exec.id x = Some p →
     ∃ x', Exec.heap s' !! p = Some x' ∧ Exec.released x' ∧
           Exec.done x' = S (Exec.done x)).
Proof.
  intros Hx Hp Hcb. unfold Exec.waitLoop. rewrite Hx. simpl. rewrite Hp, Hcb.
  do 2 eexists. split; [done|]. rewrite ExecFacts.events_Stop. simpl.
  split; [done|]. split; [|split].
  - unfold cmd_Wait. destruct (Exec.Wait_ok e); [|done].
    destruct ps as [c|sig]; simpl; [|done].
    destruct (Z.eqb_spec c 0); simpl; congruence.
  - rewrite ExecFacts.sessions_Stop. apply lookup_delete_eq.
  - intros Hs.
    destruct (ExecFacts.Stop_released (Exec.id x) p x
                (Exec.emit (Exec.Exit (Exec.id x)
                   (Exec.exit_code (cmd_Wait ps (Exec.Wait_ok e)))) s))
      as (x' & Hx' & Hr & Hd & _); [done..|].
    eauto.
Qed.

Lemma C1_waitLoop_exit_code_witness :
  Exec.heap (exec_ended (Exited 3)) !! 0
  = Some (Exec.child_ends (Exited 3) (Exec.new_session "shell-1" "/bin/sh")) ∧
  Exec.onExit (Exec.mgr (exec_ended (Exited 3))) = true ∧
  ∃ s', Exec.waitLoop exec_env 0 (exec_ended (Exited 3)) = Some s' ∧
        Exec.events s' = [Exec.Exit "shell-1" 3] ∧
        Exec.sessions (Exec.mgr s') !! "shell-1" = None.
Proof.
  split; [reflexivity|]. split; [reflexivity|].
  destruct (C1_waitLoop_exit_code exec_env 0 (exec_ended (Exited 3))
              (Exec.child_ends (Exited 3) (Exec.new_session "shell-1" "/bin/sh"))
              (Exited 3)) as (s' & code & H1 & H2 & H3 & H4 & _);
    [reflexivity..|].
  exists s'. subst code. split; [exact H1|]. split; [exact H2|exact H4].
Defined.

(** C1, as the specification states it, fails: for a child killed by a
    signal the wait loop reports -1, where the specification says 1. *)
Lemma C1_counterexample :
  ¬ (∀ (e : Exec.env) (p : nat) (s s' : Exec.state) (x : Exec.ExecSession)
       (ps : ProcessState),
       Exec.heap s !! p = Some x →
       Exec.cmd_Process x = Some (Ended ps) →
       Exec.onExit (Exec.mgr s) = true →
       Exec.waitLoop e p s = Some s' →
       Exec.events s'
       = Exec.events s
         ++ [Exec.Exit (Exec.id x) (Exec.spec_exit_code ps (Exec.Wait_ok e))]).
Proof.
  intros H.
  specialize (H exec_env 0 (exec_ended (Signaled 15))
                (Exec.Stop "shell-1"
                   (Exec.emit (Exec.Exit "shell-1" (-1)) (exec_ended (Signaled 15))))
                (Exec.child_ends (Signaled 15) (Exec.new_session "shell-1" "/bin/sh"))
                (Signaled 15) eq_refl eq_refl eq_refl eq_refl).
  rewrite ExecFacts.events_Stop in H. simpl in H. discriminate H.
Qed.

(** C5: when the identifier is already registered, every start method
    returns the already-exists error and changes nothing: the state of the
    manager (registry, sessions or streams, callbacks invoked) is the one
    before the call and no goroutine is launched.  For the exec manager
    this is also what the first step of a concurrent [Start] does. *)
Theorem C5_duplicate_start_has_no_effect (sessionID streamID : string)
    (se : Exec.state) (sl : Logs.state) (ee : Exec.env) (el : Logs.env)
    (shell serviceName : string) :
  is_Some (Exec.sessions (Exec.mgr se) !! sessionID) →
  is_Some (Logs.streams sl !! streamID) →
  Exec.Start ee sessionID shell se = (Some (AlreadyExists sessionID), se, []) ∧
  Exec.thread_step ee (Exec.Start_lock sessionID shell) se
  = Some (Exec.Returned (Some (AlreadyExists sessionID)), se, []) ∧
  Logs.StartJournalctlStream el streamID sl = (Some (AlreadyExists streamID), sl, []) ∧
  Logs.StartServiceStream el streamID serviceName sl
  = (Some (AlreadyExists streamID), sl, []) ∧
  Logs.StartAppLogStream streamID sl = (Some (AlreadyExists streamID), sl, []) ∧
  Logs.StartCageLogStream streamID sl = (Some (AlreadyExists streamID), sl, []) ∧
  Logs.StartEarlyLogStream el streamID sl = (Some (AlreadyExists streamID), sl, []).
Proof.
  intros [p Hp] [q Hq].
  unfold Exec.Start, Logs.StartJournalctlStream, Logs.StartServiceStream,
    Logs.StartAppLogStream, Logs.StartCageLogStream, Logs.StartEarlyLogStream,
    Logs.start_command, Logs.start_file.
  simpl. by rewrite Hp, Hq.
Qed.

Lemma C5_duplicate_start_has_no_effect_witness :
  is_Some (Exec.sessions (Exec.mgr (exec_ended (Exited 0))) !! "shell-1") ∧
  is_Some (Logs.streams logs_one !! "logs-1") ∧
  Exec.Start exec_env "shell-1" "/bin/sh" (exec_ended (Exited 0))
  = (Some (AlreadyExists "shell-1"), exec_ended (Exited 0), []) ∧
  Logs.StartJournalctlStream logs_env "logs-1" logs_one
  = (Some (AlreadyExists "logs-1"), logs_one, []).
Proof.
  assert (H1 : is_Some (Exec.sessions (Exec.mgr (exec_ended (Exited 0))) !! "shell-1"))
    by (exists 0; reflexivity).
  assert (H2 : is_Some (Logs.streams logs_one !! "logs-1"))
    by (exists 0; reflexivity).
  split; [exact H1|]. split; [exact H2|].
  destruct (C5_duplicate_start_has_no_effect "shell-1" "logs-1"
              (exec_ended (Exited 0)) logs_one exec_env logs_env "/bin/sh" "" H1 H2)
    as (Ha & _ & Hb & _).
  split; [exact Ha|exact Hb].
Defined.

(** C8: [Stop] of an identifier that is not registered leaves the whole
    state as it is, and two calls of [Stop] in a row leave the manager in
    the state one call leaves it in; for both managers. *)
Theorem C8_Stop_idempotent (sessionID streamID : string)
    (se : Exec.state) (sl : Logs.state) :
  (Exec.sessions (Exec.mgr se) !! sessionID = None → Exec.Stop sessionID se = se) ∧
  Exec.Stop sessionID (Exec.Stop sessionID se) = Exec.Stop sessionID se ∧
  (Logs.streams sl !! streamID = None → Logs.Stop streamID sl = sl) ∧
  Logs.Stop streamID (Logs.Stop streamID sl) = Logs.Stop streamID sl.
Proof.
  split; [apply ExecFacts.exec_Stop_absent|]. split; [apply ExecFacts.exec_Stop_twice|].
  split; [apply LogsFacts.logs_Stop_absent|apply LogsFacts.logs_Stop_twice].
Qed.

Lemma C8_Stop_idempotent_witness :
  Exec.sessions (Exec.mgr (exec_ended (Exited 0))) !! "other" = None ∧
  Logs.streams logs_one !! "other" = None ∧
  Exec.Stop "other" (exec_ended (Exited 0)) = exec_ended (Exited 0) ∧
  Logs.Stop "other" logs_one = logs_one.
Proof.
  split; [reflexivity|]. split; [reflexivity|].
  destruct (C8_Stop_idempotent "other" "other" (exec_ended (Exited 0)) logs_one)
    as (Ha & _ & Hb & _).
  split; [apply Ha; reflexivity|apply Hb; reflexivity].
Defined.

(** C9, as amended: on a free identifier, the name [Start] hands to
    [exec.Command] is the given shell when it is not empty and the client's
    [fileExists] helper accepts it, otherwise /bin/bash when that helper
    accepts it, otherwise /bin/sh.  The shell spawned is that name when it
    holds a path separator (as /bin/bash and /bin/sh do); a name without
    one is looked up in the search path and the shell spawned is the
    program found there.  When the spawn fails, [Start] returns the error
    and registers nothing: there is no fallback from a shell that
    [fileExists] accepts and that cannot be started.  The spawning step
    of a concurrent [Start] does the same. *)
Theorem C9_shell_resolution (e : Exec.env) (sessionID shell : string) (s : Exec.state) :
  Exec.sessions (Exec.mgr s) !! sessionID = None →
  ∃ name,
    name = Exec.resolve_shell e shell ∧
    (shell ≠ "" → Exec.fileExists e shell = true → name = shell) ∧
    (shell = "" ∨ Exec.fileExists e shell = false →
     Exec.fileExists e "/bin/bash" = true → name = "/bin/bash") ∧
    (shell = "" ∨ Exec.fileExists e shell = false →
     Exec.fileExists e "/bin/bash" = false → name = "/bin/sh") ∧
    (is_Some (IndexByte name "/") → name ≠ "/" → Exec.exec_Command e name = name) ∧
    (IndexByte name "/" = None → Exec.LookPath e name ≠ "" →
     Exec.exec_Command e name = Exec.LookPath e name) ∧
    (Exec.pty_Start e = None →
     ∃ s' new p x,
       Exec.Start e sessionID shell s = (None, s', new) ∧
       p = length (Exec.heap s) ∧
       Exec.sessions (Exec.mgr s') !! sessionID = Some p ∧
       Exec.heap s' !! p = Some x ∧
       Exec.cmd_Process x = Some Running ∧
       Exec.cmd_Path x = Exec.exec_Command e name ∧
       Exec.thread_step e (Exec.Start_spawn sessionID shell) s
       = Some (Exec.Start_store sessionID p, Exec.alloc x s, [])) ∧
    (∀ cause, Exec.pty_Start e = Some cause →
       Exec.Start e sessionID shell s = (Some (SpawnFailed cause), s, []) ∧
       Exec.thread_step e (Exec.Start_spawn sessionID shell) s
       = Some (Exec.Returned (Some (SpawnFailed cause)), s, [])).
Proof.
  intros Hs. exists (Exec.resolve_shell e shell). split; [done|].
  assert (Hne : Exec.resolve_shell e shell ≠ "").
  { unfold Exec.resolve_shell. destruct (String.eqb_spec shell "") as [->|Hne]; simpl.
    - by destruct (Exec.fileExists e "/bin/bash").
    - destruct (Exec.fileExists e shell); simpl; [done|].
      by destruct (Exec.fileExists e "/bin/bash"). }
  split_and?.
  - intros Hsh Hex. unfold Exec.resolve_shell. rewrite Hex. simpl.
    destruct (String.eqb_spec shell ""); [done|]. by rewrite orb_false_r.
  - unfold Exec.resolve_shell. intros [->|Hex] Hb; rewrite Hb; [done|].
    rewrite Hex. simpl. by rewrite orb_true_r.
  - unfold Exec.resolve_shell. intros [->|Hex] Hb; rewrite Hb; [done|].
    rewrite Hex. simpl. by rewrite orb_true_r.
  - intros Hsep Hroot. by apply GoLibFacts.Command_Path_separator.
  - intros Hbare Hlp. by apply GoLibFacts.Command_Path_bare.
  - intros He.
    destruct (ExecFacts.Start_fresh e sessionID shell s Hs He) as (s' & H1 & H2 & H3).
    do 4 eexists. split; [exact H1|]. split; [done|].
    split; [exact H2|]. split; [exact H3|].
    split; [done|]. split; [done|]. simpl. by rewrite He.
  - intros cause He. unfold Exec.Start. simpl. by rewrite Hs, He.
Qed.

Lemma C9_shell_resolution_witness :
  Exec.sessions (Exec.mgr (Exec.NewExecManager true true true)) !! "shell-1" = None ∧
  (∃ s' new x,
     Exec.Start exec_env "shell-1" "" (Exec.NewExecManager true true true)
     = (None, s', new) ∧
     Exec.heap s' !! 0 = Some x ∧ Exec.cmd_Path x = "/bin/sh") ∧
  (∃ s' new x,
     Exec.Start exec_env_shells "shell-1" "/usr/bin/zsh"
       (Exec.NewExecManager true true true) = (None, s', new) ∧
     Exec.heap s' !! 0 = Some x ∧ Exec.cmd_Path x = "/bin/bash") ∧
  (∃ s' new x,
     Exec.Start exec_env_shells "shell-1" "/usr/bin/fish"
       (Exec.NewExecManager true true true) = (None, s', new) ∧
     Exec.heap s' !! 0 = Some x ∧ Exec.cmd_Path x = "/usr/bin/fish") ∧
  (∃ s' new x,
     Exec.Start exec_env_shells "shell-1" "sh"
       (Exec.NewExecManager true true true) = (None, s', new) ∧
     Exec.heap s' !! 0 = Some x ∧ Exec.cmd_Path x = "/usr/bin/sh") ∧
  Exec.Start exec_env_no_start "shell-1" "/usr/bin/fish"
    (Exec.NewExecManager true true true)
  = (Some (SpawnFailed OsError), Exec.NewExecManager true true true, []).
Proof.
  split; [reflexivity|]. split_and?.
  - destruct (C9_shell_resolution exec_env "shell-1" ""
                (Exec.NewExecManager true true true) eq_refl)
      as (name & -> & _ & _ & _ & _ & _ & H & _).
    destruct (H eq_refl) as (s' & new & p & x & H1 & -> & _ & H3 & _ & H5 & _).
    exists s', new, x. split; [exact H1|]. split; [exact H3|exact H5].
  - destruct (C9_shell_resolution exec_env_shells "shell-1" "/usr/bin/zsh"
                (Exec.NewExecManager true true true) eq_refl)
      as (name & -> & _ & _ & _ & _ & _ & H & _).
    destruct (H eq_refl) as (s' & new & p & x & H1 & -> & _ & H3 & _ & H5 & _).
    exists s', new, x. split; [exact H1|]. split; [exact H3|exact H5].
  - destruct (C9_shell_resolution exec_env_shells "shell-1" "/usr/bin/fish"
                (Exec.NewExecManager true true true) eq_refl)
      as (name & -> & _ & _ & _ & _ & _ & H & _).
    destruct (H eq_refl) as (s' & new & p & x & H1 & -> & _ & H3 & _ & H5 & _).
    exists s', new, x. split; [exact H1|]. split; [exact H3|exact H5].
  - destruct (C9_shell_resolution exec_env_shells "shell-1" "sh"
                (Exec.NewExecManager true true true) eq_refl)
      as (name & -> & _ & _ & _ & _ & _ & H & _).
    destruct (H eq_refl) as (s' & new & p & x & H1 & -> & _ & H3 & _ & H5 & _).
    exists s', new, x. split; [exact H1|]. split; [exact H3|exact H5].
  - destruct (C9_shell_resolution exec_env_no_start "shell-1" "/usr/bin/fish"
                (Exec.NewExecManager true true true) eq_refl)
      as (name & _ & _ & _ & _ & _ & _ & _ & H).
    exact (proj1 (H OsError eq_refl)).
Defined.

(** C9, as the specification states it, fails, whatever executable and
    available are taken to mean: the client asks for the shell sh, a file
    of that name lies in its working directory and is accepted by
    [fileExists], and the shell spawned is the one of the search path,
    /usr/bin/sh, which is none of the three shells of the specification. *)
Lemma C9_counterexample :
  ¬ ∃ executable : Exec.env → string → bool,
      ∀ (e : Exec.env) (sessionID shell : string) (s s' : Exec.state)
        (new : list Exec.thread) (p : nat) (x : Exec.ExecSession),
        Exec.sessions (Exec.mgr s) !! sessionID = None →
        Exec.Start e sessionID shell s = (None, s', new) →
        Exec.sessions (Exec.mgr s') !! sessionID = Some p →
        Exec.heap s' !! p = Some x →
        Exec.cmd_Path x = Exec.spec_shell (executable e) shell.
Proof.
  intros [executable H].
  specialize (H exec_env_shells "shell-1" "sh" (Exec.NewExecManager true true true)
                _ _ 0 (Exec.new_session "shell-1" "/usr/bin/sh")
                eq_refl eq_refl eq_refl eq_refl).
  unfold Exec.spec_shell in H. simpl in H.
  by destruct (executable exec_env_shells "sh"),
       (executable exec_env_shells "/bin/bash").
Qed.







(** C10: in every run of the log streamer, every line passed to a stream
    callback, by a pipe reader or by a file tailer, is not empty and does
    not end with a newline. *)
Theorem C10_callback_lines_clean (files : gmap string string)
    (ls : list Logs.label) (w : Logs.world) (p : nat) (line : string) :
  Logs.run ls (Logs.mkWorld (Logs.NewLogStreamer files) []) = Some w →
  Logs.Line p line ∈ Logs.events (Logs.st w) →
  line ≠ "" ∧ last_byte line ≠ Some LF.
Proof.
  intros Hrun Hin.
  apply LogsFacts.run_clean in Hrun as [He _]; [|by split].
  rewrite Forall_forall in He. by apply (He _ Hin).
Qed.

(** C2, as amended: for a live file-tail stream (not stopped, its file
    readable), lines appended after the tailer has seeked to the end of the
    file, each written whole with its newline, cause one callback per
    non-empty line, in the order written: at any moment the callbacks made
    are a prefix of the non-empty lines written, and once the tailer has
    taken enough steps they are all of them.  Empty lines are skipped, and
    what the file held at the seek causes no callback. *)
Theorem C2_tail_delivers_appended_lines (e : Logs.env) (p : nat) (path : string)
    (s : Logs.state) (x : Logs.LogStream) (acts : list Logs.tail_action) (k : nat) :
  Logs.file_Read e = None →
  Logs.heap s !! p = Some x →
  Logs.done x = 0 → Logs.stopped x = false → Logs.file x = Some Open →
  Forall no_LF (Logs.lines_written acts) →
  let written := List.filter Logs.nonempty (Logs.lines_written acts) in
  let after k :=
    Logs.solo e (Logs.Step :: (Logs.as_solo path <$> acts) ++ replicate k Logs.Step)
              (Logs.file_Seek p path) s in
  (∃ D, D `prefix_of` written ∧
        Logs.events (after 0).2 = Logs.events s ++ (Logs.Line p <$> D)) ∧
  (4 * length (Logs.lines_written acts) + 3 ≤ k →
   Logs.events (after k).2 = Logs.events s ++ (Logs.Line p <$> written)).
Proof.
  intros He Hx Hd Hs Hf Hw written after.
  destruct (LogsFacts.tail_seek e p path (Logs.events s) x s Hx Hd Hs Hf eq_refl)
    as (pos & Hstep & Hinv).
  destruct (LogsFacts.tail_acts e p path (Logs.events s) He acts [] [] [] _ _ Hinv Hw)
    as (U & pend & Hinv' & Hlen).
  simpl in Hinv', Hlen. simpl in Hstep. simplify_eq.
  split.
  - unfold after. simpl. rewrite app_nil_r.
    destruct Hinv' as (? & ? & D & ? & _ & _ & _ & _ & _ & _ & _ & _ & Hev & HD).
    exists D. split; [|done]. eexists. unfold written. symmetry. exact HD.
  - intros Hk. unfold after. simpl. rewrite LogsFacts.solo_app.
    apply (LogsFacts.tail_drain e p path (Logs.events s) He k _ U pend); [done|].
    left.
    destruct Hinv' as (? & ? & ? & ? & _ & _ & _ & _ & Ht & _).
    destruct (Logs.solo _ _ _ _).1; simpl in Ht; try done; simpl; lia.
Qed.

Lemma C2_tail_delivers_appended_lines_witness :
  Logs.heap logs_tailing !! 0
  = Some (Logs.mkStream "app-1" "" Logs.LogStreamTypeFile None (Some Open) 0 false) ∧
  Forall no_LF ["line1"; ""; "line2"] ∧
  Logs.events
    (Logs.solo logs_env
       (Logs.Step :: (Logs.as_solo "/tmp/strux-backend.log"
                        <$> [Logs.Lines ["line1"; ""]; Logs.Tick; Logs.Lines ["line2"]])
          ++ replicate 15 Logs.Step)
       (Logs.file_Seek 0 "/tmp/strux-backend.log") logs_tailing).2
  = [Logs.Line 0 "line1"; Logs.Line 0 "line2"].
Proof.
  assert (Hw : Forall no_LF ["line1"; ""; "line2"]) by (repeat constructor).
  split; [reflexivity|]. split; [exact Hw|].
  destruct (C2_tail_delivers_appended_lines logs_env 0 "/tmp/strux-backend.log"
              logs_tailing _
              [Logs.Lines ["line1"; ""]; Logs.Tick; Logs.Lines ["line2"]] 15
              eq_refl eq_refl eq_refl eq_refl eq_refl Hw) as [_ H].
  apply H. simpl. lia.
Defined.

(** C2, as the specification states it, fails: an appended empty line
    is a line written after the file was opened, and causes no callback. *)
Lemma C2_counterexample :
  ¬ (∀ (e : Logs.env) (p : nat) (path : string) (s : Logs.state)
       (x : Logs.LogStream) (acts : list Logs.tail_action) (k : nat),
       Logs.file_Read e = None →
       Logs.heap s !! p = Some x →
       Logs.done x = 0 → Logs.stopped x = false → Logs.file x = Some Open →
       Forall no_LF (Logs.lines_written acts) →
       4 * length (Logs.lines_written acts) + 3 ≤ k →
       Logs.events
         (Logs.solo e
            (Logs.Step :: (Logs.as_solo path <$> acts) ++ replicate k Logs.Step)
            (Logs.file_Seek p path) s).2
       = Logs.events s ++ (Logs.Line p <$> Logs.lines_written acts)).
Proof.
  intros H.
  specialize (H logs_env 0 "/tmp/strux-backend.log" logs_tailing _
                [Logs.Lines [""]] 7 eq_refl eq_refl eq_refl eq_refl eq_refl).
  assert (Hw : Forall no_LF (Logs.lines_written [Logs.Lines [""]]))
    by (repeat constructor).
  specialize (H Hw). simpl in H. specialize (H ltac:(lia)).
  vm_compute in H. discriminate H.
Qed.

(** C3, as amended: once [Stop] has returned, the unit is stopped for
    good: its [done] channel is closed (the [stopped] flag of a log stream
    set, the child of an exec session ended and its terminal closed)
    through every later step of any thread.  From then on a worker that
    reaches the cancellation check at the head of its loop (read loop, pipe
    reader, file poll, tailer) or, for a log stream, the [stopped] check
    before a delivery, returns without invoking a callback; a pipe reader,
    file waiter or tailer, wherever it stands and however long it runs,
    invokes the callback only if it had already passed its [stopped] check,
    and then once, with the line it holds.  The exec manager has no check
    after a read or a wait: a read loop that is in [Read] gets an error and
    reports it through the error callback, the read loop ends within three
    steps wherever it stands, with at most one callback, and the wait loop
    reports the exit code through the exit callback. *)
Theorem C3_checks_after_Stop (se : Exec.state) (sl : Logs.state)
    (sessionID streamID : string) (p q : nat)
    (x : Exec.ExecSession) (y : Logs.LogStream) :
  Exec.sessions (Exec.mgr se) !! sessionID = Some p → Exec.heap se !! p = Some x →
  is_Some (Exec.cmd_Process x) → is_Some (Exec.pty x) →
  Logs.streams sl !! streamID = Some q → Logs.heap sl !! q = Some y →
  (∀ ls w w' e,
     Exec.st w = Exec.Stop sessionID se → Exec.run ls w = Some w' →
     let s' := Exec.st w' in
     Exec.halted p (Exec.id x) s' ∧
     Exec.thread_step e (Exec.readLoop_select p) s' = Some (Exec.Returned None, s', []) ∧
     Exec.thread_step e (Exec.readLoop_read p) s'
     = Some (Exec.readLoop_deliver p ("", Some OsError), s', []) ∧
     Exec.thread_step e (Exec.readLoop_deliver p ("", Some OsError)) s'
     = Some (Exec.Returned None,
             if Exec.onError (Exec.mgr s')
             then Exec.emit (Exec.Error (Exec.id x) OsError) s' else s', []) ∧
     (∃ exitCode,
       Exec.thread_step e (Exec.waitLoop_wait p) s'
       = Some (Exec.waitLoop_onExit p exitCode, s', []) ∧
       Exec.thread_step e (Exec.waitLoop_onExit p exitCode) s'
       = Some (Exec.Stop_lock (Exec.id x) [],
               if Exec.onExit (Exec.mgr s')
               then Exec.emit (Exec.Exit (Exec.id x) exitCode) s' else s', [])) ∧
     (∀ t n, Exec.readLoop_of p t = true →
        ∃ s'' evs,
          Exec.run_alone (3 + n) e t s' = (Exec.Returned None, s'', []) ∧
          Exec.mgr s'' = Exec.mgr s' ∧ Exec.heap s'' = Exec.heap s' ∧
          Exec.events s'' = Exec.events s' ++ evs ∧ length evs ≤ 1 ∧
          Forall (λ ev, match ev with
                        | Exec.Output k' _ _ | Exec.Error k' _ => k' = Exec.id x
                        | Exec.Exit _ _ => False
                        end) evs)) ∧
  (∀ ls w w' e,
     Logs.st w = Logs.Stop streamID sl → Logs.run ls w = Some w' →
     let s' := Logs.st w' in
     Logs.halted q s' ∧
     (∀ buf, Logs.thread_step e (Logs.readPipe_select q buf) s'
             = Some (Logs.ret None, s', [])) ∧
     (∀ line buf, Logs.thread_step e (Logs.readPipe_check q line buf) s'
                  = Some (Logs.ret None, s', [])) ∧
     (∀ filePath elapsed, (elapsed < Logs.maxWait)%N →
        Logs.thread_step e (Logs.fileWait_select q filePath elapsed) s'
        = Some (Logs.ret None, s', [])) ∧
     (∀ filePath, Logs.thread_step e (Logs.file_check q filePath) s'
                  = Some (Logs.ret None, s', [])) ∧
     (∀ filePath pos,
        Logs.thread_step e (Logs.tailFile_select q filePath pos) s'
        = Some (Logs.ret None, Logs.set_stream q Logs.close_file s', [])) ∧
     (∀ filePath pos line,
        Logs.thread_step e (Logs.tailFile_check q filePath pos line) s'
        = Some (Logs.ret None, Logs.set_stream q Logs.close_file s', [])) ∧
     (∀ t n, Logs.reader_of q t = true →
        Logs.events (Logs.solo e (replicate (S n) Logs.Step) t s').2
        = Logs.events s' ++ (Logs.Line q <$> Logs.committed t))).
Proof.
  intros Hs Hx Hc Hp Ht Hy. split.
  - intros ls w w' e Hw Hrun s'.
    assert (Hh : Exec.halted p (Exec.id x) s').
    { eapply ExecFacts.run_halted; [done|]. rewrite Hw.
      by eapply ExecFacts.exec_Stop_halted. }
    split; [done|].
    destruct (ExecFacts.halted_workers e p (Exec.id x) s' Hh) as (H1 & H2 & H3 & H4).
    split_and?; [done..|].
    intros t n Hr. exact (ExecMore.halted_readLoop e p (Exec.id x) s' t n Hh Hr).
  - intros ls w w' e Hw Hrun s'.
    assert (Hh : Logs.halted q s').
    { eapply LogsFacts.grows_halted; [by eapply LogsFacts.run_grows|].
      rewrite Hw. by eapply LogsFacts.logs_Stop_halted. }
    split; [done|].
    destruct (LogsFacts.halted_checks e q s' Hh) as (H1 & H2 & H3 & H4 & H5 & H6).
    split_and?; [done..|].
    intros t n Hr. exact (LogsMore.halted_reader_run e q n t s' Hh Hr).
Qed.

Lemma C3_checks_after_Stop_witness :
  Exec.sessions (Exec.mgr exec_one) !! "shell-1" = Some 0 ∧
  Logs.streams logs_one !! "logs-1" = Some 0 ∧
  Exec.thread_step exec_env (Exec.readLoop_select 0) (Exec.Stop "shell-1" exec_one)
  = Some (Exec.Returned None, Exec.Stop "shell-1" exec_one, []) ∧
  Logs.thread_step logs_env (Logs.readPipe_check 0 "late" "") (Logs.Stop "logs-1" logs_one)
  = Some (Logs.ret None, Logs.Stop "logs-1" logs_one, []) ∧
  Logs.events (Logs.solo logs_env_line (replicate 9 Logs.Step)
                 (Logs.readPipe_Scan 0 "") (Logs.Stop "logs-1" logs_one)).2
  = [] ∧
  Logs.events (Logs.solo logs_env_line (replicate 9 Logs.Step)
                 (Logs.readPipe_callback 0 "late" "") (Logs.Stop "logs-1" logs_one)).2
  = [Logs.Line 0 "late"].
Proof.
  split; [reflexivity|]. split; [reflexivity|].
  destruct (C3_checks_after_Stop exec_one logs_one "shell-1" "logs-1" 0 0
              (Exec.new_session "shell-1" "/bin/sh") _
              eq_refl eq_refl (ex_intro _ _ eq_refl) (ex_intro _ _ eq_refl)
              eq_refl eq_refl) as [He Hl].
  destruct (He [] (Exec.mkWorld (Exec.Stop "shell-1" exec_one) []) _ exec_env
              eq_refl eq_refl) as (_ & H1 & _).
  destruct (Hl [] (Logs.mkWorld (Logs.Stop "logs-1" logs_one) []) _ logs_env
              eq_refl eq_refl) as (_ & _ & H2 & _).
  destruct (Hl [] (Logs.mkWorld (Logs.Stop "logs-1" logs_one) []) _ logs_env_line
              eq_refl eq_refl) as (_ & _ & _ & _ & _ & _ & _ & H3).
  split; [apply H1|]. split; [apply H2|]. split.
  - exact (H3 (Logs.readPipe_Scan 0 "") 8 eq_refl).
  - exact (H3 (Logs.readPipe_callback 0 "late" "") 8 eq_refl).
Defined.

(** C3, as the specification states it, fails on both managers.  On the
    exec manager, [Stop] is called while the read loop of the session is
    blocked in [Read] and returns with no callback made so far; afterwards
    the error callback and the exit callback are invoked for the stopped
    identifier.  On the log streamer, [Stop] is called when a pipe reader
    has passed its [stopped] check and returns with no callback made so
    far; afterwards the reader delivers its line. *)
Lemma C3_counterexample :
  (∃ w1 w2,
     Exec.run stop_while_reading (Exec.mkWorld (Exec.NewExecManager true true true) [])
     = Some w1 ∧
     Exec.threads w1 !! 1 = Some (Exec.readLoop_read 0) ∧
     Exec.threads w1 !! 3 = Some (Exec.Returned None) ∧
     Exec.sessions (Exec.mgr (Exec.st w1)) !! "shell-1" = None ∧
     Exec.events (Exec.st w1) = [] ∧
     Exec.run after_the_stop w1 = Some w2 ∧
     Exec.events (Exec.st w2)
     = [Exec.Error "shell-1" OsError; Exec.Exit "shell-1" (-1)]) ∧
  (∃ w1 w2,
     Logs.run stop_after_check (Logs.mkWorld (Logs.NewLogStreamer ∅) []) = Some w1 ∧
     Logs.threads w1 !! 1 = Some (Logs.readPipe_callback 0 "late" "") ∧
     Logs.threads w1 !! 4 = Some (Logs.ret None) ∧
     Logs.streams (Logs.st w1) !! "logs-1" = None ∧
     Logs.events (Logs.st w1) = [] ∧
     Logs.run after_the_check w1 = Some w2 ∧
     Logs.events (Logs.st w2) = [Logs.Line 0 "late"]).
Proof.
  split.
  - do 2 eexists. split; [vm_compute; reflexivity|]. by vm_compute.
  - do 2 eexists. split; [vm_compute; reflexivity|]. by vm_compute.
Qed.

(** C4 on the exec manager: two calls of [Start] with one identifier,
    interleaved so that both test the registry before either registers,
    both return without error; two sessions with that identifier are then
    running, of which the registry holds the second. *)
Theorem C4_concurrent_Start_both_succeed :
  ∃ w x0 x1,
    Exec.run two_starts (Exec.mkWorld (Exec.NewExecManager true true true) []) = Some w ∧
    Exec.threads w !! 0 = Some (Exec.Returned None) ∧
    Exec.threads w !! 1 = Some (Exec.Returned None) ∧
    Exec.sessions (Exec.mgr (Exec.st w)) !! "shell-1" = Some 1 ∧
    Exec.heap (Exec.st w) = [x0; x1] ∧
    Exec.id x0 = "shell-1" ∧ Exec.id x1 = "shell-1" ∧
    Exec.cmd_Process x0 = Some Running ∧ Exec.cmd_Process x1 = Some Running.
Proof. do 3 eexists. split; [vm_compute; reflexivity|]. by vm_compute. Qed.

Lemma C10_callback_lines_clean_witness :
  ∃ w,
    Logs.run tail_one_line
      (Logs.mkWorld
         (Logs.NewLogStreamer
            {["/tmp/strux-backend.log" := String.append "old" (String LF "")]}) [])
    = Some w ∧
    Logs.Line 0 "line1" ∈ Logs.events (Logs.st w) ∧
    "line1" ≠ "" ∧ last_byte "line1" ≠ Some LF.
Proof.
  assert (Hrun : Logs.run tail_one_line
            (Logs.mkWorld
               (Logs.NewLogStreamer
                  {["/tmp/strux-backend.log" := String.append "old" (String LF "")]}) [])
          = tail_one_line_end) by (vm_compute; reflexivity).
  unfold tail_one_line_end in Hrun.
  match type of Hrun with
  | _ = Some ?W =>
      assert (Hin : Logs.Line 0 "line1" ∈ Logs.events (Logs.st W))
        by apply list_elem_of_here;
      exists W; split; [exact Hrun|]; split; [exact Hin|];
      exact (C10_callback_lines_clean _ tail_one_line W 0 "line1" Hrun Hin)
  end.
Defined.

(** C6, as amended: in every run of either manager, the [done] channel
    of a unit is closed at most once (a close of a closed channel, which
    would panic, never happens), a unit whose channel is closed is not in
    the registry, and the only step that closes the channel of a unit is
    the [close] of a [Stop] (or of the loop of [StopAll]) that has removed
    this unit from the registry; that step does close it.  [Stop] of a
    registered identifier, [StopAll], and the wait loop of an exec session
    that is registered under its identifier when its child ends, each run
    to their end, close the channel of the unit exactly once.  The waiter
    of a command stream whose process has ended calls [cleanupStream],
    which drops the stream registered under the identifier without closing
    its channel; the channel of that stream is never closed. *)
Theorem C6_done_closed_at_most_once (out ex er : bool) (files : gmap string string)
    (lse : list Exec.label) (we : Exec.world)
    (lsl : list Logs.label) (wl : Logs.world) :
  Exec.run lse (Exec.mkWorld (Exec.NewExecManager out ex er) []) = Some we →
  Logs.run lsl (Logs.mkWorld (Logs.NewLogStreamer files) []) = Some wl →
  ((∀ p x, Exec.heap (Exec.st we) !! p = Some x →
           Exec.done x ≤ 1 ∧
           (Exec.done x = 1 →
            ∀ sessionID, Exec.sessions (Exec.mgr (Exec.st we)) !! sessionID ≠ Some p)) ∧
   (Exec.Panicked ∉ Exec.threads we) ∧
   (∀ i e t t' s' new p x x',
      Exec.threads we !! i = Some t →
      Exec.thread_step e t (Exec.st we) = Some (t', s', new) →
      Exec.heap (Exec.st we) !! p = Some x → Exec.heap s' !! p = Some x' →
      Exec.done x' ≠ Exec.done x →
      (∃ rest, t = Exec.Stop_close p rest) ∧ Exec.done x = 0 ∧ Exec.done x' = 1 ∧
      ∀ sessionID, Exec.sessions (Exec.mgr (Exec.st we)) !! sessionID ≠ Some p) ∧
   (∀ i e p rest,
      Exec.threads we !! i = Some (Exec.Stop_close p rest) →
      ∃ x s' x',
        Exec.heap (Exec.st we) !! p = Some x ∧ Exec.done x = 0 ∧
        Exec.thread_step e (Exec.Stop_close p rest) (Exec.st we)
        = Some (Exec.Stop_kill p rest, s', []) ∧
        Exec.heap s' !! p = Some x' ∧ Exec.done x' = 1) ∧
   (∀ e n sessionID p,
      Exec.sessions (Exec.mgr (Exec.st we)) !! sessionID = Some p →
      ∃ x s' x',
        Exec.heap (Exec.st we) !! p = Some x ∧ Exec.done x = 0 ∧
        Exec.run_alone (4 + n) e (Exec.Stop_lock sessionID []) (Exec.st we)
        = (Exec.Returned None, s', []) ∧
        s' = Exec.Stop sessionID (Exec.st we) ∧
        Exec.heap s' !! p = Some x' ∧ Exec.done x' = 1 ∧
        ∀ k, Exec.sessions (Exec.mgr s') !! k ≠ Some p) ∧
   (∀ e n, ∃ s',
      Exec.run_alone (4 * size (Exec.sessions (Exec.mgr (Exec.st we))) + 2 + n) e
        Exec.StopAll_lock (Exec.st we)
      = (Exec.Returned None, s', []) ∧
      s' = Exec.StopAll (Exec.st we) ∧
      ∀ sessionID p,
        Exec.sessions (Exec.mgr (Exec.st we)) !! sessionID = Some p →
        ∃ x x', Exec.heap (Exec.st we) !! p = Some x ∧ Exec.done x = 0 ∧
                Exec.heap s' !! p = Some x' ∧ Exec.done x' = 1) ∧
   (∀ e n p x ps,
      Exec.heap (Exec.st we) !! p = Some x →
      Exec.sessions (Exec.mgr (Exec.st we)) !! Exec.id x = Some p →
      Exec.cmd_Process x = Some (Ended ps) →
      Exec.done x = 0 ∧
      ∃ s' x',
        Exec.run_alone (6 + n) e (Exec.waitLoop_wait p) (Exec.st we)
        = (Exec.Returned None, s', []) ∧
        Exec.heap s' !! p = Some x' ∧ Exec.done x' = 1 ∧
        ∀ k, Exec.sessions (Exec.mgr s') !! k ≠ Some p)) ∧
  ((∀ p x, Logs.heap (Logs.st wl) !! p = Some x →
           Logs.done x ≤ 1 ∧
           (Logs.done x = 1 →
            ∀ streamID, Logs.streams (Logs.st wl) !! streamID ≠ Some p)) ∧
   (Logs.Panicked ∉ Logs.threads wl) ∧
   (∀ i e t t' s' new p x x',
      Logs.threads wl !! i = Some t →
      Logs.thread_step e t (Logs.st wl) = Some (t', s', new) →
      Logs.heap (Logs.st wl) !! p = Some x → Logs.heap s' !! p = Some x' →
      Logs.done x' ≠ Logs.done x →
      (∃ rest, t = Logs.Stop_close p rest) ∧ Logs.done x = 0 ∧ Logs.done x' = 1 ∧
      ∀ streamID, Logs.streams (Logs.st wl) !! streamID ≠ Some p) ∧
   (∀ i e p rest,
      Logs.threads wl !! i = Some (Logs.Stop_close p rest) →
      ∃ x s' x',
        Logs.heap (Logs.st wl) !! p = Some x ∧ Logs.done x = 0 ∧
        Logs.thread_step e (Logs.Stop_close p rest) (Logs.st wl)
        = Some (Logs.Stop_kill p rest, s', []) ∧
        Logs.heap s' !! p = Some x' ∧ Logs.done x' = 1) ∧
   (∀ e n streamID p,
      Logs.streams (Logs.st wl) !! streamID = Some p →
      ∃ x s' x',
        Logs.heap (Logs.st wl) !! p = Some x ∧ Logs.done x = 0 ∧
        Logs.solo e (replicate (5 + n) Logs.Step) (Logs.Stop_lock streamID) (Logs.st wl)
        = (Logs.ret None, s') ∧
        s' = Logs.Stop streamID (Logs.st wl) ∧
        Logs.heap s' !! p = Some x' ∧ Logs.done x' = 1 ∧
        ∀ k, Logs.streams s' !! k ≠ Some p) ∧
   (∀ e n, ∃ s',
      Logs.solo e (replicate (S (4 * size (Logs.streams (Logs.st wl)) + n)) Logs.Step)
        Logs.StopAll_lock (Logs.st wl)
      = (Logs.ret None, s') ∧
      s' = Logs.StopAll (Logs.st wl) ∧
      ∀ streamID p,
        Logs.streams (Logs.st wl) !! streamID = Some p →
        ∃ x x', Logs.heap (Logs.st wl) !! p = Some x ∧ Logs.done x = 0 ∧
                Logs.heap s' !! p = Some x' ∧ Logs.done x' = 1) ∧
   (∀ i e p q x,
      Logs.threads wl !! i = Some (Logs.waiter_cleanup p) →
      Logs.heap (Logs.st wl) !! p = Some x →
      Logs.streams (Logs.st wl) !! Logs.ID x = Some q →
      ∃ w', Logs.step (Logs.Run i e) wl = Some w' ∧
            Logs.streams (Logs.st w') = delete (Logs.ID x) (Logs.streams (Logs.st wl)) ∧
            Logs.heap (Logs.st w') = Logs.heap (Logs.st wl) ∧
            ∀ ls' w'', Logs.run ls' w' = Some w'' →
              (∀ k, Logs.streams (Logs.st w'') !! k ≠ Some q) ∧
              ∃ y, Logs.heap (Logs.st w'') !! q = Some y ∧ Logs.done y = 0)).
Proof.
  intros Hre Hrl. split.
  - assert (Hw : Exec.sound we).
    { eapply ExecFacts.exec_run_sound; [done|]. apply ExecFacts.exec_sound_init. }
    pose proof (ExecMore.sound_tidy we Hw) as Ht.
    split_and?; [| by apply (Exec.sound_no_panic we) | | | | |].
    + intros p x Hx. apply ExecFacts.tags_session in Hx. split.
      * by eapply (Exec.sound_closed_once we Hw).
      * intros Hd k Hk. destruct (Exec.sound_registered we Hw _ _ Hk) as [k' Hk'].
        congruence.
    + intros i e t t' s' new p x x' Hi Hstep Hx Hx' Hne.
      destruct (ExecFacts.exec_closer _ _ _ _ _ _ _ _ _ Hstep Hx Hx' Hne) as [rest ->].
      split; [by eexists|].
      assert (Hown : p ∈ Exec.owned_by (Exec.threads we)).
      { unfold Exec.owned_by. apply list_elem_of_bind.
        exists (Exec.Stop_close p rest). split; [by left|].
        apply list_elem_of_lookup. eauto. }
      destruct (Exec.sound_owned we Hw p Hown) as [[k Hk] Hun].
      pose proof (ExecFacts.tags_session _ _ _ Hx) as Htag.
      assert (Exec.done x = 0) as Hz by congruence.
      split; [done|]. split; [|done].
      simpl in Hstep. rewrite Hx in Hstep. simpl in Hstep. simplify_eq.
      rewrite ExecFacts.heap_set_session, list_lookup_alter_eq, Hx in Hx'.
      simplify_eq/=. lia.
    + intros i e p rest Hi.
      destruct (ExecMore.Stop_close_step e we i p rest Hw Hi)
        as (x & Hx & Hd & Hstep & Hx' & Hd').
      by exists x, (Exec.set_session p Exec.close_done (Exec.st we)), (Exec.close_done x).
    + intros e n k p Hk.
      destruct (ExecMore.Stop_done k p (Exec.st we) Ht Hk)
        as (x & x' & Hx & Hd & Hx' & Hd' & _ & _ & Hno).
      exists x, (Exec.Stop k (Exec.st we)), x'.
      split_and?; try done. by apply ExecFacts.Stop_alone.
    + intros e n. exists (Exec.StopAll (Exec.st we)).
      split; [by apply ExecFacts.StopAll_alone|]. split; [done|].
      intros k p Hk.
      destruct (proj1 Ht k p Hk) as (x & Hx & Hd).
      destruct (ExecMore.StopAll_done k p (Exec.st we) Ht Hk) as (x' & Hx' & Hd' & _).
      by exists x, x'.
    + intros e n p x ps Hx Hk Hp.
      destruct (proj1 Ht _ _ Hk) as (x0 & Hx0 & Hd). simplify_eq.
      split; [done|].
      set (s1 := if Exec.onExit (Exec.mgr (Exec.st we))
                 then Exec.emit (Exec.Exit (Exec.id x)
                        (Exec.exit_code (cmd_Wait ps (Exec.Wait_ok e)))) (Exec.st we)
                 else Exec.st we).
      assert (Hw1 : Exec.waitLoop e p (Exec.st we) = Some (Exec.Stop (Exec.id x) s1)).
      { unfold Exec.waitLoop. rewrite Hx. simpl. by rewrite Hp. }
      assert (Ht1 : Exec.tidy s1).
      { unfold s1. by destruct (Exec.onExit _). }
      assert (Hk1 : Exec.sessions (Exec.mgr s1) !! Exec.id x = Some p).
      { unfold s1. by destruct (Exec.onExit _). }
      destruct (ExecMore.Stop_done (Exec.id x) p s1 Ht1 Hk1)
        as (y & x' & _ & _ & Hx' & Hd' & _ & _ & Hno).
      exists (Exec.Stop (Exec.id x) s1), x'. split_and?; [|done..].
      by apply (ExecFacts.waitLoop_alone e p x).
  - assert (Hw : Logs.sound wl).
    { eapply LogsFacts.run_sound; [done|]. apply LogsFacts.sound_init. }
    split_and?; [| by apply (Logs.sound_no_panic wl) | | | | |].
    + intros p x Hx. apply LogsFacts.tags_lookup in Hx. split.
      * by eapply (Logs.sound_closed_once wl Hw).
      * intros Hd k Hk. apply (Logs.sound_registered wl Hw) in Hk. congruence.
    + intros i e t t' s' new p x x' Hi Hstep Hx Hx' Hne.
      destruct (LogsFacts.logs_closer _ _ _ _ _ _ _ _ _ Hstep Hx Hx' Hne) as [rest ->].
      split; [by eexists|].
      assert (Hown : p ∈ Logs.owned_by (Logs.threads wl)).
      { unfold Logs.owned_by. apply list_elem_of_bind.
        exists (Logs.Stop_close p rest). split; [by left|].
        apply list_elem_of_lookup. eauto. }
      destruct (Logs.sound_owned wl Hw p Hown) as [[k Hk] Hun].
      pose proof (LogsFacts.tags_lookup _ _ _ Hx) as Htag.
      assert (Logs.done x = 0) as Hz by congruence.
      split; [done|]. split; [|done].
      simpl in Hstep. rewrite Hx in Hstep. simpl in Hstep. simplify_eq.
      rewrite LogsFacts.heap_set_stream, list_lookup_alter_eq, Hx in Hx'.
      simplify_eq/=. lia.
    + intros i e p rest Hi.
      destruct (LogsMore.logs_Stop_close_step e wl i p rest Hw Hi)
        as (x & Hx & Hd & Hstep & Hx' & Hd').
      by exists x, (Logs.set_stream p Logs.close_done (Logs.st wl)), (Logs.close_done x).
    + intros e n k p Hk.
      destruct (LogsMore.sound_open wl k p Hw Hk) as (x & Hx & Hd & _).
      destruct (LogsMore.logs_Stop_done k p x (Logs.st wl) Hk Hx)
        as (x' & Hx' & Hd' & _).
      exists x, (Logs.Stop k (Logs.st wl)), x'.
      split_and?; [done..| |done|done|lia|].
      * apply LogsFacts.logs_Stop_alone. intros p' Hp'.
        destruct (LogsMore.sound_open wl k p' Hw Hp') as (y & Hy & Hdy & _). eauto.
      * intros k'. rewrite LogsFacts.streams_Stop.
        intros [Hne Hk']%lookup_delete_Some. apply Hne.
        by apply (LogsFacts.sound_injective wl _ _ p).
    + intros e n. exists (Logs.StopAll (Logs.st wl)).
      split; [|split; [done|]].
      * apply LogsFacts.logs_StopAll_alone; [by apply LogsMore.sound_NoDup|].
        intros k p Hk.
        destruct (LogsMore.sound_open wl k p Hw Hk) as (y & Hy & Hdy & _). eauto.
      * intros k p Hk.
        destruct (LogsMore.sound_open wl k p Hw Hk) as (x & Hx & Hd & _).
        destruct (LogsMore.logs_StopAll_done k p x (Logs.st wl)
                    (LogsMore.sound_NoDup wl Hw) Hk Hx) as (x' & Hx' & Hd' & _).
        exists x, x'. split_and?; [done..|lia].
    + intros i e p q x Hi Hx Hq.
      destruct (LogsMore.cleanup_orphans e wl i p q x Hw Hi Hx Hq)
        as (w' & H1 & H2 & H3 & _ & H5).
      by exists w'.
Qed.

Lemma C6_done_closed_at_most_once_witness :
  (∃ we wl x y,
     Exec.run exec_start_stop (Exec.mkWorld (Exec.NewExecManager true true true) [])
     = Some we ∧
     Logs.run logs_start_stop (Logs.mkWorld (Logs.NewLogStreamer ∅) []) = Some wl ∧
     Exec.heap (Exec.st we) !! 0 = Some x ∧ Exec.done x = 1 ∧
     Logs.heap (Logs.st wl) !! 0 = Some y ∧ Logs.done y = 1 ∧
     Exec.sessions (Exec.mgr (Exec.st we)) !! "shell-1" ≠ Some 0 ∧
     Logs.streams (Logs.st wl) !! "logs-1" ≠ Some 0) ∧
  (∃ we wl,
     Exec.run exec_two (Exec.mkWorld (Exec.NewExecManager true true true) []) = Some we ∧
     Logs.run before_cleanup (Logs.mkWorld (Logs.NewLogStreamer ∅) []) = Some wl ∧
     (∃ x s' x',
        Exec.heap (Exec.st we) !! 1 = Some x ∧ Exec.done x = 0 ∧
        Exec.run_alone 4 exec_env (Exec.Stop_lock "shell-2" []) (Exec.st we)
        = (Exec.Returned None, s', []) ∧
        Exec.heap s' !! 1 = Some x' ∧ Exec.done x' = 1) ∧
     (∃ w' y,
        Logs.step (Logs.Run 3 logs_env) wl = Some w' ∧
        Logs.streams (Logs.st w') = delete "logs-1" (Logs.streams (Logs.st wl)) ∧
        Logs.heap (Logs.st w') !! 0 = Some y ∧ Logs.done y = 0)).
Proof.
  assert (Hre : Exec.run exec_start_stop
                  (Exec.mkWorld (Exec.NewExecManager true true true) [])
                = exec_start_stop_end) by (vm_compute; reflexivity).
  assert (Hrl : Logs.run logs_start_stop (Logs.mkWorld (Logs.NewLogStreamer ∅) [])
                = logs_start_stop_end) by (vm_compute; reflexivity).
  assert (Hre2 : Exec.run exec_two (Exec.mkWorld (Exec.NewExecManager true true true) [])
                 = exec_two_end) by (vm_compute; reflexivity).
  assert (Hrl2 : Logs.run before_cleanup (Logs.mkWorld (Logs.NewLogStreamer ∅) [])
                 = before_cleanup_end) by (vm_compute; reflexivity).
  unfold exec_start_stop_end in Hre. unfold logs_start_stop_end in Hrl.
  unfold exec_two_end in Hre2. unfold before_cleanup_end in Hrl2.
  split.
  - match type of Hre with
    | _ = Some ?We =>
        match type of Hrl with
        | _ = Some ?Wl =>
            destruct (C6_done_closed_at_most_once true true true ∅ _ We _ Wl Hre Hrl)
              as [(He & _) (Hl & _)];
            exists We, Wl
        end
    end.
    do 2 eexists. split; [exact Hre|]. split; [exact Hrl|].
    split; [reflexivity|]. split; [reflexivity|].
    split; [reflexivity|]. split; [reflexivity|].
    split.
    + eapply He; reflexivity.
    + eapply Hl; reflexivity.
  - match type of Hre2 with
    | _ = Some ?We =>
        match type of Hrl2 with
        | _ = Some ?Wl =>
            destruct (C6_done_closed_at_most_once true true true ∅ _ We _ Wl Hre2 Hrl2)
              as [(_ & _ & _ & _ & He & _) (_ & _ & _ & _ & _ & _ & Hl)];
            exists We, Wl
        end
    end.
    split; [exact Hre2|]. split; [exact Hrl2|]. split.
    + destruct (He exec_env 0 "shell-2" 1 eq_refl)
        as (x & s' & x' & H1 & H2 & H3 & _ & H5 & H6 & _).
      exists x, s', x'.
      split; [exact H1|]. split; [exact H2|]. split; [exact H3|].
      split; [exact H5|exact H6].
    + destruct (Hl 3 logs_env 0 0
                  (Logs.mkStream "logs-1" "" Logs.LogStreamTypeCommand
                     (Some (Logs.mkCmd Logs.journalctl_all (Some (Ended (Exited 0)))))
                     None 0 false) eq_refl eq_refl eq_refl)
        as (w' & H1 & H2 & H3 & H4).
      destruct (H4 [] w' eq_refl) as (_ & y & Hy & Hd).
      exists w', y. split; [exact H1|]. split; [exact H2|]. split; [exact Hy|exact Hd].
Defined.

(** C6, as the specification states it, fails: a follower command ends
    on its own and the waiter removes the stream from the registry.  All
    the threads of the stream have returned and its channel has never been
    closed; it never will be, whatever happens next. *)
Lemma C6_counterexample :
  ∃ w x,
    Logs.run natural_exit (Logs.mkWorld (Logs.NewLogStreamer ∅) []) = Some w ∧
    Logs.streams (Logs.st w) = ∅ ∧
    Logs.threads w = [Logs.ret None; Logs.ret None; Logs.ret None; Logs.ret None] ∧
    Logs.heap (Logs.st w) !! 0 = Some x ∧ Logs.done x = 0 ∧
    ∀ ls w', Logs.run ls w = Some w' →
             ∃ x', Logs.heap (Logs.st w') !! 0 = Some x' ∧ Logs.done x' = 0.
Proof.
  do 2 eexists. split; [vm_compute; reflexivity|].
  split; [done|]. split; [done|]. split; [done|]. split; [done|].
  intros ls w' Hrun.
  apply (LogsFacts.run_orphan 0) in Hrun as (_ & _ & k & Hk).
  - unfold Logs.tags in Hk. rewrite list_lookup_fmap in Hk.
    destruct (Logs.heap (Logs.st w') !! 0) as [x'|]; [|done].
    exists x'. split; [done|]. simpl in Hk. congruence.
  - split; [by intros k|]. split; [|by exists "logs-1"].
    apply not_elem_of_nil.
Qed.


(* ===================================================================== *)
(** ** Further properties of the code *)
(* ===================================================================== *)

(** X1: in every schedule of the exec manager, every callback made was
    installed and carries the identifier of a session the manager has
    started; output is tagged [stdout] and is never empty. *)
Theorem exec_callbacks_well_formed (out ex er : bool) (ls : list Exec.label)
    (w : Exec.world) (ev : Exec.event) :
  Exec.run ls (Exec.mkWorld (Exec.NewExecManager out ex er) []) = Some w →
  ev ∈ Exec.events (Exec.st w) →
  (∃ p x, Exec.heap (Exec.st w) !! p = Some x ∧
          match ev with
          | Exec.Output k stream data =>
              Exec.id x = k ∧ out = true ∧ stream = "stdout" ∧ data ≠ ""
          | Exec.Exit k _ => Exec.id x = k ∧ ex = true
          | Exec.Error k _ => Exec.id x = k ∧ er = true
          end).
Proof.
  intros Hrun Hin.
  pose proof (ExecMore.exec_run_well_formed _ _ _ Hrun (Forall_nil_2 _)) as Hw.
  destruct (ExecMore.exec_run_flags _ _ _ Hrun) as (Ho & Hx & He). simpl in *.
  rewrite Forall_forall in Hw. specialize (Hw ev Hin).
  destruct ev; simpl in Hw; destruct_and?;
    match goal with H : _ ∈ _ |- _ => apply ExecMore.elem_of_ids in H as (p & x & ? & ?) end;
    exists p, x; split_and?; congruence.
Qed.

Lemma exec_callbacks_well_formed_witness :
  ∃ w, Exec.run read_once (Exec.mkWorld (Exec.NewExecManager true true true) []) = Some w ∧
       Exec.Output "shell-1" "stdout" "ls" ∈ Exec.events (Exec.st w) ∧
       ∃ p x, Exec.heap (Exec.st w) !! p = Some x ∧ Exec.id x = "shell-1".
Proof.
  assert (Hrun : Exec.run read_once (Exec.mkWorld (Exec.NewExecManager true true true) [])
                 = read_once_end) by (vm_compute; reflexivity).
  unfold read_once_end in Hrun.
  match type of Hrun with
  | _ = Some ?W =>
      assert (Hin : Exec.Output "shell-1" "stdout" "ls" ∈ Exec.events (Exec.st W))
        by apply list_elem_of_here;
      exists W; split; [exact Hrun|]; split; [exact Hin|];
      destruct (exec_callbacks_well_formed true true true read_once W _ Hrun Hin)
        as (p & x & Hx & Hid & _);
      exists p, x; split; [exact Hx|exact Hid]
  end.
Defined.

(** X2: in every schedule of the exec manager, for every identifier [k]
    the exit callback has been invoked with [k] at most as many times as
    sessions have been started under [k], and so has the error callback: at
    most one exit report and one error report per session. *)
Theorem exec_callbacks_at_most_once (out ex er : bool) (ls : list Exec.label)
    (w : Exec.world) (c : Exec.callback) (k : string) :
  Exec.run ls (Exec.mkWorld (Exec.NewExecManager out ex er) []) = Some w →
  Exec.times k (Exec.reports c (Exec.events (Exec.st w)))
  ≤ Exec.times k (Exec.id <$> Exec.heap (Exec.st w)).
Proof.
  intros Hrun. apply ExecMore.times_submseteq.
  destruct (ExecMore.exec_run_accounted c _ _ _ Hrun (ExecMore.accounted_init c out ex er))
    as [Hs _].
  etransitivity; [|exact Hs]. by apply submseteq_inserts_r.
Qed.

Lemma exec_callbacks_at_most_once_witness :
  ∃ w, Exec.run (stop_while_reading ++ after_the_stop)
         (Exec.mkWorld (Exec.NewExecManager true true true) []) = Some w ∧
       Exec.reports Exec.exit_callback (Exec.events (Exec.st w)) = ["shell-1"] ∧
       Exec.times "shell-1" (Exec.reports Exec.exit_callback (Exec.events (Exec.st w)))
       ≤ Exec.times "shell-1" (Exec.id <$> Exec.heap (Exec.st w)).
Proof.
  assert (Hrun : Exec.run (stop_while_reading ++ after_the_stop)
                   (Exec.mkWorld (Exec.NewExecManager true true true) [])
                 = stop_while_reading_end) by (vm_compute; reflexivity).
  unfold stop_while_reading_end in Hrun.
  match type of Hrun with
  | _ = Some ?W =>
      exists W; split; [exact Hrun|]; split; [reflexivity|];
      exact (exec_callbacks_at_most_once true true true _ W Exec.exit_callback
               "shell-1" Hrun)
  end.
Defined.

(** X3: in every schedule of the exec manager, an identifier in the
    registry maps to a session that carries this identifier and whose
    [done] channel is open, and no session is registered under two
    identifiers. *)
Theorem exec_registry_consistent (out ex er : bool) (ls : list Exec.label)
    (w : Exec.world) (k : string) (p : nat) :
  Exec.run ls (Exec.mkWorld (Exec.NewExecManager out ex er) []) = Some w →
  Exec.sessions (Exec.mgr (Exec.st w)) !! k = Some p →
  (∃ x, Exec.heap (Exec.st w) !! p = Some x ∧ Exec.id x = k ∧ Exec.done x = 0) ∧
  (∀ k', Exec.sessions (Exec.mgr (Exec.st w)) !! k' = Some p → k' = k).
Proof.
  intros Hrun Hk.
  pose proof (ExecFacts.exec_run_sound _ _ _ Hrun (ExecFacts.exec_sound_init out ex er))
    as Hs.
  destruct (ExecMore.exec_run_named _ _ _ Hrun (ExecMore.named_init out ex er))
    as [Hn _].
  split.
  - specialize (Hn k p Hk). destruct (Exec.heap (Exec.st w) !! p) as [x|] eqn:Hx; [|done].
    simpl in Hn. exists x. split; [done|]. split; [congruence|].
    destruct (Exec.sound_registered w Hs k p Hk) as [k0 Hk0].
    rewrite (ExecFacts.tags_session _ _ _ Hx) in Hk0. congruence.
  - intros k' Hk'. by eapply (Exec.sound_injective w Hs).
Qed.

Lemma exec_registry_consistent_witness :
  ∃ w x, Exec.run exec_two (Exec.mkWorld (Exec.NewExecManager true true true) []) = Some w ∧
         Exec.sessions (Exec.mgr (Exec.st w)) !! "shell-2" = Some 1 ∧
         Exec.heap (Exec.st w) !! 1 = Some x ∧ Exec.id x = "shell-2" ∧ Exec.done x = 0.
Proof.
  assert (Hrun : Exec.run exec_two (Exec.mkWorld (Exec.NewExecManager true true true) [])
                 = exec_two_end) by (vm_compute; reflexivity).
  unfold exec_two_end in Hrun.
  match type of Hrun with
  | _ = Some ?W =>
      assert (Hk : Exec.sessions (Exec.mgr (Exec.st W)) !! "shell-2" = Some 1)
        by reflexivity;
      destruct (exec_registry_consistent true true true exec_two W "shell-2" 1 Hrun Hk)
        as [(x & Hx & Hid & Hd) _];
      exists W, x; split; [exact Hrun|]; split; [exact Hk|];
      split; [exact Hx|]; split; [exact Hid|exact Hd]
  end.
Defined.

(** X4: the wait loop stops whichever session is registered under its
    session's identifier.  When the session has been stopped and a newer
    session [q] has been started under the same identifier, the wait loop
    of the old session, after reporting the exit, removes and tears down
    the newer one: its channel is closed, its child killed, its terminal
    closed; the old session is left as it was. *)
Theorem waitLoop_stops_whoever_is_registered (e : Exec.env) (p q : nat)
    (s : Exec.state) (x y : Exec.ExecSession) (ps : ProcessState) :
  Exec.heap s !! p = Some x → Exec.cmd_Process x = Some (Ended ps) →
  Exec.sessions (Exec.mgr s) !! Exec.id x = Some q → q ≠ p →
  Exec.heap s !! q = Some y →
  ∃ s', Exec.waitLoop e p s = Some s' ∧
        Exec.sessions (Exec.mgr s') !! Exec.id x = None ∧
        Exec.heap s' !! p = Some x ∧
        Exec.heap s' !! q = Some (Exec.close_pty (Exec.kill (Exec.close_done y))) ∧
        (Exec.cmd_Process y = Some Running → Exec.pty y = Some Open →
         Exec.heap s' !! q
         = Some (Exec.mkSession (Exec.id y) (Exec.cmd_Path y)
                   (Some (Ended (Signaled SIGKILL))) (Some Closed) (S (Exec.done y)))).
Proof.
  intros Hx Hp Hq Hne Hy. unfold Exec.waitLoop. rewrite Hx. simpl. rewrite Hp.
  eexists. split; [done|].
  set (s1 := if Exec.onExit (Exec.mgr s) then _ else s).
  assert (Hq1 : Exec.sessions (Exec.mgr s1) !! Exec.id x = Some q)
    by (unfold s1; by case_match).
  assert (Hh1 : Exec.heap s1 = Exec.heap s) by (unfold s1; by case_match).
  rewrite ExecFacts.sessions_Stop, lookup_delete_eq.
  rewrite (ExecFacts.heap_Stop _ _ _ Hq1), Hh1.
  rewrite list_lookup_alter_ne by done. rewrite list_lookup_alter_eq, Hy. simpl.
  split_and?; try done.
  intros Hr Ho. f_equal. unfold Exec.close_pty, Exec.kill. simpl. rewrite Hr. simpl.
  by rewrite Ho.
Qed.

Lemma waitLoop_stops_whoever_is_registered_witness :
  Exec.sessions (Exec.mgr exec_restarted) !! "shell-1" = Some 1 ∧
  ∃ s', Exec.waitLoop exec_env 0 exec_restarted = Some s' ∧
        Exec.sessions (Exec.mgr s') !! "shell-1" = None ∧
        Exec.heap s' !! 1
        = Some (Exec.mkSession "shell-1" "/bin/sh" (Some (Ended (Signaled SIGKILL)))
                  (Some Closed) 1).
Proof.
  split; [reflexivity|].
  destruct (waitLoop_stops_whoever_is_registered exec_env 0 1 exec_restarted
              (Exec.mkSession "shell-1" "/bin/sh" (Some (Ended (Signaled SIGKILL)))
                 (Some Closed) 1)
              (Exec.new_session "shell-1" "/bin/sh") (Signaled SIGKILL)
              eq_refl eq_refl eq_refl ltac:(discriminate) eq_refl)
    as (s' & H1 & H2 & _ & _ & H5).
  exists s'. split; [exact H1|]. split; [exact H2|]. apply H5; reflexivity.
Defined.

(** X5: in every schedule of the exec manager, stopping one identifier
    leaves every other registered session as it is: it stays registered,
    its session is untouched, and no callback is invoked. *)
Theorem exec_Stop_leaves_others (out ex er : bool) (ls : list Exec.label)
    (w : Exec.world) (k k' : string) (q : nat) :
  Exec.run ls (Exec.mkWorld (Exec.NewExecManager out ex er) []) = Some w →
  k' ≠ k → Exec.sessions (Exec.mgr (Exec.st w)) !! k' = Some q →
  Exec.sessions (Exec.mgr (Exec.Stop k (Exec.st w))) !! k' = Some q ∧
  Exec.heap (Exec.Stop k (Exec.st w)) !! q = Exec.heap (Exec.st w) !! q ∧
  Exec.events (Exec.Stop k (Exec.st w)) = Exec.events (Exec.st w).
Proof.
  intros Hrun Hne Hq.
  pose proof (ExecFacts.exec_run_sound _ _ _ Hrun (ExecFacts.exec_sound_init out ex er))
    as Hs.
  split_and?.
  - rewrite ExecFacts.sessions_Stop. by rewrite lookup_delete_ne.
  - destruct (Exec.sessions (Exec.mgr (Exec.st w)) !! k) as [p|] eqn:Hp.
    + rewrite (ExecFacts.heap_Stop _ _ _ Hp). apply list_lookup_alter_ne.
      intros ->. apply Hne. by eapply (Exec.sound_injective w Hs).
    + by rewrite ExecFacts.exec_Stop_absent.
  - apply ExecFacts.events_Stop.
Qed.

Lemma exec_Stop_leaves_others_witness :
  ∃ w, Exec.run exec_two (Exec.mkWorld (Exec.NewExecManager true true true) []) = Some w ∧
       Exec.sessions (Exec.mgr (Exec.st w)) !! "shell-2" = Some 1 ∧
       Exec.sessions (Exec.mgr (Exec.Stop "shell-1" (Exec.st w))) !! "shell-2" = Some 1 ∧
       Exec.heap (Exec.Stop "shell-1" (Exec.st w)) !! 1
       = Some (Exec.new_session "shell-2" "/bin/sh").
Proof.
  assert (Hrun : Exec.run exec_two (Exec.mkWorld (Exec.NewExecManager true true true) [])
                 = exec_two_end) by (vm_compute; reflexivity).
  unfold exec_two_end in Hrun.
  match type of Hrun with
  | _ = Some ?W =>
      assert (Hk : Exec.sessions (Exec.mgr (Exec.st W)) !! "shell-2" = Some 1)
        by reflexivity;
      destruct (exec_Stop_leaves_others true true true exec_two W "shell-1" "shell-2" 1
                  Hrun ltac:(discriminate) Hk) as (H1 & H2 & _);
      exists W; split; [exact Hrun|]; split; [exact Hk|]; split; [exact H1|];
      rewrite H2; reflexivity
  end.
Defined.

(** X6: a session is started under a free identifier and then stopped,
    each call running to its return.  The registry is as it was before,
    no callback has been made, the sessions allocated before are
    untouched, and the new session is left with its channel closed, its
    child killed and its terminal closed.  The two workers [Start] has
    launched then end: the read loop without a callback when it finds the
    closed channel at the head of its loop, with the error callback when it
    was already in [Read]; the wait loop with the exit callback, with code
    -1 when waiting works, and its own [Stop] finds nothing to do. *)
Theorem exec_Start_Stop_round_trip (e e' : Exec.env) (k shell : string)
    (s : Exec.state) (n : nat) :
  Exec.sessions (Exec.mgr s) !! k = None → Exec.pty_Start e = None →
  ∃ s1 s2 p code,
    p = length (Exec.heap s) ∧
    Exec.run_alone (4 + n) e (Exec.Start_lock k shell) s
    = (Exec.Returned None, s1, [Exec.readLoop_select p; Exec.waitLoop_wait p]) ∧
    Exec.run_alone (4 + n) e' (Exec.Stop_lock k []) s1 = (Exec.Returned None, s2, []) ∧
    Exec.sessions (Exec.mgr s2) = Exec.sessions (Exec.mgr s) ∧
    Exec.events s2 = Exec.events s ∧
    Exec.heap s2
    = Exec.heap s ++ [Exec.mkSession k (Exec.exec_Command e (Exec.resolve_shell e shell))
                        (Some (Ended (Signaled SIGKILL))) (Some Closed) 1] ∧
    code = Exec.exit_code (cmd_Wait (Signaled SIGKILL) (Exec.Wait_ok e')) ∧
    (Exec.Wait_ok e' = true → code = (-1)%Z) ∧
    Exec.run_alone (1 + n) e' (Exec.readLoop_select p) s2 = (Exec.Returned None, s2, []) ∧
    Exec.run_alone (2 + n) e' (Exec.readLoop_read p) s2
    = (Exec.Returned None,
       if Exec.onError (Exec.mgr s) then Exec.emit (Exec.Error k OsError) s2 else s2, []) ∧
    Exec.run_alone (3 + n) e' (Exec.waitLoop_wait p) s2
    = (Exec.Returned None,
       if Exec.onExit (Exec.mgr s) then Exec.emit (Exec.Exit k code) s2 else s2, []).
Proof.
  intros Hk He.
  set (x := Exec.new_session k (Exec.exec_Command e (Exec.resolve_shell e shell))).
  set (s1 := Exec.set_sessions <[k := length (Exec.heap s)]> (Exec.alloc x s)).
  assert (H2 : Exec.sessions (Exec.mgr s1) !! k = Some (length (Exec.heap s)))
    by apply lookup_insert_eq.
  assert (H3 : Exec.heap s1 !! length (Exec.heap s) = Some x).
  { simpl. by rewrite lookup_app_r, Nat.sub_diag by done. }
  exists s1, (Exec.Stop k s1), (length (Exec.heap s)),
    (Exec.exit_code (cmd_Wait (Signaled SIGKILL) (Exec.Wait_ok e'))).
  assert (Hh : Exec.heap (Exec.Stop k s1)
               = Exec.heap s ++ [Exec.mkSession k
                                   (Exec.exec_Command e (Exec.resolve_shell e shell))
                                   (Some (Ended (Signaled SIGKILL))) (Some Closed) 1]).
  { rewrite (ExecFacts.heap_Stop _ _ _ H2). simpl.
    rewrite alter_app_r_alt by lia. by rewrite Nat.sub_diag. }
  assert (Hx : Exec.heap (Exec.Stop k s1) !! length (Exec.heap s)
               = Some (Exec.mkSession k
                         (Exec.exec_Command e (Exec.resolve_shell e shell))
                         (Some (Ended (Signaled SIGKILL))) (Some Closed) 1)).
  { rewrite Hh. by rewrite lookup_app_r, Nat.sub_diag by done. }
  assert (Hm : Exec.sessions (Exec.mgr (Exec.Stop k s1)) = Exec.sessions (Exec.mgr s)).
  { rewrite ExecFacts.sessions_Stop. simpl. rewrite delete_insert_eq.
    by apply delete_id. }
  split_and?; try done.
  - rewrite ExecFacts.Start_alone. unfold Exec.Start. by rewrite Hk, He.
  - cbn [Exec.run_alone Nat.add Exec.thread_step]. rewrite H2.
    cbn [Exec.thread_step mbind option_bind].
    replace (Exec.heap (Exec.set_sessions (delete k) s1) !! length (Exec.heap s))
      with (Some x) by done.
    cbn [mbind option_bind Exec.done x Exec.new_session].
    rewrite decide_True by done.
    cbn [Exec.run_alone Exec.thread_step Exec.after_Stop].
    rewrite ExecFacts.run_alone_Returned. unfold Exec.Stop. by rewrite H2.
  - by rewrite ExecFacts.events_Stop.
  - by intros ->.
  - cbn [Exec.run_alone Nat.add Exec.thread_step]. rewrite Hx. simpl.
    by rewrite ExecFacts.run_alone_Returned.
  - cbn [Exec.run_alone Nat.add Exec.thread_step]. rewrite Hx. simpl. rewrite Hx. simpl.
    rewrite ExecFacts.run_alone_Returned.
    assert (Hon : Exec.onError (Exec.mgr (Exec.Stop k s1)) = Exec.onError (Exec.mgr s))
      by (unfold Exec.Stop; by rewrite H2).
    by rewrite Hon.
  - cbn [Exec.run_alone Nat.add Exec.thread_step]. rewrite Hx. simpl. rewrite Hx. simpl.
    assert (Hon : Exec.onExit (Exec.mgr (Exec.Stop k s1)) = Exec.onExit (Exec.mgr s))
      by (unfold Exec.Stop; by rewrite H2).
    rewrite Hon.
    assert (Hno : ∀ s', Exec.sessions (Exec.mgr s') = Exec.sessions (Exec.mgr (Exec.Stop k s1)) →
                        Exec.sessions (Exec.mgr s') !! k = None).
    { intros s' ->. by rewrite Hm. }
    rewrite Hno by (by destruct (Exec.onExit (Exec.mgr s))).
    by rewrite ExecFacts.run_alone_Returned.
Qed.

Lemma exec_Start_Stop_round_trip_witness :
  ∃ s1 s2,
    Exec.run_alone 4 exec_env (Exec.Start_lock "shell-2" "") exec_one
    = (Exec.Returned None, s1, [Exec.readLoop_select 1; Exec.waitLoop_wait 1]) ∧
    Exec.run_alone 4 exec_env (Exec.Stop_lock "shell-2" []) s1
    = (Exec.Returned None, s2, []) ∧
    Exec.sessions (Exec.mgr s2) = Exec.sessions (Exec.mgr exec_one) ∧
    Exec.run_alone 1 exec_env (Exec.readLoop_select 1) s2 = (Exec.Returned None, s2, []) ∧
    Exec.run_alone 3 exec_env (Exec.waitLoop_wait 1) s2
    = (Exec.Returned None, Exec.emit (Exec.Exit "shell-2" (-1)) s2, []).
Proof.
  destruct (exec_Start_Stop_round_trip exec_env exec_env "shell-2" "" exec_one 0
              eq_refl eq_refl)
    as (s1 & s2 & p & code & -> & H1 & H2 & H3 & _ & _ & -> & _ & H4 & _ & H5).
  exists s1, s2. split; [exact H1|]. split; [exact H2|]. split; [exact H3|].
  split; [exact H4|exact H5].
Defined.

(** X7: [SendInput] writes to the terminal of the session registered
    under the identifier and returns what the write returns; for an
    identifier that is not registered, because it was never started or
    because it has been stopped, it returns the not-found error.  A call
    that has looked the session up before [Stop] closes the terminal gets
    the error of the write to the closed terminal.  The manager is left
    unchanged. *)
Theorem SendInput_reaches_the_session (e e' : Exec.env) (k shell data : string)
    (s : Exec.state) :
  Exec.sessions (Exec.mgr s) !! k = None → Exec.pty_Start e = None →
  ∃ s1 new,
    Exec.Start e k shell s = (None, s1, new) ∧
    Exec.SendInput e' k data s = Some (NotFound k) ∧
    Exec.SendInput e' k data s1 = Exec.pty_Write e' ∧
    Exec.SendInput e' k data (Exec.Stop k s1) = Some (NotFound k) ∧
    Exec.run_alone 2 e' (Exec.SendInput_lock k data) s1
    = (Exec.Returned (Exec.pty_Write e'), s1, []) ∧
    Exec.run_alone 1 e' (Exec.SendInput_write (length (Exec.heap s)) data)
      (Exec.Stop k s1)
    = (Exec.Returned (Some OsError), Exec.Stop k s1, []).
Proof.
  intros Hk He.
  set (x := Exec.new_session k (Exec.exec_Command e (Exec.resolve_shell e shell))).
  set (s1 := Exec.set_sessions <[k := length (Exec.heap s)]> (Exec.alloc x s)).
  assert (H2 : Exec.sessions (Exec.mgr s1) !! k = Some (length (Exec.heap s)))
    by apply lookup_insert_eq.
  assert (H3 : Exec.heap s1 !! length (Exec.heap s) = Some x).
  { simpl. by rewrite lookup_app_r, Nat.sub_diag by done. }
  exists s1. eexists. split; [unfold Exec.Start; by rewrite Hk, He|].
  split_and?.
  - unfold Exec.SendInput. by rewrite Hk.
  - unfold Exec.SendInput. by rewrite H2, H3.
  - unfold Exec.SendInput. by rewrite ExecFacts.sessions_Stop, lookup_delete_eq.
  - cbn [Exec.run_alone Exec.thread_step]. rewrite H2.
    cbn [Exec.thread_step]. by rewrite H3.
  - cbn [Exec.run_alone Exec.thread_step].
    rewrite (ExecFacts.heap_Stop _ _ _ H2), list_lookup_alter_eq, H3. done.
Qed.

Lemma SendInput_reaches_the_session_witness :
  ∃ s1 new,
    Exec.Start exec_env "shell-1" "" (Exec.NewExecManager true true true)
    = (None, s1, new) ∧
    Exec.SendInput exec_env "shell-1" "ls" s1 = None ∧
    Exec.SendInput exec_env "shell-1" "ls" (Exec.Stop "shell-1" s1)
    = Some (NotFound "shell-1").
Proof.
  destruct (SendInput_reaches_the_session exec_env exec_env "shell-1" "" "ls"
              (Exec.NewExecManager true true true) eq_refl eq_refl)
    as (s1 & new & H1 & _ & H3 & H4 & _).
  exists s1, new. split; [exact H1|]. split; [exact H3|exact H4].
Defined.

(** X8: one turn of the read loop of a live session.  A read that
    returns bytes and no error invokes the output callback (when one is
    installed) once, with the identifier of the session, the tag [stdout]
    and the bytes read, and the loop goes on; a read of no bytes invokes
    nothing.  A read that returns an error invokes the error callback (when
    one is installed) and ends the loop; bytes returned together with the
    error are dropped. *)
Theorem readLoop_one_turn (e : Exec.env) (p : nat) (s : Exec.state)
    (x : Exec.ExecSession) (data : string) (r : option error) :
  Exec.heap s !! p = Some x → Exec.done x = 0 → Exec.pty x = Some Open →
  Exec.pty_Read e = (data, r) →
  Exec.run_alone 3 e (Exec.readLoop_select p) s
  = match r with
    | None =>
        (Exec.readLoop_select p,
         if Nat.ltb 0 (String.length data) && Exec.onOutput (Exec.mgr s)
         then Exec.emit (Exec.Output (Exec.id x) "stdout" data) s else s, [])
    | Some err =>
        (Exec.Returned None,
         if Exec.onError (Exec.mgr s)
         then Exec.emit (Exec.Error (Exec.id x) err) s else s, [])
    end.
Proof.
  intros Hx Hd Hp Hr.
  cbn [Exec.run_alone Exec.thread_step]. rewrite Hx. simpl. rewrite Hd. simpl.
  rewrite Hx. simpl. rewrite Hp, Hr. destruct r as [err|]; simpl; by rewrite Hx.
Qed.

Lemma readLoop_one_turn_witness :
  Exec.heap exec_one !! 0 = Some (Exec.new_session "shell-1" "/bin/sh") ∧
  Exec.run_alone 3 exec_env_output (Exec.readLoop_select 0) exec_one
  = (Exec.readLoop_select 0,
     Exec.emit (Exec.Output "shell-1" "stdout" "ls") exec_one, []).
Proof.
  split; [reflexivity|].
  exact (readLoop_one_turn exec_env_output 0 exec_one
           (Exec.new_session "shell-1" "/bin/sh") "ls" None
           eq_refl eq_refl eq_refl eq_refl).
Defined.

(** X9: the outcomes of [Start].  It returns no error exactly when the
    identifier is free and the terminal can be allocated; when
    [pty.Start] fails it returns that error wrapped.  Whenever it returns
    an error the manager is unchanged and no goroutine is launched, so the
    identifier stays free.  Run as a thread with no other thread in
    between, the call gives the same result. *)
Theorem exec_Start_outcome (e : Exec.env) (k shell : string) (s : Exec.state) :
  ∃ err s' new,
    Exec.Start e k shell s = (err, s', new) ∧
    (err = None ↔ Exec.sessions (Exec.mgr s) !! k = None ∧ Exec.pty_Start e = None) ∧
    (err ≠ None → s' = s ∧ new = []) ∧
    (∀ cause, Exec.sessions (Exec.mgr s) !! k = None → Exec.pty_Start e = Some cause →
              err = Some (SpawnFailed cause)) ∧
    Exec.run_alone 4 e (Exec.Start_lock k shell) s = (Exec.Returned err, s', new).
Proof.
  pose proof (ExecFacts.Start_alone e k shell s 0) as Ha. simpl plus in Ha.
  destruct (Exec.Start e k shell s) as [[err s'] new] eqn:Hs.
  exists err, s', new. split; [done|]. split_and?; [| | |done].
  - unfold Exec.Start in Hs.
    destruct (Exec.sessions (Exec.mgr s) !! k), (Exec.pty_Start e);
      injection Hs as <- <- <-; (split; [by intros|by intros [??]]).
  - unfold Exec.Start in Hs.
    destruct (Exec.sessions (Exec.mgr s) !! k), (Exec.pty_Start e);
      injection Hs as <- <- <-; by intros.
  - intros cause Hk He. unfold Exec.Start in Hs. rewrite Hk, He in Hs. by simplify_eq.
Qed.

(** X10: after [Stop], the read loop of the stopped session, wherever it
    stands, ends within three steps of its own and makes at most one more
    callback, for this session: the report of the error of a read on the
    closed terminal, or the delivery of the bytes it had already read.  It
    never makes more than one, and leaves the sessions as they are. *)
Theorem readLoop_after_Stop (e : Exec.env) (s : Exec.state) (k : string) (p : nat)
    (x : Exec.ExecSession) (t : Exec.thread) (n : nat) :
  Exec.sessions (Exec.mgr s) !! k = Some p → Exec.heap s !! p = Some x →
  is_Some (Exec.cmd_Process x) → is_Some (Exec.pty x) →
  Exec.readLoop_of p t = true →
  ∃ s' evs,
    Exec.run_alone (3 + n) e t (Exec.Stop k s) = (Exec.Returned None, s', []) ∧
    Exec.mgr s' = Exec.mgr (Exec.Stop k s) ∧ Exec.heap s' = Exec.heap (Exec.Stop k s) ∧
    Exec.events s' = Exec.events s ++ evs ∧ length evs ≤ 1 ∧
    Forall (λ ev, match ev with
                  | Exec.Output k' _ _ | Exec.Error k' _ => k' = Exec.id x
                  | Exec.Exit _ _ => False
                  end) evs.
Proof.
  intros Hk Hx Hc Hp Ht.
  pose proof (ExecFacts.exec_Stop_halted k p x s Hk Hx Hc Hp) as Hh.
  destruct (ExecMore.halted_readLoop e p (Exec.id x) (Exec.Stop k s) t n Hh Ht)
    as (s' & evs & H1 & H2 & H3 & H4 & H5 & H6).
  exists s', evs. rewrite ExecFacts.events_Stop in H4. by split_and?.
Qed.

Lemma readLoop_after_Stop_witness :
  Exec.sessions (Exec.mgr exec_one) !! "shell-1" = Some 0 ∧
  ∃ s', Exec.run_alone 3 exec_env (Exec.readLoop_read 0) (Exec.Stop "shell-1" exec_one)
        = (Exec.Returned None, s', []) ∧
        length (Exec.events s') ≤ 1.
Proof.
  split; [reflexivity|].
  destruct (readLoop_after_Stop exec_env exec_one "shell-1" 0
              (Exec.new_session "shell-1" "/bin/sh") (Exec.readLoop_read 0) 0
              eq_refl eq_refl (ex_intro _ _ eq_refl) (ex_intro _ _ eq_refl) eq_refl)
    as (s' & evs & H1 & _ & _ & H4 & H5 & _).
  exists s'. split; [exact H1|]. rewrite H4. exact H5.
Defined.

(** X11: in every schedule of the exec manager, the terminal of a
    registered session is open: a terminal is closed only by a [Stop] that
    has removed its session from the registry and closed its channel
    before.  So [SendInput] on a registered identifier, run with no other
    thread in between, always reaches an open terminal and returns what the
    write returns. *)
Theorem exec_registered_terminal_is_open (out ex er : bool) (ls : list Exec.label)
    (w : Exec.world) (k : string) (p : nat) (e : Exec.env) (data : string) :
  Exec.run ls (Exec.mkWorld (Exec.NewExecManager out ex er) []) = Some w →
  Exec.sessions (Exec.mgr (Exec.st w)) !! k = Some p →
  (∃ x, Exec.heap (Exec.st w) !! p = Some x ∧ Exec.pty x = Some Open) ∧
  (∀ q y, Exec.heap (Exec.st w) !! q = Some y → Exec.pty y = Some Closed →
          Exec.done y = 1 ∧
          ∀ k', Exec.sessions (Exec.mgr (Exec.st w)) !! k' ≠ Some q) ∧
  Exec.SendInput e k data (Exec.st w) = Exec.pty_Write e.
Proof.
  intros Hrun Hk.
  pose proof (ExecFacts.exec_run_sound _ _ _ Hrun (ExecFacts.exec_sound_init out ex er))
    as Hs.
  destruct (ExecMore.exec_run_wired _ _ _ Hrun (ExecMore.wired_init out ex er))
    as [Hw _].
  assert (Hopen : ∃ x, Exec.heap (Exec.st w) !! p = Some x ∧ Exec.pty x = Some Open).
  { destruct (Exec.sound_registered w Hs k p Hk) as [k0 Hk0].
    unfold Exec.tags in Hk0. rewrite list_lookup_fmap in Hk0.
    destruct (Exec.heap (Exec.st w) !! p) as [x|] eqn:Hx; [|done].
    simpl in Hk0. exists x. split; [done|].
    destruct (Hw p x Hx) as [[h Hh] Hc]. destruct h; [done|].
    specialize (Hc Hh). simplify_eq. lia. }
  split; [done|]. split.
  - intros q y Hy Hc. destruct (Hw q y Hy) as [_ Hd]. specialize (Hd Hc).
    pose proof (Exec.sound_closed_once w Hs q (Exec.id y) (Exec.done y)
                  (ExecFacts.tags_session _ _ _ Hy)) as Hle.
    split; [lia|]. intros k' Hk'.
    destruct (Exec.sound_registered w Hs k' q Hk') as [k0 Hk0].
    rewrite (ExecFacts.tags_session _ _ _ Hy) in Hk0. simplify_eq. lia.
  - destruct Hopen as (x & Hx & Hp). unfold Exec.SendInput.
    rewrite Hk, Hx. simpl. by rewrite Hp.
Qed.

Lemma exec_registered_terminal_is_open_witness :
  ∃ w, Exec.run exec_two (Exec.mkWorld (Exec.NewExecManager true true true) []) = Some w ∧
       Exec.sessions (Exec.mgr (Exec.st w)) !! "shell-2" = Some 1 ∧
       Exec.SendInput exec_env "shell-2" "ls" (Exec.st w) = None.
Proof.
  assert (Hrun : Exec.run exec_two (Exec.mkWorld (Exec.NewExecManager true true true) [])
                 = exec_two_end) by (vm_compute; reflexivity).
  unfold exec_two_end in Hrun.
  match type of Hrun with
  | _ = Some ?W =>
      assert (Hk : Exec.sessions (Exec.mgr (Exec.st W)) !! "shell-2" = Some 1)
        by reflexivity;
      destruct (exec_registered_terminal_is_open true true true exec_two W "shell-2" 1
                  exec_env "ls" Hrun Hk) as (_ & _ & H);
      exists W; split; [exact Hrun|]; split; [exact Hk|exact H]
  end.
Defined.

(** X12: [StartJournalctlStream] and [StartServiceStream] on a free
    identifier.  When the pipes can be made and the command starts, the
    call returns no error, registers a stream whose child runs the
    [journalctl] command line (with [-u] and the service for a service
    stream) and launches two pipe readers and the waiter.  Otherwise it
    returns the error wrapped, the registry is as before and no goroutine is
    launched.  No callback is invoked either way. *)
Theorem log_command_start_outcome (e : Logs.env) (k serviceName : string)
    (s : Logs.state) :
  Logs.streams s !! k = None →
  let p := length (Logs.heap s) in
  let outcome (r : option error * Logs.state * list Logs.thread)
              (service : string) (args : list string) :=
    Logs.events r.1.2 = Logs.events s ∧
    (Logs.startable e args = true →
     r.1.1 = None ∧
     Logs.streams r.1.2 = <[k := p]> (Logs.streams s) ∧
     Logs.heap r.1.2
     = Logs.heap s ++ [Logs.mkStream k service Logs.LogStreamTypeCommand
                         (Some (Logs.mkCmd args (Some Running))) None 0 false] ∧
     r.2 = [Logs.readPipe_select p ""; Logs.readPipe_select p ""; Logs.waiter_Wait p]) ∧
    (Logs.startable e args = false →
     (∃ cause, r.1.1 = Some (SpawnFailed cause)) ∧
     Logs.streams r.1.2 = Logs.streams s ∧ r.2 = []) in
  outcome (Logs.StartJournalctlStream e k s) "" Logs.journalctl_all ∧
  outcome (Logs.StartServiceStream e k serviceName s) serviceName
          (Logs.journalctl_unit serviceName).
Proof.
  intros Hk p outcome. unfold outcome. split.
  - destruct (LogsMore.start_command_outcome e k "" Logs.journalctl_all s Hk)
      as (err & s' & new & Hr & He & Hy & Hn).
    unfold Logs.StartJournalctlStream. change ["journalctl"; _; _; _; _]
      with Logs.journalctl_all. rewrite Hr. simpl. auto.
  - destruct (LogsMore.start_command_outcome e k serviceName
                (Logs.journalctl_unit serviceName) s Hk)
      as (err & s' & new & Hr & He & Hy & Hn).
    unfold Logs.StartServiceStream. change ["journalctl"; _; _; _; _; _; _]
      with (Logs.journalctl_unit serviceName). rewrite Hr. simpl. auto.
Qed.

Lemma log_command_start_outcome_witness :
  Logs.streams (Logs.NewLogStreamer ∅) !! "logs-1" = None ∧
  (Logs.StartJournalctlStream logs_env "logs-1" (Logs.NewLogStreamer ∅)).1.1 = None ∧
  (∃ cause, (Logs.StartServiceStream logs_env_dmesg "logs-1" "strux"
               (Logs.NewLogStreamer ∅)).1.1 = Some (SpawnFailed cause)).
Proof.
  split; [reflexivity|].
  destruct (log_command_start_outcome logs_env "logs-1" "strux" (Logs.NewLogStreamer ∅)
              eq_refl) as [(_ & H1 & _) _].
  destruct (log_command_start_outcome logs_env_dmesg "logs-1" "strux"
              (Logs.NewLogStreamer ∅) eq_refl) as [_ (_ & _ & H2)].
  split.
  - apply H1. reflexivity.
  - apply H2. reflexivity.
Defined.

(** X13: [StartEarlyLogStream] on a free identifier prefers
    [journalctl -b] and falls back to [dmesg -w]: the stream it registers
    runs the first of the two that can be started, with two pipe readers and
    the waiter launched once; when neither can be started it returns the
    error of the second attempt wrapped and registers nothing. *)
Theorem StartEarlyLogStream_falls_back (e : Logs.env) (k : string) (s : Logs.state) :
  Logs.streams s !! k = None →
  let p := length (Logs.heap s) in
  let r := Logs.StartEarlyLogStream e k s in
  let runs (args : list string) :=
    r.1.1 = None ∧
    Logs.streams r.1.2 = <[k := p]> (Logs.streams s) ∧
    Logs.heap r.1.2
    = Logs.heap s ++ [Logs.mkStream k "" Logs.LogStreamTypeCommand
                        (Some (Logs.mkCmd args (Some Running))) None 0 false] ∧
    r.2 = [Logs.readPipe_select p ""; Logs.readPipe_select p ""; Logs.waiter_Wait p] in
  Logs.events r.1.2 = Logs.events s ∧
  (Logs.startable e Logs.journalctl_boot = true → runs Logs.journalctl_boot) ∧
  (Logs.startable e Logs.journalctl_boot = false →
   Logs.startable e Logs.dmesg_follow = true → runs Logs.dmesg_follow) ∧
  (Logs.startable e Logs.journalctl_boot = false →
   Logs.startable e Logs.dmesg_follow = false →
   (∃ cause, r.1.1 = Some (SpawnFailed cause)) ∧
   Logs.streams r.1.2 = Logs.streams s ∧ r.2 = []).
Proof.
  intros Hk p r runs. unfold runs, r, Logs.StartEarlyLogStream. rewrite Hk.
  rewrite (LogsMore.startCommandStream_startable e _ _ Logs.journalctl_boot)
    by (by rewrite LogsMore.alloc_lookup).
  destruct (Logs.startable e Logs.journalctl_boot) eqn:Hj.
  - simpl. split; [done|]. split; [|done]. intros _. split_and?; try done.
    by rewrite alter_app_r_alt, Nat.sub_diag by lia.
  - assert (∃ c0, match Logs.StdoutPipe e Logs.journalctl_boot,
                        Logs.StderrPipe e Logs.journalctl_boot,
                        Logs.cmd_Start e Logs.journalctl_boot with
                  | Some err, _, _ | None, Some err, _ | None, None, Some err =>
                      Some (SpawnFailed err)
                  | None, None, None => None
                  end = Some c0) as [c0 ->].
    { unfold Logs.startable in Hj.
      destruct (Logs.StdoutPipe e Logs.journalctl_boot),
        (Logs.StderrPipe e Logs.journalctl_boot),
        (Logs.cmd_Start e Logs.journalctl_boot);
        try discriminate; by eexists. }
    rewrite (LogsMore.startCommandStream_startable e _ _ Logs.dmesg_follow).
    2:{ simpl. rewrite list_lookup_alter_eq.
        by rewrite lookup_app_r, Nat.sub_diag by done. }
    destruct (Logs.startable e Logs.dmesg_follow) eqn:Hd.
    + simpl. split; [done|]. split; [done|]. split; [|done]. intros _ _.
      split_and?; try done.
      by rewrite list_alter_alter_eq, alter_app_r_alt, Nat.sub_diag by lia.
    + unfold Logs.startable in Hd.
      destruct (Logs.StdoutPipe e Logs.dmesg_follow),
        (Logs.StderrPipe e Logs.dmesg_follow), (Logs.cmd_Start e Logs.dmesg_follow);
        try discriminate; simpl;
        (split; [done|]; split; [done|]; split; [done|]; intros _ _;
         split; [by eexists|done]).
Qed.

Lemma StartEarlyLogStream_falls_back_witness :
  Logs.streams (Logs.NewLogStreamer ∅) !! "early" = None ∧
  Logs.heap (Logs.StartEarlyLogStream logs_env_dmesg "early" (Logs.NewLogStreamer ∅)).1.2
  = [Logs.mkStream "early" "" Logs.LogStreamTypeCommand
       (Some (Logs.mkCmd ["dmesg"; "-w"] (Some Running))) None 0 false].
Proof.
  split; [reflexivity|].
  destruct (StartEarlyLogStream_falls_back logs_env_dmesg "early" (Logs.NewLogStreamer ∅)
              eq_refl) as (_ & _ & H & _).
  destruct H as (_ & _ & H & _); [reflexivity..|]. exact H.
Defined.

(** X14: [GetActiveStreams] returns the identifiers in the registry,
    each once: an identifier is listed exactly when it is registered.  The
    call changes nothing.  After [Stop] of an identifier the list holds the
    others and not this one; after [StopAll] it is empty. *)
Theorem GetActiveStreams_lists_the_registry (e : Logs.env) (s : Logs.state) (k : string) :
  NoDup (Logs.GetActiveStreams s) ∧
  (k ∈ Logs.GetActiveStreams s ↔ is_Some (Logs.streams s !! k)) ∧
  length (Logs.GetActiveStreams s) = size (Logs.streams s) ∧
  Logs.thread_step e Logs.GetActiveStreams_call s
  = Some (Logs.Returned None (Logs.GetActiveStreams s), s, []) ∧
  (∀ k', k' ∈ Logs.GetActiveStreams (Logs.Stop k s)
         ↔ k' ≠ k ∧ k' ∈ Logs.GetActiveStreams s) ∧
  Logs.GetActiveStreams (Logs.StopAll s) = [].
Proof.
  unfold Logs.GetActiveStreams. split_and?.
  - apply LogsMore.ids_of_NoDup.
  - apply LogsMore.logs_elem_of_ids_of.
  - unfold Logs.ids_of. by rewrite length_fmap, length_map_to_list.
  - done.
  - intros k'. rewrite !LogsMore.logs_elem_of_ids_of, LogsFacts.streams_Stop.
    unfold is_Some. setoid_rewrite lookup_delete_Some. split.
    + intros (p & Hne & Hp). split; [congruence|by exists p].
    + intros (Hne & p & Hp). exists p. split; [congruence|done].
  - rewrite LogsFacts.logs_StopAll_empty. unfold Logs.ids_of.
    by rewrite map_to_list_empty.
Qed.

(** X15: [StopAll] has the effect of calling [Stop] on each identifier
    that [GetActiveStreams] returns, one after the other. *)
Theorem StopAll_is_Stop_of_each (s : Logs.state) :
  Logs.StopAll s = Logs.stop_each (Logs.GetActiveStreams s) s.
Proof.
  unfold Logs.GetActiveStreams, Logs.ids_of.
  rewrite LogsMore.stop_each_entries.
  - unfold Logs.StopAll, Logs.ptrs_of. f_equal.
    apply LogsMore.state_eq; try done. simpl.
    apply map_eq. intros k. rewrite lookup_empty, LogsMore.lookup_foldl_delete.
    case_decide as Hin; [done|].
    destruct (Logs.streams s !! k) as [p|] eqn:Hp; [|done].
    exfalso. apply Hin. apply list_elem_of_fmap. exists (k, p). split; [done|].
    by apply elem_of_map_to_list.
  - apply NoDup_fst_map_to_list.
  - intros k p Hin. by apply elem_of_map_to_list.
Qed.

(** X16: in every schedule of the log streamer, an identifier in the
    registry maps to a stream that carries this identifier and whose [done]
    channel is open, and no stream is registered under two identifiers. *)
Theorem logs_registry_consistent (files : gmap string string) (ls : list Logs.label)
    (w : Logs.world) (k : string) (p : nat) :
  Logs.run ls (Logs.mkWorld (Logs.NewLogStreamer files) []) = Some w →
  Logs.streams (Logs.st w) !! k = Some p →
  (∃ x, Logs.heap (Logs.st w) !! p = Some x ∧ Logs.ID x = k ∧ Logs.done x = 0) ∧
  (∀ k', Logs.streams (Logs.st w) !! k' = Some p → k' = k).
Proof.
  intros Hrun Hk.
  pose proof (LogsFacts.run_sound _ _ _ Hrun (LogsFacts.sound_init files)) as Hs.
  split.
  - pose proof (Logs.sound_registered w Hs k p Hk) as Ht.
    unfold Logs.tags in Ht. rewrite list_lookup_fmap in Ht.
    destruct (Logs.heap (Logs.st w) !! p) as [x|]; [|done].
    simpl in Ht. exists x. split; [done|]. split; congruence.
  - intros k' Hk'. by eapply LogsFacts.sound_injective.
Qed.

Lemma logs_registry_consistent_witness :
  ∃ w x, Logs.run logs_two (Logs.mkWorld (Logs.NewLogStreamer ∅) []) = Some w ∧
         Logs.streams (Logs.st w) !! "app-1" = Some 1 ∧
         Logs.heap (Logs.st w) !! 1 = Some x ∧ Logs.ID x = "app-1" ∧ Logs.done x = 0.
Proof.
  assert (Hrun : Logs.run logs_two (Logs.mkWorld (Logs.NewLogStreamer ∅) [])
                 = logs_two_end) by (vm_compute; reflexivity).
  unfold logs_two_end in Hrun.
  match type of Hrun with
  | _ = Some ?W =>
      assert (Hk : Logs.streams (Logs.st W) !! "app-1" = Some 1) by reflexivity;
      destruct (logs_registry_consistent ∅ logs_two W "app-1" 1 Hrun Hk)
        as [(x & Hx & Hid & Hd) _];
      exists W, x; split; [exact Hrun|]; split; [exact Hk|];
      split; [exact Hx|]; split; [exact Hid|exact Hd]
  end.
Defined.

(** X17: in every schedule of the log streamer, stopping one identifier
    leaves every other registered stream as it is: it stays registered, its
    stream is untouched, and no callback is invoked. *)
Theorem logs_Stop_leaves_others (files : gmap string string) (ls : list Logs.label)
    (w : Logs.world) (k k' : string) (q : nat) :
  Logs.run ls (Logs.mkWorld (Logs.NewLogStreamer files) []) = Some w →
  k' ≠ k → Logs.streams (Logs.st w) !! k' = Some q →
  Logs.streams (Logs.Stop k (Logs.st w)) !! k' = Some q ∧
  Logs.heap (Logs.Stop k (Logs.st w)) !! q = Logs.heap (Logs.st w) !! q ∧
  Logs.events (Logs.Stop k (Logs.st w)) = Logs.events (Logs.st w).
Proof.
  intros Hrun Hne Hq.
  pose proof (LogsFacts.run_sound _ _ _ Hrun (LogsFacts.sound_init files)) as Hs.
  split_and?.
  - rewrite LogsFacts.streams_Stop. by rewrite lookup_delete_ne.
  - destruct (Logs.streams (Logs.st w) !! k) as [p|] eqn:Hp.
    + rewrite (LogsMore.logs_heap_Stop _ _ _ Hp). apply list_lookup_alter_ne.
      intros ->. apply Hne. by eapply LogsFacts.sound_injective.
    + by rewrite LogsFacts.logs_Stop_absent.
  - apply LogsMore.logs_events_Stop.
Qed.

Lemma logs_Stop_leaves_others_witness :
  ∃ w, Logs.run logs_two (Logs.mkWorld (Logs.NewLogStreamer ∅) []) = Some w ∧
       Logs.streams (Logs.st w) !! "app-1" = Some 1 ∧
       Logs.streams (Logs.Stop "logs-1" (Logs.st w)) !! "app-1" = Some 1 ∧
       Logs.heap (Logs.Stop "logs-1" (Logs.st w)) !! 1
       = Some (Logs.mkStream "app-1" "" Logs.LogStreamTypeFile None None 0 false).
Proof.
  assert (Hrun : Logs.run logs_two (Logs.mkWorld (Logs.NewLogStreamer ∅) [])
                 = logs_two_end) by (vm_compute; reflexivity).
  unfold logs_two_end in Hrun.
  match type of Hrun with
  | _ = Some ?W =>
      assert (Hk : Logs.streams (Logs.st W) !! "app-1" = Some 1) by reflexivity;
      destruct (logs_Stop_leaves_others ∅ logs_two W "logs-1" "app-1" 1
                  Hrun ltac:(discriminate) Hk) as (H1 & H2 & _);
      exists W; split; [exact Hrun|]; split; [exact Hk|]; split; [exact H1|];
      rewrite H2; reflexivity
  end.
Defined.

(** X18: when the waiter of a command stream reaches [cleanupStream],
    the stream registered under its identifier (its own, or a newer one
    started under the same identifier) is dropped from the registry and
    nothing else is done to it: its [done] channel stays open.  From then
    on, in every schedule, this stream is never registered again and its
    channel is never closed: [Stop] and [StopAll] cannot reach it. *)
Theorem cleanupStream_drops_without_stopping (files : gmap string string)
    (ls : list Logs.label) (w : Logs.world) (i p q : nat) (x : Logs.LogStream)
    (e : Logs.env) :
  Logs.run ls (Logs.mkWorld (Logs.NewLogStreamer files) []) = Some w →
  Logs.threads w !! i = Some (Logs.waiter_cleanup p) →
  Logs.heap (Logs.st w) !! p = Some x →
  Logs.streams (Logs.st w) !! Logs.ID x = Some q →
  ∃ w', Logs.step (Logs.Run i e) w = Some w' ∧
        Logs.streams (Logs.st w') = delete (Logs.ID x) (Logs.streams (Logs.st w)) ∧
        Logs.heap (Logs.st w') = Logs.heap (Logs.st w) ∧
        Logs.events (Logs.st w') = Logs.events (Logs.st w) ∧
        ∀ ls' w'', Logs.run ls' w' = Some w'' →
          (∀ k, Logs.streams (Logs.st w'') !! k ≠ Some q) ∧
          ∃ y, Logs.heap (Logs.st w'') !! q = Some y ∧ Logs.done y = 0.
Proof.
  intros Hrun Hi Hx Hq.
  pose proof (LogsFacts.run_sound _ _ _ Hrun (LogsFacts.sound_init files)) as Hs.
  eexists. split.
  { simpl. rewrite Hi. simpl. rewrite Hx. simpl. done. }
  simpl. split_and?; try done.
  intros ls' w'' Hrun'.
  apply (LogsFacts.run_orphan q) in Hrun' as (Hun & _ & k & Hk).
  - split; [done|]. unfold Logs.tags in Hk. rewrite list_lookup_fmap in Hk.
    destruct (Logs.heap (Logs.st w'') !! q) as [y|]; [|done].
    exists y. split; [done|]. simpl in Hk. congruence.
  - unfold Logs.orphan. split_and?; simpl.
    + intros k Hk. apply lookup_delete_Some in Hk as [Hne Hk].
      apply Hne. by eapply LogsFacts.sound_injective.
    + rewrite app_nil_r. intros Hin.
      destruct (LogsFacts.owned_by_step (Logs.threads w) i _ (Logs.ret None) []
                  Hi eq_refl) as [Hold Hnew].
      rewrite app_nil_r in Hnew. rewrite Hnew in Hin. simpl in Hin.
      assert (q ∈ Logs.owned_by (Logs.threads w)) as Hown.
      { rewrite Hold. apply elem_of_app. by right. }
      by destruct (Logs.sound_owned w Hs q Hown) as [_ Hno]; apply (Hno (Logs.ID x)).
    + exists (Logs.ID x). by apply (Logs.sound_registered w Hs).
Qed.

Lemma cleanupStream_drops_without_stopping_witness :
  ∃ w w',
    Logs.run before_cleanup (Logs.mkWorld (Logs.NewLogStreamer ∅) []) = Some w ∧
    Logs.threads w !! 3 = Some (Logs.waiter_cleanup 0) ∧
    Logs.streams (Logs.st w) !! "logs-1" = Some 0 ∧
    Logs.step (Logs.Run 3 logs_env) w = Some w' ∧
    Logs.streams (Logs.st w') = delete "logs-1" (Logs.streams (Logs.st w)) ∧
    ∃ y, Logs.heap (Logs.st (Logs.mkWorld (Logs.Stop "logs-1" (Logs.st w')) (Logs.threads w')))
         !! 0 = Some y ∧ Logs.done y = 0.
Proof.
  assert (Hrun : Logs.run before_cleanup (Logs.mkWorld (Logs.NewLogStreamer ∅) [])
                 = before_cleanup_end) by (vm_compute; reflexivity).
  unfold before_cleanup_end in Hrun.
  match type of Hrun with
  | _ = Some ?W =>
      destruct (cleanupStream_drops_without_stopping ∅ before_cleanup W 3 0 0
                  (Logs.mkStream "logs-1" "" Logs.LogStreamTypeCommand
                     (Some (Logs.mkCmd Logs.journalctl_all (Some (Ended (Exited 0)))))
                     None 0 false)
                  logs_env Hrun eq_refl eq_refl eq_refl)
        as (w' & H1 & H2 & H3 & _ & H5);
      exists W, w'; split; [exact Hrun|]; split; [reflexivity|]; split; [reflexivity|];
      split; [exact H1|]; split; [exact H2|]
  end.
  destruct (H5 [] w' eq_refl) as [Hno (y & Hy & Hd)].
  exists y. split; [|exact Hd].
  simpl. rewrite LogsFacts.logs_Stop_absent; [exact Hy|].
  rewrite H2. apply lookup_delete_eq.
Defined.

(** X19: after [Stop], a pipe reader, file waiter or tailer of the
    stopped stream, however long it runs, invokes the callback only if it
    had already passed its [stopped] check when the stream was stopped, and
    then once, with the line it holds; every other worker ends or stays
    blocked without a callback. *)
Theorem readers_after_Stop (e : Logs.env) (s : Logs.state) (k : string) (q : nat)
    (y : Logs.LogStream) (t : Logs.thread) (n : nat) :
  Logs.streams s !! k = Some q → Logs.heap s !! q = Some y →
  Logs.reader_of q t = true →
  Logs.events (Logs.solo e (replicate (S n) Logs.Step) t (Logs.Stop k s)).2
  = Logs.events s ++ (Logs.Line q <$> Logs.committed t).
Proof.
  intros Hk Hy Ht.
  rewrite (LogsMore.halted_reader_run e q n t (Logs.Stop k s));
    [|by eapply LogsFacts.logs_Stop_halted|done].
  by rewrite LogsMore.logs_events_Stop.
Qed.

Lemma readers_after_Stop_witness :
  Logs.streams logs_one !! "logs-1" = Some 0 ∧
  Logs.events (Logs.solo logs_env (replicate 4 Logs.Step)
                 (Logs.readPipe_callback 0 "late" "") (Logs.Stop "logs-1" logs_one)).2
  = [Logs.Line 0 "late"] ∧
  Logs.events (Logs.solo logs_env (replicate 4 Logs.Step)
                 (Logs.readPipe_check 0 "late" "") (Logs.Stop "logs-1" logs_one)).2
  = [].
Proof.
  split; [reflexivity|]. split.
  - exact (readers_after_Stop logs_env logs_one "logs-1" 0 _
             (Logs.readPipe_callback 0 "late" "") 3 eq_refl eq_refl eq_refl).
  - exact (readers_after_Stop logs_env logs_one "logs-1" 0 _
             (Logs.readPipe_check 0 "late" "") 3 eq_refl eq_refl eq_refl).
Defined.


(** X20: the wait of [startFileStream] for a file that does not exist.
    As long as the stream is not stopped the worker polls, once every two
    steps, 120 times (60 s at 500 ms); then it gives up: it ends without
    opening a file and without a callback, and the state is as before, so
    the stream is still registered. *)
Theorem file_wait_gives_up (e : Logs.env) (p : nat) (path : string) (s : Logs.state)
    (x : Logs.LogStream) (n : nat) :
  Logs.heap s !! p = Some x → Logs.fs s !! path = None →
  (Logs.done x = 0 → ∀ j, j ≤ Logs.polls →
     Logs.solo e (replicate (2 * j) Logs.Step) (Logs.fileWait_select p path 0) s
     = (Logs.fileWait_select p path (N.of_nat j * Logs.waitInterval), s)) ∧
  Logs.solo e (replicate (2 * Logs.polls + 3 + n) Logs.Step)
    (Logs.fileWait_select p path 0) s
  = (Logs.ret None, s).
Proof.
  intros Hx Hf. split.
  - intros Hd j Hj.
    pose proof (LogsMore.poll_many e p path s x j 0 Hx Hd Hf Hj) as H.
    by rewrite Nat.add_0_r in H.
  - destruct (decide (Logs.done x = 0)) as [Hd|Hd].
    + rewrite <- Nat.add_assoc.
      rewrite (LogsMore.poll_many e p path s x Logs.polls (3 + n) Hx Hd Hf) by done.
      by apply (LogsMore.poll_timeout e p path s x).
    + change (2 * Logs.polls + 3 + n) with (S (242 + n)).
      rewrite LogsFacts.solo_S. cbn [Logs.thread_step]. rewrite Hx.
      cbn [mbind option_bind]. replace (0 <? Logs.maxWait)%N with true by done.
      rewrite decide_False by done. apply LogsFacts.solo_Returned.
Qed.

Lemma file_wait_gives_up_witness :
  Logs.fs logs_waiting !! "/tmp/strux-backend.log" = None ∧
  Logs.solo logs_env (replicate 243 Logs.Step)
    (Logs.fileWait_select 0 "/tmp/strux-backend.log" 0) logs_waiting
  = (Logs.ret None, logs_waiting) ∧
  Logs.GetActiveStreams logs_waiting = ["app-1"].
Proof.
  split; [reflexivity|]. split; [|reflexivity].
  destruct (file_wait_gives_up logs_env 0 "/tmp/strux-backend.log" logs_waiting
              (Logs.mkStream "app-1" "" Logs.LogStreamTypeFile None None 0 false) 0
              eq_refl eq_refl) as [_ H].
  exact H.
Defined.

(** X21: the wait of [startFileStream] for a file that exists.  The
    worker of a live stream finds the file at its next poll, opens it,
    records the handle in the stream and seeks to the end: it starts
    tailing at the length of what the file holds, with no callback made.
    When the file cannot be opened the worker ends and leaves the state as
    it is. *)
Theorem file_found_is_tailed_from_its_end (e : Logs.env) (p : nat) (path : string)
    (s : Logs.state) (x : Logs.LogStream) (content : string) (elapsed : N) (n : nat) :
  Logs.heap s !! p = Some x → Logs.done x = 0 → Logs.stopped x = false →
  Logs.fs s !! path = Some content → (elapsed < Logs.maxWait)%N →
  match Logs.os_Open e with
  | None =>
      Logs.solo e (replicate 6 Logs.Step) (Logs.fileWait_select p path elapsed) s
      = (Logs.tailFile_select p path (String.length content),
         Logs.set_stream p (Logs.set_file (Some Open)) s)
  | Some _ =>
      Logs.solo e (replicate (4 + n) Logs.Step) (Logs.fileWait_select p path elapsed) s
      = (Logs.ret None, s)
  end.
Proof.
  intros Hx Hd Hs Hf He. apply N.ltb_lt in He.
  destruct (Logs.os_Open e) eqn:Ho.
  - change (replicate (4 + n) Logs.Step)
      with (Logs.Step :: Logs.Step :: Logs.Step :: Logs.Step :: replicate n Logs.Step).
    rewrite LogsMore.solo_SS. cbn [Logs.thread_step]. rewrite Hx.
    cbn [mbind option_bind]. rewrite He, decide_True by done.
    rewrite LogsMore.solo_SS. cbn [Logs.thread_step]. rewrite Hf.
    rewrite LogsMore.solo_SS. cbn [Logs.thread_step]. rewrite Hx.
    cbn [mbind option_bind]. rewrite Hs.
    rewrite LogsMore.solo_SS. cbn [Logs.thread_step]. rewrite Hf, Ho.
    apply LogsFacts.solo_Returned.
  - cbn [replicate].
    rewrite LogsMore.solo_SS. cbn [Logs.thread_step]. rewrite Hx.
    cbn [mbind option_bind]. rewrite He, decide_True by done.
    rewrite LogsMore.solo_SS. cbn [Logs.thread_step]. rewrite Hf.
    rewrite LogsMore.solo_SS. cbn [Logs.thread_step]. rewrite Hx.
    cbn [mbind option_bind]. rewrite Hs.
    rewrite LogsMore.solo_SS. cbn [Logs.thread_step]. rewrite Hf, Ho.
    rewrite LogsMore.solo_SS. cbn [Logs.thread_step].
    rewrite LogsMore.solo_SS. cbn [Logs.thread_step].
    simpl. by rewrite Hf.
Qed.

Lemma file_found_is_tailed_from_its_end_witness :
  Logs.fs logs_found !! "/tmp/strux-backend.log" = Some (String.append "old" (String LF "")) ∧
  Logs.solo logs_env (replicate 6 Logs.Step)
    (Logs.fileWait_select 0 "/tmp/strux-backend.log" 0) logs_found
  = (Logs.tailFile_select 0 "/tmp/strux-backend.log" 4,
     Logs.set_stream 0 (Logs.set_file (Some Open)) logs_found).
Proof.
  split; [reflexivity|].
  exact (file_found_is_tailed_from_its_end logs_env 0 "/tmp/strux-backend.log" logs_found
           (Logs.mkStream "app-1" "" Logs.LogStreamTypeFile None None 0 false)
           (String.append "old" (String LF "")) 0 0
           eq_refl eq_refl eq_refl eq_refl eq_refl).
Defined.

(** X22: a line written to the tailed file in two pieces.  When the
    tailer reads between the two writes, the first piece is consumed at the
    end of the file and dropped, and the callback gets the second piece
    only; when both pieces are there before the tailer reads, the callback
    gets the whole line. *)
Theorem tail_drops_the_start_of_a_torn_line (e : Logs.env) (p : nat) (path : string)
    (s : Logs.state) (x : Logs.LogStream) (a b : string) :
  Logs.file_Read e = None → Logs.heap s !! p = Some x →
  Logs.done x = 0 → Logs.stopped x = false → Logs.file x = Some Open →
  no_LF a → no_LF b →
  let pos := String.length (default "" (Logs.fs s !! path)) in
  let rest := String.append b (String LF "") in
  Logs.events
    (Logs.solo e ([Logs.Write path a; Logs.Step; Logs.Step; Logs.Write path rest]
                  ++ replicate 4 Logs.Step)
       (Logs.tailFile_select p path pos) s).2
  = Logs.events s ++ (if Logs.nonempty b then [Logs.Line p b] else []) ∧
  Logs.events
    (Logs.solo e ([Logs.Write path a; Logs.Write path rest] ++ replicate 4 Logs.Step)
       (Logs.tailFile_select p path pos) s).2
  = Logs.events s ++ (if Logs.nonempty (String.append a b)
                      then [Logs.Line p (String.append a b)] else []).
Proof.
  intros He Hx Hd Hs Hf Ha Hb pos rest. split.
  - by apply (LogsMore.tail_torn e p path s x a b).
  - by apply (LogsMore.tail_whole e p path s x a b).
Qed.

Lemma tail_drops_the_start_of_a_torn_line_witness :
  Logs.heap logs_tailing !! 0
  = Some (Logs.mkStream "app-1" "" Logs.LogStreamTypeFile None (Some Open) 0 false) ∧
  no_LF "par" ∧ no_LF "tial" ∧
  Logs.events
    (Logs.solo logs_env
       ([Logs.Write "/tmp/strux-backend.log" "par"; Logs.Step; Logs.Step;
         Logs.Write "/tmp/strux-backend.log" (String.append "tial" (String LF ""))]
        ++ replicate 4 Logs.Step)
       (Logs.tailFile_select 0 "/tmp/strux-backend.log" 4) logs_tailing).2
  = [Logs.Line 0 "tial"].
Proof.
  split; [reflexivity|]. split; [reflexivity|]. split; [reflexivity|].
  destruct (tail_drops_the_start_of_a_torn_line logs_env 0 "/tmp/strux-backend.log"
              logs_tailing _ "par" "tial"
              eq_refl eq_refl eq_refl eq_refl eq_refl eq_refl eq_refl) as [H _].
  exact H.
Defined.

(** X23: the pipe reader of a live stream, on the bytes that have
    arrived on the pipe and with nothing more arriving: whole lines, each
    shorter than the 1 MB buffer, followed by an unterminated rest.  It
    invokes the callback once per line, in order, with the line without
    its newline and without a carriage return before it, and skips the
    lines that are then empty.  The rest is delivered as a last line when
    the pipe has been closed, and is kept back while it is open. *)
Theorem readPipe_delivers_lines (e : Logs.env) (p : nat) (s : Logs.state)
    (x : Logs.LogStream) (lines : list string) (last : string) (eof : bool) (k : nat) :
  Logs.pipe_Read e = ("", eof) → Logs.heap s !! p = Some x →
  Logs.done x = 0 → Logs.stopped x = false →
  Forall (λ l, no_LF l ∧ (N.of_nat (String.length l) < Logs.maxTokenSize)%N)
         (lines ++ [last]) →
  4 * length lines + 6 ≤ k →
  Logs.events
    (Logs.solo e (replicate k Logs.Step)
       (Logs.readPipe_select p (String.append (Logs.join_lines lines) last)) s).2
  = Logs.events s
    ++ (Logs.Line p <$> List.filter Logs.nonempty
                          (dropCR <$> lines ++ (if eof then [last] else []))).
Proof.
  intros He Hx Hd Hs Hl Hk. apply Forall_app in Hl as [Hl Hlast].
  apply Forall_singleton in Hlast as [Hn Hm].
  assert (Hlive : Logs.live p s) by (by exists x).
  destruct (LogsMore.pipe_lines e p eof He lines last s Hlive Hl)
    as (j & s' & Hj & Hs' & Hev & Hrun).
  replace k with (j + (6 + (k - j - 6))) by lia.
  rewrite Hrun, (LogsMore.pipe_rest e p eof He last s' _ Hs' Hn Hm), Hev.
  rewrite <- app_assoc, <- fmap_app. do 2 f_equal.
  rewrite fmap_app, List.filter_app. f_equal. by destruct eof.
Qed.

Lemma readPipe_delivers_lines_witness :
  Logs.heap logs_one !! 0
  = Some (Logs.mkStream "logs-1" "" Logs.LogStreamTypeCommand
            (Some (Logs.mkCmd Logs.journalctl_all (Some Running))) None 0 false) ∧
  Logs.events
    (Logs.solo logs_env_eof (replicate 14 Logs.Step)
       (Logs.readPipe_select 0
          (String.append (Logs.join_lines [String.append "one" (String CR ""); ""]) "two"))
       logs_one).2
  = [Logs.Line 0 "one"; Logs.Line 0 "two"].
Proof.
  split; [reflexivity|].
  assert (Hl : Forall (λ l, no_LF l ∧ (N.of_nat (String.length l) < Logs.maxTokenSize)%N)
                 ([String.append "one" (String CR ""); ""] ++ ["two"])).
  { repeat constructor. }
  exact (readPipe_delivers_lines logs_env_eof 0 logs_one _
           [String.append "one" (String CR ""); ""] "two" true 14
           eq_refl eq_refl eq_refl eq_refl Hl ltac:(simpl; lia)).
Defined.




(** X25: in every schedule of the log streamer, a registered stream is
    live: its [done] channel is open and its [stopped] flag is not set, so
    its readers and its tailer deliver.  The flag is set only by a [Stop]
    or [StopAll] that has removed the stream from the registry before. *)
Theorem logs_registered_stream_is_live (files : gmap string string)
    (ls : list Logs.label) (w : Logs.world) (k : string) (p : nat) :
  Logs.run ls (Logs.mkWorld (Logs.NewLogStreamer files) []) = Some w →
  Logs.streams (Logs.st w) !! k = Some p →
  Logs.live p (Logs.st w) ∧
  ∀ q y, Logs.heap (Logs.st w) !! q = Some y → Logs.stopped y = true →
         ∀ k', Logs.streams (Logs.st w) !! k' ≠ Some q.
Proof.
  intros Hrun Hk.
  destruct (LogsMore.run_flagged _ _ _ Hrun (LogsFacts.sound_init files)
              (LogsMore.flagged_init files)) as [Hs Hf].
  assert (Hout : ∀ q y, Logs.heap (Logs.st w) !! q = Some y → Logs.stopped y = true →
                        ∀ k', Logs.streams (Logs.st w) !! k' ≠ Some q).
  { intros q y Hy Hst k' Hk'.
    pose proof (Logs.sound_registered w Hs k' q Hk') as Ht.
    rewrite (LogsFacts.tags_lookup _ _ _ Hy) in Ht.
    destruct (Hf q y Hy Hst) as [Hd|Hown]; [simplify_eq; lia|].
    by destruct (Logs.sound_owned w Hs q Hown) as [_ Hno]; apply (Hno k'). }
  split; [|done].
  pose proof (Logs.sound_registered w Hs k p Hk) as Ht.
  unfold Logs.tags in Ht. rewrite list_lookup_fmap in Ht.
  destruct (Logs.heap (Logs.st w) !! p) as [x|] eqn:Hx; [|done].
  simpl in Ht. exists x. split; [done|]. split; [congruence|].
  destruct (Logs.stopped x) eqn:Hst; [|done].
  exfalso. by apply (Hout p x Hx Hst k).
Qed.

Lemma logs_registered_stream_is_live_witness :
  ∃ w, Logs.run logs_two (Logs.mkWorld (Logs.NewLogStreamer ∅) []) = Some w ∧
       Logs.streams (Logs.st w) !! "app-1" = Some 1 ∧
       Logs.live 1 (Logs.st w).
Proof.
  assert (Hrun : Logs.run logs_two (Logs.mkWorld (Logs.NewLogStreamer ∅) [])
                 = logs_two_end) by (vm_compute; reflexivity).
  unfold logs_two_end in Hrun.
  match type of Hrun with
  | _ = Some ?W =>
      assert (Hk : Logs.streams (Logs.st W) !! "app-1" = Some 1) by reflexivity;
      destruct (logs_registered_stream_is_live ∅ logs_two W "app-1" 1 Hrun Hk)
        as [H _];
      exists W; split; [exact Hrun|]; split; [exact Hk|exact H]
  end.
Defined.
